(** * Side-effect analysis of the TensorFlow MLIR dialect

    A shallow embedding of
    [tensorflow/compiler/mlir/tensorflow/analysis/side_effect_analysis.cc]
    and the properties of the control-dependency graph it computes.

    Hash containers of the source ([llvm::DenseMap], [llvm::SmallDenseSet],
    [llvm::SmallPtrSet]) are finite maps and sets of stdpp; an [Operation*]
    is the address of the operation; the [assert] of [AnalyzeRegion] is an
    error result ([None]). *)

From Stdlib Require Import ZArith Ascii String.
From stdpp Require Import gmap strings list fin_maps sorting.

Set Warnings "-register-all,-clear-no-such-hyp".
Local Open Scope Z_scope.

(** ** The IR, as far as the analysis looks at it *)

(** An [Operation*]: the address identifies the operation. *)
Abbreviation OperationPtr := positive (only parsing).

(** An SSA value; [value_is_resource] is what [filter_resources] tests
    (the element type of the value is the resource type). *)
Record Value : Type := MkValue {
  value_id : positive;
  value_is_resource : bool
}.

(** An operation: its address, its full name (["tf.AssignVariableOp"]),
    operands, results and nested regions.  A region is a list of blocks, a
    block a list of operations. *)
Inductive Operation : Type := MkOperation {
  op_ptr : OperationPtr;
  getName : string;
  getOperands : list Value;
  getResults : list Value;
  getRegions : list (list (list Operation))
}.

Abbreviation Block := (list Operation) (only parsing).
Abbreviation Region := (list (list Operation)) (only parsing).

Record FuncOp : Type := MkFuncOp { getBody : Region }.

(** [ResourceAliasAnalysis::Info], the alias oracle handed to the analysis. *)
Record ResourceAliasAnalysisInfo : Type := MkAliasInfo {
  IsUnknownResource : Value -> bool;
  GetResourceUniqueIds : Value -> gset Z
}.

(** [tensorflow::XlaResourceOpKind] and [tensorflow::XlaResourceOpInfo]. *)
Inductive XlaResourceOpKind : Type := kRead | kWrite | kReadWrite.

Record XlaResourceOpInfo : Type := MkXlaResourceOpInfo {
  kind : XlaResourceOpKind
}.

Definition XlaResourceOpKind_eqb (a b : XlaResourceOpKind) : bool :=
  match a, b with
  | kRead, kRead | kWrite, kWrite | kReadWrite, kReadWrite => true
  | _, _ => false
  end.

(** [llvm::StringRef::split('.')]: the parts before and after the first
    dot; without a dot, the whole string and the empty string. *)
Fixpoint split_dot (s : string) : string * string :=
  match s with
  | EmptyString => (EmptyString, EmptyString)
  | String c rest =>
      if Ascii.eqb c "."%char then (EmptyString, rest)
      else let '(a, b) := split_dot rest in (String c a, b)
  end.

(** [OperationName::getDialect]: the prefix of the name up to the dot. *)
Definition getDialect (name : string) : string := (split_dot name).1.

(** An operation and every operation nested in it, itself first. *)
Fixpoint sub_ops (op : Operation) : list Operation :=
  match op with
  | MkOperation _ _ _ _ regions =>
      op :: concat (map (fun region : Region =>
                     concat (map (fun block : Block =>
                       concat (map sub_ops block)) region)) regions)
  end.

(** The same for a list of operations, a region and a list of regions. *)
Definition ops_all (ops : list Operation) : list Operation :=
  concat (map sub_ops ops).

Definition region_all (region : Region) : list Operation :=
  concat (map ops_all region).

Definition regions_all (regions : list Region) : list Operation :=
  concat (map region_all regions).

(** The addresses of these operations. *)
Definition ptrs (ops : list Operation) : list OperationPtr := map op_ptr ops.

(** The operations a region walk visits at its own level, in order. *)
Definition region_ops (region : Region) : list Operation := concat region.

(** ** The analysis state *)

(** Modelled from the spec: the struct [PerResourceAccessInfo] is declared
    in the header, which is not among the sources; it has the five fields
    the spec lists, [last_write] absent and the flags false at first. *)
Record PerResourceAccessInfo : Type := MkAccessInfo {
  last_write : option OperationPtr;
  reads_since_last_write : list OperationPtr;
  tracked_last_unknown_write_for_read : bool;
  tracked_last_unknown_write_for_write : bool;
  tracked_last_unknown_read : bool
}.

Definition default_access_info : PerResourceAccessInfo :=
  MkAccessInfo None [] false false false.

(** The fields of [SideEffectAnalysisInfo]. *)
Record SideEffectAnalysisInfo : Type := MkInfo {
  per_resource_access_info_ : gmap Z PerResourceAccessInfo;
  control_predecessors_ : gmap OperationPtr (gset OperationPtr);
  sorted_control_predecessors_ : gmap OperationPtr (list OperationPtr);
  sorted_control_successors_ : gmap OperationPtr (list OperationPtr)
}.

Definition empty_info : SideEffectAnalysisInfo := MkInfo ∅ ∅ ∅ ∅.

Definition with_access (per : gmap Z PerResourceAccessInfo)
    (self : SideEffectAnalysisInfo) : SideEffectAnalysisInfo :=
  MkInfo per (control_predecessors_ self)
         (sorted_control_predecessors_ self) (sorted_control_successors_ self).

Definition with_predecessors (cp : gmap OperationPtr (gset OperationPtr))
    (self : SideEffectAnalysisInfo) : SideEffectAnalysisInfo :=
  MkInfo (per_resource_access_info_ self) cp
         (sorted_control_predecessors_ self) (sorted_control_successors_ self).

Definition clear_unknown_read (e : PerResourceAccessInfo) : PerResourceAccessInfo :=
  MkAccessInfo (last_write e) (reads_since_last_write e)
    (tracked_last_unknown_write_for_read e)
    (tracked_last_unknown_write_for_write e) false.

(** A loop whose body may fail: the state is threaded, the first failure
    ends the loop. *)
Definition foldM {A S : Type} (f : A -> S -> option S) : list A -> S -> option S :=
  fix go (l : list A) (s : S) : option S :=
    match l with
    | [] => Some s
    | x :: l' => match f x s with Some s' => go l' s' | None => None end
    end.

(** [llvm::sort] with a comparator, by insertion. *)
Section Sort.
Context {A : Type} (before : A -> A -> bool).

Fixpoint sort_insert (x : A) (l : list A) : list A :=
  match l with
  | [] => [x]
  | y :: l' => if before x y then x :: y :: l' else y :: sort_insert x l'
  end.

Fixpoint llvm_sort (l : list A) : list A :=
  match l with
  | [] => []
  | x :: l' => sort_insert x (llvm_sort l')
  end.
End Sort.

(** What the file takes from headers and tables outside it. *)
Class Externals : Type := MkExternals {
  (** [ResourceAliasAnalysis::Info::kUnknownResourceId]. *)
  kUnknownResourceId : Z;
  (** [TF::TensorFlowDialect::getDialectNamespace()]. *)
  TFDialectNamespace : string;
  (** [llvm::isa<TF::VarHandleOp>], [isa<TF::IdentityNOp>] and
      [isa<TF::IdentityOp>], decided on the operation's name. *)
  isa_VarHandleOp : string -> bool;
  isa_IdentityNOp : string -> bool;
  isa_IdentityOp : string -> bool;
  (** [tensorflow::GetResourceOpInfoForOp], the tf2xla table. *)
  GetResourceOpInfoForOp : string -> option XlaResourceOpInfo;
  (** [TensorFlowDialect::CanHaveSideEffects]. *)
  CanHaveSideEffects : Operation -> bool;
  (** [Operation::isBeforeInBlock], on addresses. *)
  isBeforeInBlock : OperationPtr -> OperationPtr -> bool
}.

Section Analysis.
Context {ext : Externals}.

(** *** Helper functions *)

Definition UnknownResourceSet : gset Z := {[ kUnknownResourceId ]}.

Definition filter_resources (vals : list Value) : list Value :=
  List.filter value_is_resource vals.

(** One of the two loops of [FindAccessedResources]; [None] is the early
    [return UnknownResourceSet()]. *)
Fixpoint collect_resources (alias_analysis : ResourceAliasAnalysisInfo)
    (vals : list Value) (resources : gset Z) : option (gset Z) :=
  match vals with
  | [] => Some resources
  | v :: vals' =>
      if IsUnknownResource alias_analysis v then None
      else collect_resources alias_analysis vals'
             (resources ∪ GetResourceUniqueIds alias_analysis v)
  end.

Definition FindAccessedResources (op : Operation)
    (alias_analysis : ResourceAliasAnalysisInfo) : gset Z :=
  match collect_resources alias_analysis (filter_resources (getOperands op)) ∅ with
  | None => UnknownResourceSet
  | Some resources =>
      match collect_resources alias_analysis
              (filter_resources (getResults op)) resources with
      | None => UnknownResourceSet
      | Some resources' => resources'
      end
  end.

Definition GetResourceInfoForOp (op : Operation) : option XlaResourceOpInfo :=
  if String.eqb (getDialect (getName op)) TFDialectNamespace
  then GetResourceOpInfoForOp (split_dot (getName op)).2
  else None.

Definition OpIsReadOnly (op : Operation) : bool :=
  match GetResourceInfoForOp op with
  | Some resource_op_info => XlaResourceOpKind_eqb (kind resource_op_info) kRead
  | None => false
  end.

Definition OpIsDeclaration (op : Operation)
    (alias_analysis : ResourceAliasAnalysisInfo) : bool :=
  isa_VarHandleOp (getName op)
  || ((isa_IdentityNOp (getName op) || isa_IdentityOp (getName op))
      && negb (bool_decide (FindAccessedResources op alias_analysis = ∅))).

Definition OpIsKnownToHaveNoSideEffect (op : Operation) : bool :=
  if isa_IdentityOp (getName op) then true
  else if String.eqb (getDialect (getName op)) TFDialectNamespace
  then negb (CanHaveSideEffects op)
  else false.

(** *** SideEffectAnalysisInfo *)

Definition TrackAccess (resource_id : Z) (op : OperationPtr) (read_only : bool)
    (self : SideEffectAnalysisInfo) : SideEffectAnalysisInfo :=
  let per0 := per_resource_access_info_ self in
  let per1 :=
    if decide (resource_id = kUnknownResourceId) then
      if read_only then clear_unknown_read <$> per0 else ∅
    else per0 in
  let info := default default_access_info (per1 !! resource_id) in
  let info' :=
    if read_only then
      MkAccessInfo (last_write info) (reads_since_last_write info ++ [op])
        (tracked_last_unknown_write_for_read info) true
        (tracked_last_unknown_read info)
    else MkAccessInfo (Some op) [] true true true in
  with_access (<[resource_id := info']> per1) self.

Definition AddPredecessorsForAccess (resource_id : Z) (op : OperationPtr)
    (read_only : bool) (self : SideEffectAnalysisInfo) : SideEffectAnalysisInfo :=
  match per_resource_access_info_ self !! resource_id with
  | None => self
  | Some access_info =>
      let control_predecessors := default ∅ (control_predecessors_ self !! op) in
      let inserted_reads : gset OperationPtr :=
        if read_only then control_predecessors
        else control_predecessors ∪ list_to_set (reads_since_last_write access_info) in
      let read_tracked :=
        if read_only then false
        else negb (bool_decide (reads_since_last_write access_info = [])) in
      let inserted_write : gset OperationPtr :=
        match last_write access_info with
        | Some w => if read_tracked then inserted_reads else inserted_reads ∪ {[ w ]}
        | None => inserted_reads
        end in
      with_predecessors (<[op := inserted_write]> (control_predecessors_ self)) self
  end.

(** The lambda of [AnalyzeRegion]. *)
Definition unknown_access_indirectly_tracked_by_resource
    (self : SideEffectAnalysisInfo) (resource : Z) (read_only : bool) : bool :=
  match per_resource_access_info_ self !! resource with
  | None => false
  | Some it =>
      let no_unknown_read :=
        match per_resource_access_info_ self !! kUnknownResourceId with
        | None => true
        | Some unknown_it => bool_decide (reads_since_last_write unknown_it = [])
        end in
      if read_only then tracked_last_unknown_write_for_read it
      else tracked_last_unknown_write_for_write it
           && (tracked_last_unknown_read it || no_unknown_read)
  end.

(** The loop over the tracked resources, taken when the access is unknown. *)
Definition unknown_loop_body (op : OperationPtr) (read_only : bool)
    (acc : SideEffectAnalysisInfo * bool) (entry : Z * PerResourceAccessInfo)
    : SideEffectAnalysisInfo * bool :=
  if decide (entry.1 = kUnknownResourceId) then acc
  else
    let self1 := AddPredecessorsForAccess entry.1 op read_only acc.1 in
    (self1, acc.2 || unknown_access_indirectly_tracked_by_resource self1 entry.1 read_only).

(** The loop over the resources of the operation, taken otherwise. *)
Definition known_loop_body (op : OperationPtr) (read_only : bool)
    (acc : SideEffectAnalysisInfo * bool) (resource : Z)
    : SideEffectAnalysisInfo * bool :=
  let self1 := AddPredecessorsForAccess resource op read_only acc.1 in
  let tracked := acc.2 || unknown_access_indirectly_tracked_by_resource self1 resource read_only in
  (TrackAccess resource op read_only self1, tracked).

(** Edge emission and tracking for one operation, from [is_unknown] on. *)
Definition EmitEdges (op : OperationPtr) (resources : gset Z) (read_only : bool)
    (self : SideEffectAnalysisInfo) : SideEffectAnalysisInfo :=
  let is_unknown := bool_decide (kUnknownResourceId ∈ resources) in
  let '(self1, indirectly_tracked_unknown_access) :=
    if is_unknown then
      foldl (unknown_loop_body op read_only) (self, false)
            (map_to_list (per_resource_access_info_ self))
    else
      foldl (known_loop_body op read_only) (self, false) (elements resources) in
  let self2 :=
    if indirectly_tracked_unknown_access then self1
    else AddPredecessorsForAccess kUnknownResourceId op read_only self1 in
  if is_unknown then TrackAccess kUnknownResourceId op read_only self2 else self2.

(** The resource set of an operation that is not skipped. *)
Definition OpResources (op : Operation)
    (alias_analysis : ResourceAliasAnalysisInfo) : gset Z :=
  match GetResourceInfoForOp op with
  | Some _ => FindAccessedResources op alias_analysis
  | None => UnknownResourceSet
  end.

(** The body of the operation loop after the nested regions are done;
    [None] is the failed [assert(!resources.empty())]. *)
Definition VisitOperation (alias_analysis : ResourceAliasAnalysisInfo)
    (op : Operation) (self : SideEffectAnalysisInfo) : option SideEffectAnalysisInfo :=
  if OpIsDeclaration op alias_analysis then Some self
  else if negb (bool_decide (is_Some (GetResourceInfoForOp op)))
          && OpIsKnownToHaveNoSideEffect op then Some self
  else
    let resources := OpResources op alias_analysis in
    if bool_decide (resources = ∅) then None
    else Some (EmitEdges (op_ptr op) resources (OpIsReadOnly op) self).

(** Moving the raw predecessor entries of a child analysis into the
    current one: [control_predecessors_[entry.first] = entry.second]. *)
Definition merge_child (child_analysis self : SideEffectAnalysisInfo)
    : SideEffectAnalysisInfo :=
  with_predecessors
    (foldl (fun cp (entry : OperationPtr * gset OperationPtr) => <[entry.1 := entry.2]> cp)
           (control_predecessors_ self)
           (map_to_list (control_predecessors_ child_analysis)))
    self.

(** Modelled from the spec: the constructor
    [SideEffectAnalysisInfo(Region*, alias_analysis)] is defined in the
    header, which is not among the sources; it analyzes the region as an
    independent scope, here [AnalyzeRegion] on a fresh object. *)
Fixpoint AnalyzeOperation (alias_analysis : ResourceAliasAnalysisInfo)
    (op : Operation) (self : SideEffectAnalysisInfo) {struct op}
    : option SideEffectAnalysisInfo :=
  match op with
  | MkOperation _ _ _ _ regions =>
      match
        foldM (fun (child : Region) (self' : SideEffectAnalysisInfo) =>
                 match foldM (fun block => foldM (AnalyzeOperation alias_analysis) block)
                             child empty_info with
                 | Some child_analysis => Some (merge_child child_analysis self')
                 | None => None
                 end)
              regions self
      with
      | Some self1 => VisitOperation alias_analysis op self1
      | None => None
      end
  end.

Definition AnalyzeRegion (region : Region)
    (alias_analysis : ResourceAliasAnalysisInfo) (self : SideEffectAnalysisInfo)
    : option SideEffectAnalysisInfo :=
  foldM (fun block => foldM (AnalyzeOperation alias_analysis) block) region self.

(** The loop over the nested regions of an operation, as
    [AnalyzeOperation] runs it. *)
Definition AnalyzeChildren (alias_analysis : ResourceAliasAnalysisInfo)
    (regions : list Region) (self : SideEffectAnalysisInfo)
    : option SideEffectAnalysisInfo :=
  foldM (fun (child : Region) (self' : SideEffectAnalysisInfo) =>
           match AnalyzeRegion child alias_analysis empty_info with
           | Some child_analysis => Some (merge_child child_analysis self')
           | None => None
           end)
        regions self.

(** The first loop of [AnalyzeFunction]. *)
Definition push_back (k v : OperationPtr) (m : gmap OperationPtr (list OperationPtr))
    : gmap OperationPtr (list OperationPtr) :=
  <[k := default [] (m !! k) ++ [v]]> m.

Definition populate_entry
    (acc : gmap OperationPtr (list OperationPtr) * gmap OperationPtr (list OperationPtr))
    (entry : OperationPtr * gset OperationPtr)
    : gmap OperationPtr (list OperationPtr) * gmap OperationPtr (list OperationPtr) :=
  foldl (fun acc' predecessor =>
           (push_back entry.1 predecessor acc'.1, push_back predecessor entry.1 acc'.2))
        (<[entry.1 := default [] (acc.1 !! entry.1)]> acc.1, acc.2)
        (elements entry.2).

Definition AnalyzeFunction (func_op : FuncOp)
    (alias_analysis : ResourceAliasAnalysisInfo) (self : SideEffectAnalysisInfo)
    : option SideEffectAnalysisInfo :=
  match AnalyzeRegion (getBody func_op) alias_analysis self with
  | None => None
  | Some self1 =>
      let populated :=
        foldl populate_entry
              (sorted_control_predecessors_ self1, sorted_control_successors_ self1)
              (map_to_list (control_predecessors_ self1)) in
      Some (MkInfo (per_resource_access_info_ self1) ∅
              (llvm_sort isBeforeInBlock <$> populated.1)
              (llvm_sort isBeforeInBlock <$> populated.2))
  end.

(** Modelled from the spec: the constructor
    [SideEffectAnalysisInfo(FuncOp, alias_analysis)] of the header builds
    the graph of a function once, on a fresh object. *)
Definition NewSideEffectAnalysisInfo (func_op : FuncOp)
    (alias_analysis : ResourceAliasAnalysisInfo) : option SideEffectAnalysisInfo :=
  AnalyzeFunction func_op alias_analysis empty_info.

End Analysis.

(** ** Notions the statements below use *)

Section Notions.
Context {ext : Externals}.
Implicit Types (st : SideEffectAnalysisInfo) (p k x d : positive) (r : Z).
Implicit Types (alias : ResourceAliasAnalysisInfo).

(** The raw predecessor set of an operation, empty when it has no entry. *)
Definition preds (self : SideEffectAnalysisInfo) (op : OperationPtr)
    : gset OperationPtr :=
  default ∅ (control_predecessors_ self !! op).

(** The operations some access record remembers. *)
Definition tracked (self : SideEffectAnalysisInfo) (op : OperationPtr) : Prop :=
  exists resource_id access_info,
    per_resource_access_info_ self !! resource_id = Some access_info
    /\ (last_write access_info = Some op
        \/ op ∈ reads_since_last_write access_info).

(** The operations the record of one resource remembers. *)
Definition tracked_by st r x : Prop :=
  exists rec, per_resource_access_info_ st !! r = Some rec
    /\ (last_write rec = Some x \/ x ∈ reads_since_last_write rec).

(** The footprint of the walk: the sorted maps are left alone, raw
    predecessor entries change only at addresses of the operations walked
    over, and the access records learn only the operation visited. *)
Definition footprint (visited : list Operation) (level : list OperationPtr)
    st st' : Prop :=
  sorted_control_predecessors_ st' = sorted_control_predecessors_ st
  /\ sorted_control_successors_ st' = sorted_control_successors_ st
  /\ (forall k, k ∉ ptrs visited ->
        control_predecessors_ st' !! k = control_predecessors_ st !! k)
  /\ (forall x, tracked st' x -> tracked st x \/ x ∈ level).

(** One step of the inner loop of [populate_entry]. *)
Definition push_step k
    (acc : gmap positive (list positive) * gmap positive (list positive)) x :=
  (push_back k x acc.1, push_back x k acc.2).

(** No operation is among its own raw predecessors. *)
Definition irreflexive st : Prop :=
  forall k s, control_predecessors_ st !! k = Some s -> k ∉ s.

(** An operation address the analysis never records: it keys no raw
    entry, is in no raw predecessor set and in no access record. *)
Definition avoids d st : Prop :=
  control_predecessors_ st !! d = None
  /\ (forall k s, control_predecessors_ st !! k = Some s -> d ∉ s)
  /\ ~ tracked st d.

(** Among [ops], the address [d] belongs to declarations only. *)
Definition declared_at alias d (ops : list Operation) : Prop :=
  forall o, o ∈ ops -> op_ptr o = d -> OpIsDeclaration o alias = true.

(** The operation reaches the computation of its resource set. *)
Definition reaches_resources alias (o : Operation) : Prop :=
  OpIsDeclaration o alias = false
  /\ (negb (bool_decide (is_Some (GetResourceInfoForOp o)))
      && OpIsKnownToHaveNoSideEffect o) = false.

(** Some resource operand or result is of unknown identity or has an
    identifier. *)
Definition alias_resolves alias (o : Operation) : Prop :=
  exists v, v ∈ filter_resources (getOperands o) ++ filter_resources (getResults o)
    /\ (IsUnknownResource alias v = true \/ GetResourceUniqueIds alias v <> ∅).

(** Every classified operation of [ops] that reaches the computation of
    its resource set has a resource value the alias oracle resolves. *)
Definition assertion_precondition alias (ops : list Operation) : Prop :=
  forall o, o ∈ ops -> reaches_resources alias o ->
    is_Some (GetResourceInfoForOp o) -> alias_resolves alias o.

(** The operation is visited as an access to [resources], read-only or not. *)
Definition accesses alias (o : Operation) (resources : gset Z) (ro : bool) : Prop :=
  reaches_resources alias o
  /\ OpResources o alias = resources
  /\ OpIsReadOnly o = ro.

(** The visit of the operation touches neither the record of [r] nor
    the record of the unknown resource: the operation is skipped, or it
    accesses other, known resources. *)
Definition leaves_alone alias (o : Operation) (r : Z) : Prop :=
  OpIsDeclaration o alias = true
  \/ (negb (bool_decide (is_Some (GetResourceInfoForOp o)))
      && OpIsKnownToHaveNoSideEffect o) = true
  \/ ((kUnknownResourceId ∉ OpResources o alias) /\ (r ∉ OpResources o alias)).

(** The edges [AddPredecessorsForAccess] takes from a record. *)
Definition record_edges (ro : bool) (rec : option PerResourceAccessInfo)
    : gset positive :=
  match rec with
  | None => ∅
  | Some rec =>
      let write_edge : gset positive :=
        match last_write rec with Some w => {[ w ]} | None => ∅ end in
      if ro then write_edge
      else match reads_since_last_write rec with
           | [] => write_edge
           | reads => list_to_set reads
           end
  end.

(** The record [TrackAccess] leaves for the resource it is called on. *)
Definition track_record (ro : bool) p (rec : option PerResourceAccessInfo)
    : PerResourceAccessInfo :=
  let info := default default_access_info rec in
  if ro then
    MkAccessInfo (last_write info) (reads_since_last_write info ++ [p])
      (tracked_last_unknown_write_for_read info) true (tracked_last_unknown_read info)
  else MkAccessInfo (Some p) [] true true true.

(** A region of the function: the body, or a region nested in an
    operation of a region of the function. *)
Inductive subregion : list (list Operation) -> list (list Operation) -> Prop :=
| subregion_refl region : subregion region region
| subregion_nested region child (o : Operation) body :
    o ∈ concat body -> child ∈ getRegions o -> subregion region child ->
    subregion region body.

End Notions.

(** ** A small dialect and sample functions, for the closed examples *)

Module Sample.
Local Open Scope string_scope.

Definition table (name : string) : option XlaResourceOpInfo :=
  if String.eqb name "ReadVariableOp" then Some (MkXlaResourceOpInfo kRead)
  else if String.eqb name "AssignVariableOp" then Some (MkXlaResourceOpInfo kWrite)
  else None.

Definition externals : Externals :=
  MkExternals (-1) "tf" (String.eqb "tf.VarHandleOp") (String.eqb "tf.IdentityN")
    (String.eqb "tf.Identity") table (fun _ => true) Pos.ltb.

(** The value numbered 1 is of unknown identity, the value numbered 2
    has no identifier, any other value [n] is the resource [n]. *)
Definition alias : ResourceAliasAnalysisInfo :=
  MkAliasInfo (fun v => Pos.eqb (value_id v) 1)
    (fun v => if Pos.eqb (value_id v) 2 then ∅ else {[ Zpos (value_id v) ]}).

(** A write and a read of the resource held by value [r], at address [p]. *)
Definition Assign (p r : positive) : Operation :=
  MkOperation p "tf.AssignVariableOp" [MkValue r true] [] [].
Definition ReadVar (p r : positive) : Operation :=
  MkOperation p "tf.ReadVariableOp" [MkValue r true] [] [].
Definition VarHandle (p : positive) : Operation :=
  MkOperation p "tf.VarHandleOp" [] [MkValue p true] [].
(** An operation of another dialect, which the table does not know. *)
Definition Foreign (p : positive) : Operation :=
  MkOperation p "foo.bar" [] [] [].
(** An operation that holds one region. *)
Definition Nest (p : positive) (region : list (list Operation)) : Operation :=
  MkOperation p "foo.region" [] [] [region].

Definition run (body : list (list Operation)) : option SideEffectAnalysisInfo :=
  @NewSideEffectAnalysisInfo externals (MkFuncOp body) alias.

(** The finalized predecessor and successor lists of an address. *)
Definition predecessors (body : list (list Operation)) (p : positive)
    : option (list positive) :=
  match run body with
  | Some info => sorted_control_predecessors_ info !! p
  | None => None
  end.
Definition successors (body : list (list Operation)) (p : positive)
    : option (list positive) :=
  match run body with
  | Some info => sorted_control_successors_ info !! p
  | None => None
  end.

(** An unknown write, a write of resource 5, a second write of it. *)
Definition barrier_body : list (list Operation) :=
  [[Foreign 10; Assign 11 5; Assign 12 5]].
(** An unknown write, a write of resource 6, the first write of resource 5. *)
Definition first_write_body : list (list Operation) :=
  [[Foreign 10; Assign 11 6; Assign 12 5]].
(** A write, two reads and a write of resource 5, nested in a region. *)
Definition read_write_region : list (list Operation) :=
  [[Assign 10 5; ReadVar 11 5; ReadVar 12 5; Assign 13 5]].
Definition read_write_body : list (list Operation) :=
  [[VarHandle 5; Nest 20 read_write_region]].
(** A write through a resource value without identifier. *)
Definition unresolved_body : list (list Operation) := [[Assign 7 2]].

Definition info_of (body : list (list Operation)) : SideEffectAnalysisInfo :=
  default empty_info (run body).
End Sample.

(** ** The queries, the module constructor and further notions *)

Section Queries.
Context {ext : Externals}.

(** The test [!filter || filter(op)] of the two queries; [None] is the null
    [function_ref]. *)
Definition passes (filter : option (OperationPtr -> bool)) (op : OperationPtr) : bool :=
  match filter with
  | None => true
  | Some f => f op
  end.

(** The loop of the two queries: [result.push_back] of what passes. *)
Definition collect_passing (filter : option (OperationPtr -> bool))
    (ops : list OperationPtr) : list OperationPtr :=
  foldl (fun result o => if passes filter o then result ++ [o] else result) [] ops.

Definition DirectControlPredecessors (self : SideEffectAnalysisInfo)
    (op : OperationPtr) (filter : option (OperationPtr -> bool)) : list OperationPtr :=
  match sorted_control_predecessors_ self !! op with
  | None => []
  | Some predecessors => collect_passing filter predecessors
  end.

Definition DirectControlSuccessors (self : SideEffectAnalysisInfo)
    (op : OperationPtr) (filter : option (OperationPtr -> bool)) : list OperationPtr :=
  match sorted_control_successors_ self !! op with
  | None => []
  | Some successors => collect_passing filter successors
  end.

(** [EmitEdges] with the iteration orders of the two hash containers made
    explicit: [resource_order] enumerates the resource set of the
    operation, [entry_order] the map of access records. *)
Definition EmitEdges_in (resource_order : list Z)
    (entry_order : list (Z * PerResourceAccessInfo))
    (op : OperationPtr) (resources : gset Z) (read_only : bool)
    (self : SideEffectAnalysisInfo) : SideEffectAnalysisInfo :=
  let is_unknown := bool_decide (kUnknownResourceId ∈ resources) in
  let '(self1, indirectly_tracked_unknown_access) :=
    if is_unknown then
      foldl (unknown_loop_body op read_only) (self, false) entry_order
    else
      foldl (known_loop_body op read_only) (self, false) resource_order in
  let self2 :=
    if indirectly_tracked_unknown_access then self1
    else AddPredecessorsForAccess kUnknownResourceId op read_only self1 in
  if is_unknown then TrackAccess kUnknownResourceId op read_only self2 else self2.

(** The resources whose records an access consults before the record of
    the unknown resource: every tracked known resource for an unknown
    access, the resources of the operation otherwise. *)
Definition consulted (self : SideEffectAnalysisInfo) (resources : gset Z) : gset Z :=
  if bool_decide (kUnknownResourceId ∈ resources)
  then dom (per_resource_access_info_ self) ∖ {[ kUnknownResourceId ]}
  else resources.

End Queries.

Section MoreNotions.
Context {ext : Externals}.
Implicit Types (st : SideEffectAnalysisInfo) (p k x d : positive) (r : Z).
Implicit Types (alias : ResourceAliasAnalysisInfo).

(** What holds of every access record the walk builds. *)
Definition record_wf (rec : PerResourceAccessInfo) : Prop :=
  tracked_last_unknown_write_for_write rec = true
  /\ (tracked_last_unknown_write_for_read rec = true <-> is_Some (last_write rec))
  /\ (tracked_last_unknown_read rec = true -> is_Some (last_write rec))
  /\ (is_Some (last_write rec) \/ reads_since_last_write rec <> []).

(** [x] and then [k] are the addresses of two operations of [ops], in this
    order, both of which reach the computation of their resource set. *)
Definition ordered_in alias (ops : list Operation) x k : Prop :=
  exists l1 (a : Operation) l2 (b : Operation) l3,
    ops = l1 ++ a :: l2 ++ b :: l3
    /\ op_ptr a = x /\ op_ptr b = k
    /\ reaches_resources alias a /\ reaches_resources alias b.

(** The edge from [x] to [k] lies within the walk over [ops]: between two
    operations of [ops], or within a region nested in one of them. *)
Inductive edge_within alias : list Operation -> positive -> positive -> Prop :=
| edge_here ops k x : ordered_in alias ops x k -> edge_within alias ops k x
| edge_nested ops (o : Operation) child k x :
    o ∈ ops -> child ∈ getRegions o ->
    edge_within alias (concat child) k x -> edge_within alias ops k x.

(** The state after the walk over [done]: the records remember operations
    of [done] that reached the computation of their resource set, and every
    raw edge lies within the walk. *)
Definition walked alias (done : list Operation) st : Prop :=
  (forall x, tracked st x ->
     exists a : Operation, a ∈ done /\ op_ptr a = x /\ reaches_resources alias a)
  /\ (forall k s x, control_predecessors_ st !! k = Some s -> x ∈ s ->
        edge_within alias done k x).

(** The operation at [d] is never a last write, and whatever has [d] among
    its raw predecessors satisfies [Wr]. *)
Definition read_only_at (Wr : positive -> Prop) d st : Prop :=
  (forall r rec, per_resource_access_info_ st !! r = Some rec -> last_write rec <> Some d)
  /\ (forall k s, control_predecessors_ st !! k = Some s -> d ∈ s -> Wr k).

End MoreNotions.

Section ModuleAnalysis.
Context {ext : Externals}.

(** A module, as far as the constructor looks at it: the functions
    [module.getOps<FuncOp>()] yields, each with its address. *)
Record ModuleOp : Type := MkModuleOp {
  getFuncOps : list (OperationPtr * FuncOp)
}.

(** The constructor [SideEffectAnalysis::SideEffectAnalysis], giving [info_map_].
    [op] is the result of [dyn_cast<ModuleOp>], [None] when the operation is
    no module; [GetAnalysisForFunc] is the alias analysis the constructor
    builds from the module, taken as given.  [try_emplace] constructs the
    analysis of a function only when its key is new. *)
Definition SideEffectAnalysis (op : option ModuleOp)
    (GetAnalysisForFunc : OperationPtr -> ResourceAliasAnalysisInfo)
    : option (gmap OperationPtr SideEffectAnalysisInfo) :=
  match op with
  | None => None
  | Some module =>
      foldM (fun (func : OperationPtr * FuncOp) info_map =>
               match info_map !! func.1 with
               | Some _ => Some info_map
               | None =>
                   match NewSideEffectAnalysisInfo func.2 (GetAnalysisForFunc func.1) with
                   | Some info => Some (<[func.1 := info]> info_map)
                   | None => None
                   end
               end)
            (getFuncOps module) ∅
  end.

End ModuleAnalysis.

Section Ordering.
Context {ext : Externals}.
Implicit Types (st : SideEffectAnalysisInfo) (p k x d : positive) (r : Z).
Implicit Types (alias : ResourceAliasAnalysisInfo).

(** [x] is a raw predecessor of [k]. *)
Definition raw_edge st k x : Prop := x ∈ preds st k.

(** The last write of the record is [x] or depends on it, over any
    number of edges. *)
Definition last_write_covers st (rec : PerResourceAccessInfo) x : Prop :=
  exists w, last_write rec = Some w /\ rtc (raw_edge st) w x.

(** The last unknown write is [x] or depends on it. *)
Definition behind_barrier st x : Prop :=
  exists unknown_rec,
    per_resource_access_info_ st !! kUnknownResourceId = Some unknown_rec
    /\ last_write_covers st unknown_rec x.

(** The record of [r] accounts for the access [x]: a read is still among
    the reads since the last write, or the last write covers the access. *)
Definition on_record st (ro : bool) r x : Prop :=
  exists rec, per_resource_access_info_ st !! r = Some rec
    /\ ((ro = true /\ x ∈ reads_since_last_write rec) \/ last_write_covers st rec x).

(** The access records account for the operation [a] visited earlier. *)
Definition settled alias st (a : Operation) : Prop :=
  behind_barrier st (op_ptr a)
  \/ (kUnknownResourceId ∈ OpResources a alias /\ OpIsReadOnly a = true
      /\ exists unknown_rec,
           per_resource_access_info_ st !! kUnknownResourceId = Some unknown_rec
           /\ op_ptr a ∈ reads_since_last_write unknown_rec)
  \/ ((kUnknownResourceId ∉ OpResources a alias) /\ OpResources a alias <> ∅
      /\ forall r, r ∈ OpResources a alias -> on_record st (OpIsReadOnly a) r (op_ptr a)).

(** What the walk maintains of the records and the raw edges, [done]
    being the operations visited so far at the level of the walk. *)
Definition sound_state alias (done : list Operation) st : Prop :=
  (forall r rec, per_resource_access_info_ st !! r = Some rec -> record_wf rec)
  /\ (forall a, a ∈ done -> reaches_resources alias a -> settled alias st a)
  /\ (forall unknown_rec wu,
        per_resource_access_info_ st !! kUnknownResourceId = Some unknown_rec ->
        last_write unknown_rec = Some wu ->
        forall x, tracked st x -> rtc (raw_edge st) x wu)
  /\ (forall r rec unknown_rec u,
        r <> kUnknownResourceId ->
        per_resource_access_info_ st !! r = Some rec ->
        tracked_last_unknown_read rec = true ->
        per_resource_access_info_ st !! kUnknownResourceId = Some unknown_rec ->
        u ∈ reads_since_last_write unknown_rec ->
        last_write_covers st rec u)
  /\ (forall r rec x w,
        r <> kUnknownResourceId ->
        per_resource_access_info_ st !! r = Some rec ->
        x ∈ reads_since_last_write rec -> last_write rec = Some w ->
        raw_edge st x w).

(** Two accesses conflict: one of them writes, and they share a resource
    or one of them is to the unknown resource. *)
Definition conflict (resources_a : gset Z) (ro_a : bool)
    (resources_b : gset Z) (ro_b : bool) : Prop :=
  (ro_a = false \/ ro_b = false)
  /\ (kUnknownResourceId ∈ resources_a \/ kUnknownResourceId ∈ resources_b
      \/ exists r, r ∈ resources_a /\ r ∈ resources_b).

(** [k] comes after [x] in the finalized graph: a chain of one or more
    predecessor edges leads from [k] to [x]. *)
Definition depends_on (info : SideEffectAnalysisInfo) : relation positive :=
  tc (fun k x => exists l, sorted_control_predecessors_ info !! k = Some l /\ x ∈ l).

End Ordering.

Section ProgramOrder.

(** [x] occurs before [k] in the list. *)
Definition earlier (l : list positive) (x k : positive) : Prop :=
  exists i j, (i < j)%nat /\ l !! i = Some x /\ l !! j = Some k.

End ProgramOrder.

Section Failure.
Context {ext : Externals}.

(** The operation on which the assertion of [AnalyzeRegion] fails. *)
Definition fails_assertion (alias : ResourceAliasAnalysisInfo) (o : Operation) : Prop :=
  reaches_resources alias o /\ OpResources o alias = ∅.

End Failure.

(** ** Further samples *)

Module SampleModule.
Import Sample.
Local Open Scope string_scope.

(** An identity operation without operands. *)
Definition Pass (p : positive) : Operation :=
  MkOperation p "tf.Identity" [] [] [].

(** A module of two of the sample functions; every function gets the
    sample alias analysis. *)
Definition two_functions : ModuleOp :=
  MkModuleOp [(100%positive, MkFuncOp read_write_body);
              (200%positive, MkFuncOp first_write_body)].

Definition GetAnalysisForFunc (func : positive) : ResourceAliasAnalysisInfo := alias.

(** The state of the walk after the given operations of one block. *)
Definition state_after (ops : list Operation) : SideEffectAnalysisInfo :=
  default empty_info (@AnalyzeRegion externals [ops] alias empty_info).

(** The operations of [read_write_region] before its second write. *)
Definition before_second_write : list Operation :=
  [Assign 10 5; ReadVar 11 5; ReadVar 12 5].

End SampleModule.

(** * Properties of the analysis *)

Lemma Operation_nested_ind (P : Operation -> Prop) :
  (forall ptr name operands results regions,
      Forall (Forall (Forall P)) regions ->
      P (MkOperation ptr name operands results regions)) ->
  forall op, P op.
Proof.
  intros step. fix IH 1. intros [ptr name operands results regions].
  apply step.
  induction regions as [|region regions IHregions]; constructor; [|exact IHregions].
  induction region as [|block region IHregion]; constructor; [|exact IHregion].
  induction block as [|op block IHblock]; constructor; [apply IH | exact IHblock].
Qed.

Lemma sub_ops_eq op : sub_ops op = op :: regions_all (getRegions op).
Proof. destruct op; reflexivity. Qed.

Section Properties.
Context {ext : Externals}.

Implicit Types (self st : SideEffectAnalysisInfo) (op p k x : positive) (r : Z).

Lemma AnalyzeOperation_eq alias (o : Operation) st :
  AnalyzeOperation alias o st =
  match AnalyzeChildren alias (getRegions o) st with
  | Some st1 => VisitOperation alias o st1
  | None => None
  end.
Proof. destruct o; reflexivity. Qed.

Lemma foldM_app {A S} (f : A -> S -> option S) l1 l2 s :
  foldM f (l1 ++ l2) s =
  match foldM f l1 s with Some s' => foldM f l2 s' | None => None end.
Proof.
  revert s; induction l1 as [|a l1 IH]; intros s; simpl; [done|].
  destruct (f a s); [apply IH | done].
Qed.

Lemma AnalyzeRegion_concat region alias st :
  AnalyzeRegion region alias st = foldM (AnalyzeOperation alias) (concat region) st.
Proof.
  unfold AnalyzeRegion. revert st.
  induction region as [|block region IH]; intros st; simpl; [done|].
  rewrite foldM_app. destruct (foldM _ block st); [apply IH | done].
Qed.

(** *** The two state updates *)

Lemma AddPredecessorsForAccess_access r p ro st :
  per_resource_access_info_ (AddPredecessorsForAccess r p ro st)
  = per_resource_access_info_ st.
Proof.
  unfold AddPredecessorsForAccess.
  destruct (per_resource_access_info_ st !! r); reflexivity.
Qed.

Lemma AddPredecessorsForAccess_sorted r p ro st :
  sorted_control_predecessors_ (AddPredecessorsForAccess r p ro st)
  = sorted_control_predecessors_ st
  /\ sorted_control_successors_ (AddPredecessorsForAccess r p ro st)
    = sorted_control_successors_ st.
Proof.
  unfold AddPredecessorsForAccess.
  destruct (per_resource_access_info_ st !! r); split; reflexivity.
Qed.

Lemma AddPredecessorsForAccess_other r p ro st k :
  k <> p ->
  control_predecessors_ (AddPredecessorsForAccess r p ro st) !! k
  = control_predecessors_ st !! k.
Proof.
  intros Hk. unfold AddPredecessorsForAccess.
  destruct (per_resource_access_info_ st !! r); [|reflexivity].
  simpl. by rewrite lookup_insert_ne.
Qed.

Lemma AddPredecessorsForAccess_absent r p ro st :
  per_resource_access_info_ st !! r = None ->
  AddPredecessorsForAccess r p ro st = st.
Proof. intros Hr. unfold AddPredecessorsForAccess. by rewrite Hr. Qed.

Lemma AddPredecessorsForAccess_preds r p ro st rec x :
  per_resource_access_info_ st !! r = Some rec ->
  x ∈ preds (AddPredecessorsForAccess r p ro st) p <->
  x ∈ preds st p
  \/ x ∈ (if ro then [] else reads_since_last_write rec)
  \/ (last_write rec = Some x
      /\ (if ro then [] else reads_since_last_write rec) = []).
Proof.
  intros Hr. unfold preds, AddPredecessorsForAccess. rewrite Hr. simpl.
  rewrite lookup_insert_eq. simpl.
  destruct ro; simpl.
  - destruct (last_write rec) as [w|]; set_solver.
  - destruct (reads_since_last_write rec) as [|a l] eqn:Hreads; simpl.
    + destruct (last_write rec) as [w|]; set_solver.
    + destruct (last_write rec) as [w|]; set_solver.
Qed.

Lemma AddPredecessorsForAccess_key r p ro st rec :
  per_resource_access_info_ st !! r = Some rec ->
  is_Some (control_predecessors_ (AddPredecessorsForAccess r p ro st) !! p).
Proof.
  intros Hr. unfold AddPredecessorsForAccess. rewrite Hr. simpl.
  rewrite lookup_insert_eq. eauto.
Qed.

Lemma TrackAccess_predecessors r p ro st :
  control_predecessors_ (TrackAccess r p ro st) = control_predecessors_ st
  /\ sorted_control_predecessors_ (TrackAccess r p ro st)
    = sorted_control_predecessors_ st
  /\ sorted_control_successors_ (TrackAccess r p ro st)
    = sorted_control_successors_ st.
Proof. done. Qed.

(** Tracking a concrete resource touches the record of that resource only. *)
Lemma TrackAccess_known_other r r' p ro st :
  r <> kUnknownResourceId -> r' <> r ->
  per_resource_access_info_ (TrackAccess r p ro st) !! r'
  = per_resource_access_info_ st !! r'.
Proof.
  intros Hr Hr'. unfold TrackAccess. rewrite decide_False by done. simpl.
  by rewrite lookup_insert_ne.
Qed.

Lemma TrackAccess_known_write r p st :
  r <> kUnknownResourceId ->
  per_resource_access_info_ (TrackAccess r p false st) !! r
  = Some (MkAccessInfo (Some p) [] true true true).
Proof.
  intros Hr. unfold TrackAccess. rewrite decide_False by done. simpl.
  by rewrite lookup_insert_eq.
Qed.

Lemma TrackAccess_known_read r p st :
  r <> kUnknownResourceId ->
  per_resource_access_info_ (TrackAccess r p true st) !! r
  = Some (let info := default default_access_info (per_resource_access_info_ st !! r) in
          MkAccessInfo (last_write info) (reads_since_last_write info ++ [p])
            (tracked_last_unknown_write_for_read info) true
            (tracked_last_unknown_read info)).
Proof.
  intros Hr. unfold TrackAccess. rewrite decide_False by done. simpl.
  by rewrite lookup_insert_eq.
Qed.

(** The first step of [TrackAccess] forgets records or clears a flag; it
    never adds an operation to a record. *)
Lemma TrackAccess_barrier_sub r (ro : bool) (per0 : gmap Z PerResourceAccessInfo) r' rec1 :
  (if decide (r = kUnknownResourceId)
   then if ro then clear_unknown_read <$> per0 else ∅
   else per0) !! r' = Some rec1 ->
  exists rec0, per0 !! r' = Some rec0
    /\ last_write rec1 = last_write rec0
    /\ reads_since_last_write rec1 = reads_since_last_write rec0.
Proof.
  destruct (decide (r = kUnknownResourceId)); [destruct ro|].
  - rewrite lookup_fmap. destruct (per0 !! r') as [rec0|]; simpl; [|done].
    intros [= <-]. by exists rec0.
  - by rewrite lookup_empty.
  - intros Hl. by exists rec1.
Qed.

Lemma TrackAccess_tracked r p ro st x :
  tracked (TrackAccess r p ro st) x -> tracked st x \/ x = p.
Proof.
  intros (r' & rec & Hlook & Hx). unfold TrackAccess in Hlook. simpl in Hlook.
  destruct (decide (r' = r)) as [->|Hne].
  - rewrite lookup_insert_eq in Hlook. injection Hlook as <-.
    destruct ro; simpl in Hx.
    + match type of Hx with context [default _ (?m !! r)] =>
        destruct (m !! r) as [rec1|] eqn:Hrec1 end; simpl in Hx.
      * apply (TrackAccess_barrier_sub r true) in Hrec1 as (rec0 & Hrec0 & Hw & Hr).
        rewrite Hw, Hr in Hx.
        destruct Hx as [Hx|Hx]; [left; exists r, rec0; auto|].
        apply elem_of_app in Hx as [Hx|Hx]; [left; exists r, rec0; auto|].
        apply list_elem_of_singleton in Hx. by right.
      * destruct Hx as [Hx|Hx]; [done|].
        apply list_elem_of_singleton in Hx. by right.
    + destruct Hx as [Hx|Hx]; [injection Hx as <-; by right|].
      by apply elem_of_nil in Hx.
  - rewrite lookup_insert_ne in Hlook by done.
    apply TrackAccess_barrier_sub in Hlook as (rec0 & Hrec0 & Hw & Hr).
    rewrite Hw, Hr in Hx. left; exists r', rec0; auto.
Qed.

(** *** Edge emission for one operation *)

Lemma tracked_by_tracked st r x : tracked_by st r x -> tracked st x.
Proof. intros (rec & ? & ?). by exists r, rec. Qed.

Lemma AddPredecessorsForAccess_preds_sub r p ro st x :
  x ∈ preds (AddPredecessorsForAccess r p ro st) p ->
  x ∈ preds st p \/ tracked_by st r x.
Proof.
  destruct (per_resource_access_info_ st !! r) as [rec|] eqn:Hr.
  - rewrite (AddPredecessorsForAccess_preds _ _ _ _ rec) by done.
    intros [Hx|[Hx|[Hx _]]]; [by left| |].
    + right. exists rec. split; [done|]. right. destruct ro; [|done].
      by apply elem_of_nil in Hx.
    + right. exists rec. auto.
  - rewrite AddPredecessorsForAccess_absent by done. by left.
Qed.

Lemma preds_other st st' p :
  control_predecessors_ st' !! p = control_predecessors_ st !! p ->
  preds st' p = preds st p.
Proof. unfold preds. by intros ->. Qed.

Lemma unknown_loop_spec p ro l st b :
  let st' := (foldl (unknown_loop_body p ro) (st, b) l).1 in
  per_resource_access_info_ st' = per_resource_access_info_ st
  /\ sorted_control_predecessors_ st' = sorted_control_predecessors_ st
  /\ sorted_control_successors_ st' = sorted_control_successors_ st
  /\ (forall k, k <> p -> control_predecessors_ st' !! k = control_predecessors_ st !! k)
  /\ (forall x, x ∈ preds st' p -> x ∈ preds st p \/ tracked st x).
Proof.
  revert st b. induction l as [|[r rec] l IH]; intros st b; simpl.
  - repeat split; auto.
  - destruct (unknown_loop_body p ro (st, b) (r, rec)) as [s c] eqn:Hstep.
    unfold unknown_loop_body in Hstep. simpl in Hstep.
    destruct (decide (r = kUnknownResourceId)); [injection Hstep as <- <-; apply IH|].
    injection Hstep as <- <-.
    match goal with |- context [foldl _ (?s, ?c) l] =>
      destruct (IH s c) as (Hper & Hsp & Hss & Hcp & Hpreds) end.
    rewrite Hper, Hsp, Hss.
    rewrite AddPredecessorsForAccess_access.
    destruct (AddPredecessorsForAccess_sorted r p ro st) as [-> ->].
    repeat split; auto.
    + intros k Hk. rewrite Hcp by done. by apply AddPredecessorsForAccess_other.
    + intros x Hx. apply Hpreds in Hx as [Hx|(r' & rec' & Hl & Hx)].
      * apply AddPredecessorsForAccess_preds_sub in Hx as [?|?];
          eauto using tracked_by_tracked.
      * right. exists r', rec'. by rewrite AddPredecessorsForAccess_access in Hl.
Qed.

Lemma known_loop_spec p ro l st b :
  NoDup l -> kUnknownResourceId ∉ l ->
  let st' := (foldl (known_loop_body p ro) (st, b) l).1 in
  (forall r, r ∉ l -> per_resource_access_info_ st' !! r = per_resource_access_info_ st !! r)
  /\ sorted_control_predecessors_ st' = sorted_control_predecessors_ st
  /\ sorted_control_successors_ st' = sorted_control_successors_ st
  /\ (forall k, k <> p -> control_predecessors_ st' !! k = control_predecessors_ st !! k)
  /\ (forall x, x ∈ preds st' p -> x ∈ preds st p \/ exists r, r ∈ l /\ tracked_by st r x)
  /\ (forall x, tracked st' x -> tracked st x \/ x = p).
Proof.
  revert st b. induction l as [|r l IH]; intros st b Hnd Hu; simpl.
  - repeat split; auto.
  - apply NoDup_cons in Hnd as [Hr Hnd]. apply not_elem_of_cons in Hu as [Hur Hu].
    destruct (known_loop_body p ro (st, b) r) as [s c] eqn:Hstep.
    unfold known_loop_body in Hstep. simpl in Hstep. injection Hstep as <- <-.
    match goal with |- context [foldl _ (?s, ?c) l] =>
      destruct (IH s c Hnd Hu) as (Hper & Hsp & Hss & Hcp & Hpreds & Htr) end.
    rewrite Hsp, Hss.
    destruct (AddPredecessorsForAccess_sorted r p ro st) as [Hsp1 Hss1].
    split; [|split; [|split; [|split; [|split]]]]; simpl; auto.
    + intros r' Hr'. apply not_elem_of_cons in Hr' as [Hr'1 Hr'2].
      rewrite Hper by done. rewrite TrackAccess_known_other by done.
      by rewrite AddPredecessorsForAccess_access.
    + intros k Hk. rewrite Hcp by done. simpl.
      by apply AddPredecessorsForAccess_other.
    + intros x Hx. apply Hpreds in Hx as [Hx|(r' & Hr' & rec' & Hl & Hx)].
      * unfold preds in Hx. simpl in Hx.
        apply AddPredecessorsForAccess_preds_sub in Hx as [?|?]; [by left|].
        right. exists r. split; [left|done].
      * right. exists r'. split; [by right|]. exists rec'. split; [|done].
        rewrite TrackAccess_known_other in Hl by (done || set_solver).
        by rewrite AddPredecessorsForAccess_access in Hl.
    + intros x Hx. apply Htr in Hx as [Hx|Hx]; [|by right].
      apply TrackAccess_tracked in Hx as [(r' & rec' & Hl & Hx)|Hx]; [|by right].
      left. exists r', rec'. by rewrite AddPredecessorsForAccess_access in Hl.
Qed.

(** What one operation's edge emission can change: the raw predecessor
    entry of that operation, by operations the records remember, and the
    records, by that operation. *)
Lemma EmitEdges_spec p resources ro st :
  let st' := EmitEdges p resources ro st in
  sorted_control_predecessors_ st' = sorted_control_predecessors_ st
  /\ sorted_control_successors_ st' = sorted_control_successors_ st
  /\ (forall k, k <> p -> control_predecessors_ st' !! k = control_predecessors_ st !! k)
  /\ (forall x, x ∈ preds st' p -> x ∈ preds st p \/ tracked st x)
  /\ (forall x, tracked st' x -> tracked st x \/ x = p)
  /\ (kUnknownResourceId ∉ resources ->
      forall r, r ∉ resources ->
        per_resource_access_info_ st' !! r = per_resource_access_info_ st !! r).
Proof.
  unfold EmitEdges.
  destruct (bool_decide (kUnknownResourceId ∈ resources)) eqn:Hunk.
  - apply bool_decide_eq_true in Hunk.
    pose proof (unknown_loop_spec p ro (map_to_list (per_resource_access_info_ st)) st false)
      as (Hper & Hsp & Hss & Hcp & Hpreds).
    destruct (foldl _ _ _) as [st1 tr]. simpl in *.
    set (st2 := if tr then st1 else AddPredecessorsForAccess kUnknownResourceId p ro st1).
    assert (per_resource_access_info_ st2 = per_resource_access_info_ st) as Hper2.
    { unfold st2. destruct tr; [done|]. by rewrite AddPredecessorsForAccess_access. }
    assert (sorted_control_predecessors_ st2 = sorted_control_predecessors_ st
            /\ sorted_control_successors_ st2 = sorted_control_successors_ st) as [Hsp2 Hss2].
    { unfold st2. destruct tr; [done|].
      destruct (AddPredecessorsForAccess_sorted kUnknownResourceId p ro st1) as [-> ->].
      done. }
    assert (forall k, k <> p ->
              control_predecessors_ st2 !! k = control_predecessors_ st !! k) as Hcp2.
    { intros k Hk. unfold st2. destruct tr; [by apply Hcp|].
      rewrite AddPredecessorsForAccess_other by done. by apply Hcp. }
    assert (forall x, x ∈ preds st2 p -> x ∈ preds st p \/ tracked st x) as Hpreds2.
    { intros x. unfold st2. destruct tr; [by apply Hpreds|].
      intros Hx. apply AddPredecessorsForAccess_preds_sub in Hx as [Hx|Hx]; [by apply Hpreds|].
      right. destruct Hx as (rec & Hl & Hx). rewrite Hper in Hl.
      by exists kUnknownResourceId, rec. }
    repeat split; auto.
    + intros x Hx. apply TrackAccess_tracked in Hx as [(r & rec & Hl & Hx)|Hx]; [|by right].
      left. exists r, rec. by rewrite Hper2 in Hl.
    + done.
  - apply bool_decide_eq_false in Hunk.
    assert (kUnknownResourceId ∉ elements resources) as Hunk' by set_solver.
    pose proof (known_loop_spec p ro (elements resources) st false
                  (NoDup_elements resources) Hunk')
      as (Hper & Hsp & Hss & Hcp & Hpreds & Htr).
    destruct (foldl _ _ _) as [st1 tr]. simpl in *.
    destruct tr.
    + repeat split; auto.
      * intros x Hx. apply Hpreds in Hx as [Hx|(r & _ & Hx)];
          eauto using tracked_by_tracked.
      * intros _ r Hr. apply Hper. set_solver.
    + destruct (AddPredecessorsForAccess_sorted kUnknownResourceId p ro st1) as [-> ->].
      rewrite AddPredecessorsForAccess_access.
      repeat split; auto.
      * intros k Hk. rewrite AddPredecessorsForAccess_other by done. by apply Hcp.
      * intros x Hx. apply AddPredecessorsForAccess_preds_sub in Hx as [Hx|Hx].
        -- apply Hpreds in Hx as [Hx|(r & _ & Hx)]; eauto using tracked_by_tracked.
        -- right. destruct Hx as (rec & Hl & Hx). rewrite Hper in Hl by done.
           by exists kUnknownResourceId, rec.
      * intros x (r & rec & Hl & Hx).
        apply Htr. exists r, rec. by rewrite AddPredecessorsForAccess_access in Hl.
      * intros _ r Hr. apply Hper. set_solver.
Qed.

Lemma VisitOperation_spec alias (o : Operation) st st' :
  VisitOperation alias o st = Some st' ->
  sorted_control_predecessors_ st' = sorted_control_predecessors_ st
  /\ sorted_control_successors_ st' = sorted_control_successors_ st
  /\ (forall k, k <> op_ptr o -> control_predecessors_ st' !! k = control_predecessors_ st !! k)
  /\ (forall x, x ∈ preds st' (op_ptr o) -> x ∈ preds st (op_ptr o) \/ tracked st x)
  /\ (forall x, tracked st' x -> tracked st x \/ x = op_ptr o)
  /\ (OpIsDeclaration o alias = true -> st' = st).
Proof.
  unfold VisitOperation. intros Hv.
  destruct (OpIsDeclaration o alias); [injection Hv as <-; repeat split; auto|].
  destruct (negb _ && _); [injection Hv as <-; repeat split; auto; done|].
  destruct (bool_decide _); [done|]. injection Hv as <-.
  destruct (EmitEdges_spec (op_ptr o) (OpResources o alias) (OpIsReadOnly o) st)
    as (? & ? & ? & ? & ? & _).
  repeat split; auto. done.
Qed.

(** *** Nested regions *)

Lemma foldl_insert_lookup {V} (l : list (positive * V)) (m : gmap positive V) k :
  NoDup l.*1 ->
  foldl (fun cp (entry : positive * V) => <[entry.1 := entry.2]> cp) m l !! k
  = match (list_to_map l : gmap positive V) !! k with
    | Some v => Some v
    | None => m !! k
    end.
Proof.
  revert m. induction l as [|[k' v] l IH]; intros m Hnd; simpl.
  - by rewrite lookup_empty.
  - apply NoDup_cons in Hnd as [Hk' Hnd]. rewrite IH by done.
    destruct (decide (k = k')) as [->|Hne].
    + rewrite lookup_insert_eq.
      rewrite (not_elem_of_list_to_map_1 (M := gmap positive) l k') by done.
      by rewrite lookup_insert_eq.
    + rewrite (lookup_insert_ne (list_to_map l)) by done.
      by rewrite lookup_insert_ne by done.
Qed.

Lemma merge_child_predecessors child st k :
  control_predecessors_ (merge_child child st) !! k
  = match control_predecessors_ child !! k with
    | Some s => Some s
    | None => control_predecessors_ st !! k
    end.
Proof.
  unfold merge_child. simpl.
  rewrite foldl_insert_lookup by apply NoDup_fst_map_to_list.
  by rewrite list_to_map_to_list.
Qed.

Lemma Forall_nested_concat (P : Operation -> Prop) (region : list (list Operation)) :
  Forall (Forall P) region -> Forall P (concat region).
Proof. intros Hr. by apply Forall_concat. Qed.

Lemma ops_all_app l1 l2 : ops_all (l1 ++ l2) = ops_all l1 ++ ops_all l2.
Proof. unfold ops_all. by rewrite map_app, concat_app. Qed.

Lemma ops_all_cons o l : ops_all (o :: l) = sub_ops o ++ ops_all l.
Proof. reflexivity. Qed.

Lemma region_all_concat region : region_all region = ops_all (concat region).
Proof.
  unfold region_all. induction region as [|b region IH]; simpl; [done|].
  by rewrite ops_all_app, IH.
Qed.

Lemma regions_all_cons region regions :
  regions_all (region :: regions) = ops_all (concat region) ++ regions_all regions.
Proof. unfold regions_all. simpl. by rewrite region_all_concat. Qed.

Lemma ptrs_app l1 l2 : ptrs (l1 ++ l2) = ptrs l1 ++ ptrs l2.
Proof. apply map_app. Qed.

Lemma ptrs_sub l : ptrs l ⊆ ptrs (ops_all l).
Proof.
  induction l as [|o l IH]; [done|]. rewrite ops_all_cons, sub_ops_eq. simpl.
  rewrite ptrs_app. intros x Hx. apply elem_of_cons in Hx as [->|Hx]; [left|].
  right. apply elem_of_app. right. by apply IH.
Qed.

Lemma footprint_ops alias ops :
  Forall (fun o => forall st st', AnalyzeOperation alias o st = Some st' ->
                     footprint (sub_ops o) [op_ptr o] st st') ops ->
  forall st st', foldM (AnalyzeOperation alias) ops st = Some st' ->
    footprint (ops_all ops) (ptrs ops) st st'.
Proof.
  induction 1 as [|o ops Ho Hops IH]; intros st st' Hrun; simpl in Hrun.
  - injection Hrun as <-. repeat split; auto.
  - destruct (AnalyzeOperation alias o st) as [st1|] eqn:Hst1; [|done].
    destruct (Ho _ _ Hst1) as (Hsp1 & Hss1 & Hcp1 & Htr1).
    destruct (IH _ _ Hrun) as (Hsp & Hss & Hcp & Htr).
    rewrite ops_all_cons.
    split; [congruence|]. split; [congruence|]. split.
    + intros k Hk. rewrite ptrs_app in Hk.
      apply not_elem_of_app in Hk as [Hk1 Hk2]. rewrite Hcp by done. by apply Hcp1.
    + intros x Hx. simpl. apply Htr in Hx as [Hx|Hx]; [|right; by right].
      apply Htr1 in Hx as [Hx|Hx]; [by left|].
      apply list_elem_of_singleton in Hx as ->. right; left.
Qed.

Lemma footprint_children alias regions :
  Forall (fun region => forall st st', AnalyzeRegion region alias st = Some st' ->
                          footprint (region_all region) (ptrs (concat region)) st st')
         regions ->
  forall st st', AnalyzeChildren alias regions st = Some st' ->
    per_resource_access_info_ st' = per_resource_access_info_ st
    /\ footprint (regions_all regions) [] st st'.
Proof.
  unfold AnalyzeChildren.
  induction 1 as [|region regions Hregion Hregions IH]; intros st st' Hrun; simpl in Hrun.
  - injection Hrun as <-. repeat split; auto.
  - destruct (AnalyzeRegion region alias empty_info) as [child|] eqn:Hchild; [|done].
    destruct (Hregion _ _ Hchild) as (_ & _ & Hcpc & _).
    destruct (IH _ _ Hrun) as (Hper & Hsp & Hss & Hcp & Htr).
    split; [by rewrite Hper|]. split; [by rewrite Hsp|]. split; [by rewrite Hss|].
    split.
    + intros k Hk. rewrite regions_all_cons, ptrs_app, <- region_all_concat in Hk.
      apply not_elem_of_app in Hk as [Hk1 Hk2]. rewrite Hcp by done.
      rewrite merge_child_predecessors, Hcpc by done. done.
    + intros x (r & rec & Hl & Hx). left. exists r, rec. by rewrite Hper in Hl.
Qed.

Lemma footprint_op alias (o : Operation) st st' :
  AnalyzeOperation alias o st = Some st' -> footprint (sub_ops o) [op_ptr o] st st'.
Proof.
  revert st st'. induction o as [ptr name operands results regions IH]
    using Operation_nested_ind.
  intros st st' Hrun. rewrite AnalyzeOperation_eq in Hrun. simpl in Hrun.
  destruct (AnalyzeChildren alias regions st) as [st1|] eqn:Hst1; [|done].
  assert (Forall (fun region => forall st st', AnalyzeRegion region alias st = Some st' ->
            footprint (region_all region) (ptrs (concat region)) st st') regions) as Hregions.
  { eapply Forall_impl; [exact IH|]. intros region Hregion st0 st0' Hrun0.
    rewrite AnalyzeRegion_concat in Hrun0. rewrite region_all_concat.
    eapply footprint_ops; [|done]. by apply Forall_nested_concat. }
  destruct (footprint_children _ _ Hregions _ _ Hst1) as (Hper & Hsp & Hss & Hcp & _).
  apply VisitOperation_spec in Hrun as (Hsp' & Hss' & Hcp' & _ & Htr' & _).
  rewrite sub_ops_eq.
  split; [congruence|]. split; [congruence|]. split.
  - intros k Hk. apply not_elem_of_cons in Hk as [Hk1 Hk2].
    rewrite Hcp' by done. by apply Hcp.
  - intros x Hx. apply Htr' in Hx as [(r & rec & Hl & Hx)| ->]; [|right; left].
    left. exists r, rec. by rewrite Hper in Hl.
Qed.

Lemma footprint_walk alias ops st st' :
  foldM (AnalyzeOperation alias) ops st = Some st' ->
  footprint (ops_all ops) (ptrs ops) st st'.
Proof.
  apply footprint_ops. apply Forall_forall. intros o _ ? ?. apply footprint_op.
Qed.

Lemma footprint_region alias region st st' :
  AnalyzeRegion region alias st = Some st' ->
  footprint (region_all region) (ptrs (concat region)) st st'.
Proof.
  rewrite AnalyzeRegion_concat, region_all_concat. apply footprint_walk.
Qed.

Lemma AnalyzeChildren_spec alias regions st st' :
  AnalyzeChildren alias regions st = Some st' ->
  per_resource_access_info_ st' = per_resource_access_info_ st
  /\ footprint (regions_all regions) [] st st'.
Proof.
  apply footprint_children. apply Forall_forall. intros region _ ? ?.
  apply footprint_region.
Qed.

End Properties.

Section SortProperties.
Context {A : Type} (before : A -> A -> bool).

Lemma sort_insert_Permutation x l : sort_insert before x l ≡ₚ x :: l.
Proof.
  induction l as [|y l IH]; simpl; [done|].
  destruct (before x y); [done|]. rewrite IH. apply Permutation_swap.
Qed.

Lemma llvm_sort_Permutation l : llvm_sort before l ≡ₚ l.
Proof.
  induction l as [|x l IH]; simpl; [done|].
  by rewrite sort_insert_Permutation, IH.
Qed.

Lemma llvm_sort_elem_of x l : x ∈ llvm_sort before l <-> x ∈ l.
Proof. by rewrite llvm_sort_Permutation. Qed.

(** The comparator is a strict total order. *)
Hypothesis before_trans : forall a b c,
  before a b = true -> before b c = true -> before a c = true.
Hypothesis before_total : forall a b,
  a <> b -> before a b = true \/ before b a = true.

Lemma sort_insert_sorted x l :
  x ∉ l -> StronglySorted (fun a b => before a b = true) l ->
  StronglySorted (fun a b => before a b = true) (sort_insert before x l).
Proof.
  induction l as [|y l IH]; intros Hx Hl; simpl.
  - repeat constructor.
  - apply not_elem_of_cons in Hx as [Hxy Hx].
    apply StronglySorted_inv in Hl as [Hl Hy].
    destruct (before x y) eqn:Hb.
    + constructor; [by constructor|]. constructor; [done|].
      eapply Forall_impl; [exact Hy|]. intros z Hz. by eapply before_trans.
    + constructor; [by apply IH|].
      rewrite sort_insert_Permutation. constructor; [|done].
      destruct (before_total x y Hxy) as [Hc|Hc]; [congruence|done].
Qed.

Lemma llvm_sort_sorted l :
  NoDup l -> StronglySorted (fun a b => before a b = true) (llvm_sort before l).
Proof.
  induction 1 as [|x l Hx Hl IH]; simpl; [constructor|].
  apply sort_insert_sorted; [|done]. by rewrite llvm_sort_Permutation.
Qed.
End SortProperties.

Section Finalizer.
Context {ext : Externals}.
Implicit Types (k x : positive).

Lemma populate_entry_eq acc (entry : positive * gset positive) :
  populate_entry acc entry
  = foldl (push_step entry.1)
      (<[entry.1 := default [] (acc.1 !! entry.1)]> acc.1, acc.2) (elements entry.2).
Proof. reflexivity. Qed.

Lemma push_loop_spec k ps sp ss l0 :
  sp !! k = Some l0 -> NoDup ps ->
  let acc := foldl (push_step k) (sp, ss) ps in
  acc.1 !! k = Some (l0 ++ ps)
  /\ (forall k', k' <> k -> acc.1 !! k' = sp !! k')
  /\ (forall x, acc.2 !! x
               = if decide (x ∈ ps) then Some (default [] (ss !! x) ++ [k]) else ss !! x).
Proof.
  revert sp ss l0. induction ps as [|p ps IH]; intros sp ss l0 Hk Hnd; simpl.
  - rewrite app_nil_r. repeat split; auto.
  - apply NoDup_cons in Hnd as [Hp Hnd].
    unfold push_step at 2. simpl.
    assert (push_back k p sp !! k = Some ((l0 ++ [p]))) as Hk'.
    { unfold push_back. by rewrite lookup_insert_eq, Hk. }
    destruct (IH (push_back k p sp) (push_back p k ss) _ Hk' Hnd) as (H1 & H2 & H3).
    split; [by rewrite H1, <- app_assoc|]. split.
    + intros k' Hk'k. rewrite H2 by done. unfold push_back. by rewrite lookup_insert_ne.
    + intros x. rewrite H3. unfold push_back.
      destruct (decide (x = p)) as [->|Hne].
      * rewrite decide_False by done. rewrite decide_True by left.
        by rewrite lookup_insert_eq.
      * rewrite lookup_insert_ne by done.
        destruct (decide (x ∈ ps)).
        -- rewrite decide_True by (by right). done.
        -- rewrite decide_False; [done|]. by intros [?|?]%elem_of_cons.
Qed.

(** What the first loop of [AnalyzeFunction] builds from the raw entries. *)
Lemma populate_spec (entries : list (positive * gset positive)) :
  NoDup entries.*1 ->
  let acc := foldl populate_entry (∅, ∅) entries in
  (forall k, acc.1 !! k
             = elements <$> ((list_to_map entries : gmap positive (gset positive)) !! k))
  /\ (forall x, match acc.2 !! x with
               | None => forall e, e ∈ entries -> x ∉ e.2
               | Some l => l <> [] /\ NoDup l
                   /\ forall k, k ∈ l <-> exists s, (k, s) ∈ entries /\ x ∈ s
               end).
Proof.
  induction entries as [|[k s] entries IH] using rev_ind; intros Hnd.
  - simpl. split; [intros k; by rewrite !lookup_empty|].
    intros x. rewrite lookup_empty. by intros e ?%elem_of_nil.
  - rewrite fmap_app in Hnd. apply NoDup_app in Hnd as (Hnd & Hfresh & _).
    assert (k ∉ entries.*1) as Hk.
    { intros Hin. apply (Hfresh k Hin). simpl. left. }
    rewrite foldl_snoc. destruct (IH Hnd) as [IH1 IH2].
    destruct (foldl populate_entry (∅, ∅) entries) as [sp ss]. simpl in IH1, IH2.
    rewrite populate_entry_eq. simpl.
    assert (sp !! k = None) as Hspk.
    { rewrite IH1. by rewrite (not_elem_of_list_to_map_1 (M := gmap positive)). }
    rewrite Hspk. simpl.
    destruct (push_loop_spec k (elements s) (<[k := []]> sp) ss []
                (lookup_insert_eq _ _ _) (NoDup_elements s)) as (H1 & H2 & H3).
    split.
    + intros k'. rewrite list_to_map_snoc by done.
      destruct (decide (k' = k)) as [->|Hne].
      * by rewrite H1, lookup_insert_eq.
      * rewrite H2 by done. rewrite !lookup_insert_ne by done. apply IH1.
    + intros x. rewrite H3. specialize (IH2 x).
      destruct (decide (x ∈ elements s)) as [Hx|Hx].
      * apply elem_of_elements in Hx.
        destruct (ss !! x) as [l|]; simpl.
        -- destruct IH2 as (_ & Hl & Hmem). split; [by destruct l|]. split.
           ++ apply NoDup_app. split; [done|]. split; [|apply NoDup_singleton].
              intros k' Hk' ->%list_elem_of_singleton.
              apply Hmem in Hk' as (s' & Hin & _). apply Hk.
              apply list_elem_of_fmap. by exists (k, s').
           ++ intros k'. rewrite elem_of_app, list_elem_of_singleton, Hmem.
              split.
              ** intros [(s' & Hin & Hxs)| ->].
                 --- exists s'. split; [|done]. apply elem_of_app. by left.
                 --- exists s. split; [|done]. apply elem_of_app. right. left.
              ** intros (s' & Hin & Hxs). apply elem_of_app in Hin as [Hin|Hin].
                 --- left. by exists s'.
                 --- apply list_elem_of_singleton in Hin. right. congruence.
        -- split; [done|]. split; [apply NoDup_singleton|].
           intros k'. rewrite list_elem_of_singleton. split.
           ++ intros ->. exists s. split; [|done]. apply elem_of_app. right. left.
           ++ intros (s' & Hin & Hxs). apply elem_of_app in Hin as [Hin|Hin].
              ** by destruct (IH2 _ Hin).
              ** apply list_elem_of_singleton in Hin. congruence.
      * assert (x ∉ s) as Hxs by (by rewrite <- elem_of_elements).
        destruct (ss !! x) as [l|].
        -- destruct IH2 as (Hne & Hl & Hmem). split; [done|]. split; [done|].
           intros k'. rewrite Hmem.
           split; intros (s' & Hin & Hxs').
           ++ exists s'. split; [|done]. apply elem_of_app. by left.
           ++ apply elem_of_app in Hin as [Hin|Hin]; [by exists s'|].
              apply list_elem_of_singleton in Hin. congruence.
        -- intros e He. apply elem_of_app in He as [He|He]; [by apply IH2|].
           apply list_elem_of_singleton in He. by subst e.
Qed.

End Finalizer.

Section Invariants.
Context {ext : Externals}.
Implicit Types (st : SideEffectAnalysisInfo) (p k x d : positive) (r : Z).

Lemma preds_lookup st k s x :
  control_predecessors_ st !! k = Some s -> x ∈ s -> x ∈ preds st k.
Proof. unfold preds. by intros ->. Qed.

Lemma tracked_empty x : ~ tracked empty_info x.
Proof. intros (r & rec & Hl & _). simpl in Hl. by rewrite lookup_empty in Hl. Qed.

Lemma tracked_access st st' x :
  per_resource_access_info_ st' = per_resource_access_info_ st ->
  tracked st' x -> tracked st x.
Proof. intros Hper (r & rec & Hl & Hx). exists r, rec. by rewrite Hper in Hl. Qed.

Lemma NoDup_ptrs_ops_all_cons o ops :
  NoDup (ptrs (ops_all (o :: ops))) ->
  NoDup (ptrs (sub_ops o)) /\ NoDup (ptrs (ops_all ops))
  /\ op_ptr o ∉ ptrs ops.
Proof.
  rewrite ops_all_cons, ptrs_app. intros (H1 & H2 & H3)%NoDup_app.
  repeat split; auto. intros Hin. apply (H2 (op_ptr o)).
  - rewrite sub_ops_eq. left.
  - by apply ptrs_sub.
Qed.

Lemma irreflexive_ops alias ops :
  Forall (fun o => NoDup (ptrs (sub_ops o)) -> forall st st',
            ~ tracked st (op_ptr o) -> irreflexive st ->
            AnalyzeOperation alias o st = Some st' -> irreflexive st') ops ->
  NoDup (ptrs (ops_all ops)) ->
  forall st st', (forall x, tracked st x -> x ∉ ptrs ops) -> irreflexive st ->
    foldM (AnalyzeOperation alias) ops st = Some st' -> irreflexive st'.
Proof.
  induction 1 as [|o ops Ho Hops IH]; intros Hnd st st' Htr Hirr Hrun; simpl in Hrun.
  - by injection Hrun as <-.
  - destruct (AnalyzeOperation alias o st) as [st1|] eqn:Hst1; [|done].
    apply NoDup_ptrs_ops_all_cons in Hnd as (Hnd1 & Hnd2 & Hfresh).
    apply (IH Hnd2 st1 st'); [| |done].
    + intros x Hx. apply footprint_op in Hst1 as (_ & _ & _ & Htr1).
      apply Htr1 in Hx as [Hx|Hx].
      * apply Htr in Hx. by apply not_elem_of_cons in Hx as [_ ?].
      * by apply list_elem_of_singleton in Hx as ->.
    + apply (Ho Hnd1 st st1); [|done|done].
      intros Hx. apply Htr in Hx. apply Hx. left.
Qed.

Lemma irreflexive_merge child st :
  irreflexive child -> irreflexive st -> irreflexive (merge_child child st).
Proof.
  intros Hc Hst k s. rewrite merge_child_predecessors.
  destruct (control_predecessors_ child !! k) as [s'|] eqn:Hk.
  - intros [= <-]. by apply (Hc k).
  - apply Hst.
Qed.

Lemma irreflexive_children alias regions :
  Forall (fun region => NoDup (ptrs (region_all region)) -> forall st',
            AnalyzeRegion region alias empty_info = Some st' -> irreflexive st') regions ->
  NoDup (ptrs (regions_all regions)) ->
  forall st st', irreflexive st ->
    AnalyzeChildren alias regions st = Some st' -> irreflexive st'.
Proof.
  unfold AnalyzeChildren.
  induction 1 as [|region regions Hregion Hregions IH]; intros Hnd st st' Hirr Hrun;
    simpl in Hrun.
  - by injection Hrun as <-.
  - destruct (AnalyzeRegion region alias empty_info) as [child|] eqn:Hchild; [|done].
    rewrite regions_all_cons, ptrs_app, <- region_all_concat in Hnd.
    apply NoDup_app in Hnd as (Hnd1 & _ & Hnd2).
    apply (IH Hnd2 _ _ (irreflexive_merge _ _ (Hregion Hnd1 _ eq_refl) Hirr) Hrun).
Qed.

Lemma irreflexive_empty : irreflexive empty_info.
Proof. intros k s. simpl. by rewrite lookup_empty. Qed.

Lemma irreflexive_op alias (o : Operation) :
  NoDup (ptrs (sub_ops o)) -> forall st st',
    ~ tracked st (op_ptr o) -> irreflexive st ->
    AnalyzeOperation alias o st = Some st' -> irreflexive st'.
Proof.
  induction o as [ptr name operands results regions IH] using Operation_nested_ind.
  intros Hnd st st' Hfresh Hirr Hrun.
  rewrite AnalyzeOperation_eq in Hrun. simpl in Hrun, Hfresh.
  rewrite sub_ops_eq in Hnd. simpl in Hnd. apply NoDup_cons in Hnd as [_ Hnd].
  destruct (AnalyzeChildren alias regions st) as [st1|] eqn:Hst1; [|done].
  assert (irreflexive st1) as Hirr1.
  { eapply irreflexive_children; [|exact Hnd|exact Hirr|exact Hst1].
    eapply Forall_impl; [exact IH|]. intros region Hregion Hndr st0 Hrun0.
    rewrite AnalyzeRegion_concat in Hrun0. rewrite region_all_concat in Hndr.
    eapply irreflexive_ops; [|exact Hndr| |apply irreflexive_empty|exact Hrun0].
    - by apply Forall_nested_concat.
    - intros x Hx. by apply tracked_empty in Hx. }
  apply AnalyzeChildren_spec in Hst1 as (Hper & _).
  apply VisitOperation_spec in Hrun as (_ & _ & Hcp & Hpreds & _).
  simpl in Hcp, Hpreds.
  intros k s Hk Hin. destruct (decide (k = ptr)) as [->|Hne].
  - apply (preds_lookup _ _ _ _ Hk), Hpreds in Hin as [Hin|Hin].
    + unfold preds in Hin.
      destruct (control_predecessors_ st1 !! ptr) as [s1|] eqn:Hs1; simpl in Hin.
      * by apply (Hirr1 ptr s1).
      * by apply not_elem_of_empty in Hin.
    + apply Hfresh. by eapply tracked_access.
  - rewrite Hcp in Hk by done. by apply (Hirr1 k s).
Qed.

Lemma irreflexive_region alias region st' :
  NoDup (ptrs (region_all region)) ->
  AnalyzeRegion region alias empty_info = Some st' -> irreflexive st'.
Proof.
  rewrite AnalyzeRegion_concat, region_all_concat. intros Hnd Hrun.
  eapply irreflexive_ops; [|exact Hnd| |apply irreflexive_empty|exact Hrun].
  - apply Forall_forall. intros o _ ?. by apply irreflexive_op.
  - intros x Hx. by apply tracked_empty in Hx.
Qed.

Lemma avoids_ops alias d ops :
  Forall (fun o => declared_at alias d (sub_ops o) -> forall st st',
            avoids d st -> AnalyzeOperation alias o st = Some st' -> avoids d st') ops ->
  declared_at alias d (ops_all ops) ->
  forall st st', avoids d st ->
    foldM (AnalyzeOperation alias) ops st = Some st' -> avoids d st'.
Proof.
  induction 1 as [|o ops Ho Hops IH]; intros Hd st st' Hav Hrun; simpl in Hrun.
  - by injection Hrun as <-.
  - destruct (AnalyzeOperation alias o st) as [st1|] eqn:Hst1; [|done].
    rewrite ops_all_cons in Hd.
    apply (IH (fun o' Ho' => Hd o' (proj2 (elem_of_app _ _ _) (or_intror Ho'))) st1 st');
      [|done].
    apply (Ho (fun o' Ho' => Hd o' (proj2 (elem_of_app _ _ _) (or_introl Ho'))) st st1);
      done.
Qed.

Lemma avoids_merge d child st :
  avoids d child -> avoids d st -> avoids d (merge_child child st).
Proof.
  intros (Hc1 & Hc2 & _) (Hs1 & Hs2 & Hs3). split; [|split].
  - by rewrite merge_child_predecessors, Hc1.
  - intros k s. rewrite merge_child_predecessors.
    destruct (control_predecessors_ child !! k) as [s'|] eqn:Hk.
    + intros [= <-]. by apply (Hc2 k).
    + apply Hs2.
  - done.
Qed.

Lemma avoids_empty d : avoids d empty_info.
Proof.
  split; [apply lookup_empty|]. split; [|apply tracked_empty].
  intros k s. simpl. by rewrite lookup_empty.
Qed.

Lemma avoids_children alias d regions :
  Forall (fun region => declared_at alias d (region_all region) -> forall st',
            AnalyzeRegion region alias empty_info = Some st' -> avoids d st') regions ->
  declared_at alias d (regions_all regions) ->
  forall st st', avoids d st ->
    AnalyzeChildren alias regions st = Some st' -> avoids d st'.
Proof.
  unfold AnalyzeChildren.
  induction 1 as [|region regions Hregion Hregions IH]; intros Hd st st' Hav Hrun;
    simpl in Hrun.
  - by injection Hrun as <-.
  - destruct (AnalyzeRegion region alias empty_info) as [child|] eqn:Hchild; [|done].
    rewrite regions_all_cons, <- region_all_concat in Hd.
    apply (IH (fun o' Ho' => Hd o' (proj2 (elem_of_app _ _ _) (or_intror Ho')))
              _ _ (avoids_merge _ _ _
                     (Hregion (fun o' Ho' => Hd o' (proj2 (elem_of_app _ _ _) (or_introl Ho')))
                              _ eq_refl) Hav) Hrun).
Qed.

Lemma avoids_op alias d (o : Operation) :
  declared_at alias d (sub_ops o) -> forall st st',
    avoids d st -> AnalyzeOperation alias o st = Some st' -> avoids d st'.
Proof.
  induction o as [ptr name operands results regions IH] using Operation_nested_ind.
  intros Hd st st' Hav Hrun.
  rewrite AnalyzeOperation_eq in Hrun. simpl in Hrun.
  rewrite sub_ops_eq in Hd. simpl in Hd.
  destruct (AnalyzeChildren alias regions st) as [st1|] eqn:Hst1; [|done].
  assert (avoids d st1) as (Hav1 & Hav2 & Hav3).
  { eapply avoids_children; [| |exact Hav|exact Hst1].
    - eapply Forall_impl; [exact IH|]. intros region Hregion Hdr st0 Hrun0.
      rewrite AnalyzeRegion_concat in Hrun0. rewrite region_all_concat in Hdr.
      eapply avoids_ops; [|exact Hdr|apply avoids_empty|exact Hrun0].
      by apply Forall_nested_concat.
    - intros o' Ho'. apply Hd. by right. }
  apply VisitOperation_spec in Hrun as (_ & _ & Hcp & Hpreds & Htr & Hdecl).
  simpl in Hcp, Hpreds, Htr.
  destruct (decide (ptr = d)) as [->|Hne].
  - rewrite Hdecl; [done|]. apply Hd; [left|done].
  - split; [|split].
    + rewrite Hcp by done. done.
    + intros k s Hk Hin. destruct (decide (k = ptr)) as [->|Hnek].
      * apply (preds_lookup _ _ _ _ Hk), Hpreds in Hin as [Hin|Hin]; [|done].
        unfold preds in Hin.
        destruct (control_predecessors_ st1 !! ptr) as [s1|] eqn:Hs1; simpl in Hin.
        -- by apply (Hav2 ptr s1).
        -- by apply not_elem_of_empty in Hin.
      * rewrite Hcp in Hk by done. by apply (Hav2 k s).
    + intros Hx. apply Htr in Hx as [Hx|Hx]; [done|]. congruence.
Qed.

Lemma avoids_region alias d region st' :
  declared_at alias d (region_all region) ->
  AnalyzeRegion region alias empty_info = Some st' -> avoids d st'.
Proof.
  rewrite AnalyzeRegion_concat, region_all_concat. intros Hd Hrun.
  eapply avoids_ops; [|exact Hd|apply avoids_empty|exact Hrun].
  apply Forall_forall. intros o _ ?. by apply avoids_op.
Qed.

End Invariants.

Section Graph.
Context {ext : Externals}.
Implicit Types (st : SideEffectAnalysisInfo) (p k x d : positive) (r : Z).

(** The finalized graph in terms of the raw predecessor map of the walk. *)
Lemma finalized_graph func alias info :
  NewSideEffectAnalysisInfo func alias = Some info ->
  exists st, AnalyzeRegion (getBody func) alias empty_info = Some st
    /\ (forall k, sorted_control_predecessors_ info !! k
                 = (fun s => llvm_sort isBeforeInBlock (elements s))
                     <$> control_predecessors_ st !! k)
    /\ (forall x, match sorted_control_successors_ info !! x with
                 | None => forall k s, control_predecessors_ st !! k = Some s -> x ∉ s
                 | Some l => exists l0, l = llvm_sort isBeforeInBlock l0
                     /\ l0 <> [] /\ NoDup l0
                     /\ forall k, k ∈ l0 <->
                          exists s, control_predecessors_ st !! k = Some s /\ x ∈ s
                 end).
Proof.
  unfold NewSideEffectAnalysisInfo, AnalyzeFunction.
  destruct (AnalyzeRegion (getBody func) alias empty_info) as [st|] eqn:Hst; [|done].
  intros [= <-]. exists st. split; [done|]. simpl.
  apply footprint_region in Hst as (Hsp & Hss & _). rewrite Hsp, Hss. simpl.
  destruct (populate_spec (map_to_list (control_predecessors_ st))
              (NoDup_fst_map_to_list _)) as [H1 H2].
  split.
  - intros k. rewrite lookup_fmap, H1, list_to_map_to_list.
    by destruct (control_predecessors_ st !! k).
  - intros x. rewrite lookup_fmap. specialize (H2 x).
    destruct (_ !! x) as [l0|]; simpl.
    + destruct H2 as (Hne & Hnd & Hmem). exists l0. do 3 (split; [done|]).
      intros k. rewrite Hmem. by setoid_rewrite elem_of_map_to_list.
    + intros k s Hk. apply (H2 (k, s)). by apply elem_of_map_to_list.
Qed.

Lemma finalized_predecessors func alias info k l x :
  NewSideEffectAnalysisInfo func alias = Some info ->
  sorted_control_predecessors_ info !! k = Some l ->
  exists st s, AnalyzeRegion (getBody func) alias empty_info = Some st
    /\ control_predecessors_ st !! k = Some s
    /\ l = llvm_sort isBeforeInBlock (elements s)
    /\ NoDup l /\ (x ∈ l <-> x ∈ s).
Proof.
  intros (st & Hst & Hsp & _)%finalized_graph. rewrite Hsp.
  destruct (control_predecessors_ st !! k) as [s|] eqn:Hk; [|done].
  intros [= <-]. exists st, s. repeat split; auto.
  - rewrite llvm_sort_Permutation. apply NoDup_elements.
  - rewrite llvm_sort_Permutation. apply elem_of_elements.
  - rewrite llvm_sort_Permutation. apply elem_of_elements.
Qed.

Lemma finalized_successors func alias info x l k :
  NewSideEffectAnalysisInfo func alias = Some info ->
  sorted_control_successors_ info !! x = Some l ->
  exists st, AnalyzeRegion (getBody func) alias empty_info = Some st
    /\ NoDup l
    /\ (k ∈ l <-> exists s, control_predecessors_ st !! k = Some s /\ x ∈ s).
Proof.
  intros (st & Hst & _ & Hss)%finalized_graph Hl. specialize (Hss x).
  rewrite Hl in Hss. destruct Hss as (l0 & -> & _ & Hnd & Hmem).
  exists st. split; [done|]. rewrite llvm_sort_Permutation. split; [done|]. apply Hmem.
Qed.

End Graph.

Section Claims.
Context {ext : Externals}.
Implicit Types (st : SideEffectAnalysisInfo) (p k x d : positive) (r : Z).

(** C3: [AddPredecessorsForAccess] leaves the raw predecessor map as it
    is when the resource has no access record.  With a record, the
    predecessors of [p] become the old ones, the reads since the last write
    when the access is a write, and the last write exactly when it exists
    and this call added no read; no other entry changes, and the access
    records are never touched. *)
Theorem AddPredecessorsForAccess_contract r p (ro : bool) st :
  let st' := AddPredecessorsForAccess r p ro st in
  per_resource_access_info_ st' = per_resource_access_info_ st
  /\ match per_resource_access_info_ st !! r with
     | None => control_predecessors_ st' = control_predecessors_ st
     | Some access_info =>
         let added_reads :=
           if ro then [] else reads_since_last_write access_info in
         (forall x, x ∈ preds st' p <->
            x ∈ preds st p \/ x ∈ added_reads
            \/ (last_write access_info = Some x /\ added_reads = []))
         /\ (forall k, k <> p ->
               control_predecessors_ st' !! k = control_predecessors_ st !! k)
     end.
Proof.
  split; [apply AddPredecessorsForAccess_access|].
  destruct (per_resource_access_info_ st !! r) as [rec|] eqn:Hr.
  - split.
    + intros x. by apply AddPredecessorsForAccess_preds.
    + intros k Hk. by apply AddPredecessorsForAccess_other.
  - by rewrite AddPredecessorsForAccess_absent.
Qed.

(** C4: the indirectly-tracked predicate is false for an untracked
    resource; for a read-only access it is the flag
    [tracked_last_unknown_write_for_read] of the resource; for a write it
    holds exactly when [tracked_last_unknown_write_for_write] is set and
    either [tracked_last_unknown_read] is set or the unknown resource has
    no pending read. *)
Theorem indirectly_tracked_predicate st r :
  match per_resource_access_info_ st !! r with
  | None => forall ro, unknown_access_indirectly_tracked_by_resource st r ro = false
  | Some it =>
      (unknown_access_indirectly_tracked_by_resource st r true = true
       <-> tracked_last_unknown_write_for_read it = true)
      /\ (unknown_access_indirectly_tracked_by_resource st r false = true
          <-> tracked_last_unknown_write_for_write it = true
              /\ (tracked_last_unknown_read it = true
                  \/ forall unknown_it,
                       per_resource_access_info_ st !! kUnknownResourceId = Some unknown_it ->
                       reads_since_last_write unknown_it = []))
  end.
Proof.
  unfold unknown_access_indirectly_tracked_by_resource.
  destruct (per_resource_access_info_ st !! r) as [it|]; [|done].
  split; [done|].
  rewrite andb_true_iff, orb_true_iff.
  destruct (per_resource_access_info_ st !! kUnknownResourceId) as [u|].
  - rewrite bool_decide_eq_true. split.
    + intros [? [?|?]]; split; auto. right. by intros ? [= <-].
    + intros [? [?|Hu]]; split; auto.
  - split.
    + intros [? _]. split; [done|]. by right.
    + intros [? _]. split; [done|]. by right.
Qed.

(** C8: for every resource id, the unknown one included, tracking a read
    appends the operation to the reads since the last write of the
    resource, sets [tracked_last_unknown_write_for_write] and keeps
    [tracked_last_unknown_write_for_read] (and the last write) as they
    were; an absent record counts as the default one. *)
Theorem TrackAccess_read_contract r p st :
  let old := default default_access_info (per_resource_access_info_ st !! r) in
  exists new,
    per_resource_access_info_ (TrackAccess r p true st) !! r = Some new
    /\ reads_since_last_write new = reads_since_last_write old ++ [p]
    /\ tracked_last_unknown_write_for_write new = true
    /\ tracked_last_unknown_write_for_read new = tracked_last_unknown_write_for_read old
    /\ last_write new = last_write old.
Proof.
  unfold TrackAccess. simpl. eexists. rewrite lookup_insert_eq. split; [done|].
  destruct (decide (r = kUnknownResourceId)) as [->|Hr]; simpl; [|done].
  rewrite lookup_fmap.
  by destruct (per_resource_access_info_ st !! kUnknownResourceId).
Qed.

Lemma EmitEdges_unknown_write p resources st :
  kUnknownResourceId ∈ resources ->
  per_resource_access_info_ (EmitEdges p resources false st)
  = {[ kUnknownResourceId := MkAccessInfo (Some p) [] true true true ]}.
Proof.
  intros Hu. unfold EmitEdges. rewrite bool_decide_eq_true_2 by done.
  destruct (foldl _ _ _) as [st1 tr].
  unfold TrackAccess. rewrite decide_True by done. simpl.
  by rewrite insert_empty.
Qed.

(** C7: an operation without verdict of the classification table that is
    neither a declaration nor known to be free of side effects is visited
    with the resource set [{UNKNOWN}] and as a write: its visit is the edge
    emission of an unknown write, after which the only access record is
    that of the unknown resource, with the operation as last write. *)
Theorem unclassified_is_unknown_write alias (o : Operation) st :
  GetResourceInfoForOp o = None ->
  OpIsDeclaration o alias = false ->
  OpIsKnownToHaveNoSideEffect o = false ->
  OpResources o alias = {[ kUnknownResourceId ]}
  /\ OpIsReadOnly o = false
  /\ VisitOperation alias o st
     = Some (EmitEdges (op_ptr o) {[ kUnknownResourceId ]} false st)
  /\ forall st', VisitOperation alias o st = Some st' ->
       per_resource_access_info_ st'
       = {[ kUnknownResourceId := MkAccessInfo (Some (op_ptr o)) [] true true true ]}.
Proof.
  intros Hinfo Hdecl Heff.
  assert (OpResources o alias = {[ kUnknownResourceId ]}) as Hres.
  { unfold OpResources. by rewrite Hinfo. }
  assert (OpIsReadOnly o = false) as Hro.
  { unfold OpIsReadOnly. by rewrite Hinfo. }
  assert (VisitOperation alias o st
          = Some (EmitEdges (op_ptr o) {[ kUnknownResourceId ]} false st)) as Hvisit.
  { unfold VisitOperation. rewrite Hdecl, Heff, andb_false_r, Hres, Hro.
    rewrite bool_decide_eq_false_2; [done|].
    intros Hempty. apply (not_elem_of_empty (C := gset Z) kUnknownResourceId).
    rewrite <- Hempty. by apply elem_of_singleton. }
  repeat split; auto.
  intros st'. rewrite Hvisit. intros [= <-].
  apply EmitEdges_unknown_write. by apply elem_of_singleton.
Qed.

Lemma NoDup_ptrs_inj (l : list Operation) a b :
  NoDup (ptrs l) -> a ∈ l -> b ∈ l -> op_ptr a = op_ptr b -> a = b.
Proof.
  induction l as [|c l IH]; intros Hnd Ha Hb Heq; [by apply elem_of_nil in Ha|].
  simpl in Hnd. apply NoDup_cons in Hnd as [Hc Hnd].
  apply elem_of_cons in Ha as [->|Ha]; apply elem_of_cons in Hb as [->|Hb]; auto.
  - exfalso. apply Hc. rewrite Heq. by apply list_elem_of_fmap_2.
  - exfalso. apply Hc. rewrite <- Heq. by apply list_elem_of_fmap_2.
Qed.

(** C5: in a function whose operations have distinct addresses, a
    declaration is in no finalized predecessor list and in no finalized
    successor list, has no list of its own, is remembered by no access
    record, and its visit leaves the access records as they were. *)
Theorem declarations_are_edge_free func alias info (decl : Operation) :
  NoDup (ptrs (region_all (getBody func))) ->
  decl ∈ region_all (getBody func) ->
  OpIsDeclaration decl alias = true ->
  NewSideEffectAnalysisInfo func alias = Some info ->
  (forall k l, sorted_control_predecessors_ info !! k = Some l -> op_ptr decl ∉ l)
  /\ (forall k l, sorted_control_successors_ info !! k = Some l -> op_ptr decl ∉ l)
  /\ sorted_control_predecessors_ info !! op_ptr decl = None
  /\ sorted_control_successors_ info !! op_ptr decl = None
  /\ ~ tracked info (op_ptr decl)
  /\ (forall st st', AnalyzeOperation alias decl st = Some st' ->
        per_resource_access_info_ st' = per_resource_access_info_ st).
Proof.
  intros Hnd Hin Hdecl Hnew.
  assert (declared_at alias (op_ptr decl) (region_all (getBody func))) as Hd.
  { intros o Ho Heq. by rewrite (NoDup_ptrs_inj _ _ _ Hnd Ho Hin Heq). }
  pose proof Hnew as (st & Hst & Hsp & Hss)%finalized_graph.
  destruct (avoids_region _ _ _ _ Hd Hst) as (Hav1 & Hav2 & Hav3).
  split; [|split; [|split; [|split; [|split]]]].
  - intros k l Hl Hx.
    destruct (finalized_predecessors _ _ _ _ _ (op_ptr decl) Hnew Hl)
      as (st0 & s & Hst0 & Hk & _ & _ & Hmem).
    rewrite Hst in Hst0. injection Hst0 as <-.
    apply Hmem in Hx. by apply (Hav2 k s).
  - intros k l Hl Hx.
    destruct (finalized_successors _ _ _ _ _ (op_ptr decl) Hnew Hl)
      as (st0 & Hst0 & _ & Hmem).
    rewrite Hst in Hst0. injection Hst0 as <-.
    apply Hmem in Hx as (s & Hs & _). congruence.
  - by rewrite Hsp, Hav1.
  - specialize (Hss (op_ptr decl)).
    destruct (sorted_control_successors_ info !! op_ptr decl) as [l|]; [|done].
    destruct Hss as (l0 & -> & Hne & Hnd0 & Hmem). exfalso.
    destruct l0 as [|k l0]; [done|].
    destruct (proj1 (Hmem k)) as (s & Hs & Hx); [left|]. by apply (Hav2 k s).
  - intros Htr. apply Hav3. eapply tracked_access; [|exact Htr].
    unfold NewSideEffectAnalysisInfo, AnalyzeFunction in Hnew. rewrite Hst in Hnew.
    by injection Hnew as <-.
  - intros st0 st0' Hrun. rewrite AnalyzeOperation_eq in Hrun.
    destruct (AnalyzeChildren alias (getRegions decl) st0) as [st1|] eqn:Hst1; [|done].
    apply AnalyzeChildren_spec in Hst1 as [Hper _].
    apply VisitOperation_spec in Hrun as (_ & _ & _ & _ & _ & Heq).
    by rewrite (Heq Hdecl).
Qed.

(** C6: when the program-order comparator is transitive and orders any
    two distinct operations, every predecessor list and every successor
    list of the finalized graph is strictly increasing for the comparator
    and free of duplicates. *)
Theorem finalized_lists_strictly_increasing func alias info :
  (forall a b c, isBeforeInBlock a b = true -> isBeforeInBlock b c = true ->
                 isBeforeInBlock a c = true) ->
  (forall a b, a <> b -> isBeforeInBlock a b = true \/ isBeforeInBlock b a = true) ->
  NewSideEffectAnalysisInfo func alias = Some info ->
  (forall k l, sorted_control_predecessors_ info !! k = Some l ->
     StronglySorted (fun a b => isBeforeInBlock a b = true) l /\ NoDup l)
  /\ (forall k l, sorted_control_successors_ info !! k = Some l ->
       StronglySorted (fun a b => isBeforeInBlock a b = true) l /\ NoDup l).
Proof.
  intros Htrans Htotal Hnew.
  pose proof Hnew as (st & Hst & Hsp & Hss)%finalized_graph.
  split.
  - intros k l. rewrite Hsp.
    destruct (control_predecessors_ st !! k) as [s|]; [|done]. intros [= <-].
    split.
    + apply llvm_sort_sorted; auto. apply NoDup_elements.
    + rewrite llvm_sort_Permutation. apply NoDup_elements.
  - intros k l Hl. specialize (Hss k). rewrite Hl in Hss.
    destruct Hss as (l0 & -> & _ & Hnd & _).
    split; [|by rewrite llvm_sort_Permutation].
    by apply llvm_sort_sorted.
Qed.

(** C10: in a function whose operations have distinct addresses no
    operation is in its own finalized predecessor list or successor list;
    the predecessors edge emission adds to an operation are operations the
    access records remembered before the operation was visited. *)
Theorem dependency_is_irreflexive func alias info :
  NoDup (ptrs (region_all (getBody func))) ->
  NewSideEffectAnalysisInfo func alias = Some info ->
  (forall k l, sorted_control_predecessors_ info !! k = Some l -> k ∉ l)
  /\ (forall k l, sorted_control_successors_ info !! k = Some l -> k ∉ l)
  /\ (forall p resources ro st x,
        x ∈ preds (EmitEdges p resources ro st) p -> x ∈ preds st p \/ tracked st x).
Proof.
  intros Hnd Hnew.
  pose proof Hnew as (st & Hst & _)%finalized_graph.
  pose proof (irreflexive_region _ _ _ Hnd Hst) as Hirr.
  split; [|split].
  - intros k l Hl Hx.
    destruct (finalized_predecessors _ _ _ _ _ k Hnew Hl)
      as (st0 & s & Hst0 & Hk & _ & _ & Hmem).
    rewrite Hst in Hst0. injection Hst0 as <-.
    apply Hmem in Hx. by apply (Hirr k s).
  - intros k l Hl Hx.
    destruct (finalized_successors _ _ _ _ _ k Hnew Hl) as (st0 & Hst0 & _ & Hmem).
    rewrite Hst in Hst0. injection Hst0 as <-.
    apply Hmem in Hx as (s & Hs & Hx). by apply (Hirr k s).
  - intros p resources ro st0 x.
    destruct (EmitEdges_spec p resources ro st0) as (_ & _ & _ & Hp & _). apply Hp.
Qed.

(** *** The assertion of [AnalyzeRegion] *)

Lemma collect_resources_mono alias vals acc res :
  collect_resources alias vals acc = Some res -> acc ⊆ res.
Proof.
  revert acc. induction vals as [|v vals IH]; intros acc; simpl.
  - by intros [= <-].
  - destruct (IsUnknownResource alias v); [done|].
    intros Hres%IH. set_solver.
Qed.

Lemma collect_resources_nonempty alias vals acc res v :
  v ∈ vals ->
  IsUnknownResource alias v = true \/ GetResourceUniqueIds alias v <> ∅ ->
  collect_resources alias vals acc = Some res -> res <> ∅.
Proof.
  revert acc. induction vals as [|v' vals IH]; intros acc Hv Hres; simpl.
  - by apply elem_of_nil in Hv.
  - destruct (IsUnknownResource alias v') eqn:Hu; [done|].
    apply elem_of_cons in Hv as [->|Hv].
    + destruct Hres as [Hres|Hres]; [congruence|].
      intros Hc%collect_resources_mono. set_solver.
    + by apply IH.
Qed.

Lemma UnknownResourceSet_nonempty : UnknownResourceSet <> ∅.
Proof. unfold UnknownResourceSet. set_solver. Qed.

Lemma FindAccessedResources_nonempty alias (o : Operation) :
  alias_resolves alias o -> FindAccessedResources o alias <> ∅.
Proof.
  intros (v & Hv & Hres). unfold FindAccessedResources.
  destruct (collect_resources alias (filter_resources (getOperands o)) ∅)
    as [r1|] eqn:H1; [|apply UnknownResourceSet_nonempty].
  destruct (collect_resources alias (filter_resources (getResults o)) r1)
    as [r2|] eqn:H2; [|apply UnknownResourceSet_nonempty].
  apply elem_of_app in Hv as [Hv|Hv].
  - pose proof (collect_resources_nonempty _ _ _ _ _ Hv Hres H1).
    apply collect_resources_mono in H2. set_solver.
  - by apply (collect_resources_nonempty _ _ _ _ _ Hv Hres H2).
Qed.

Lemma OpResources_nonempty alias (o : Operation) :
  (is_Some (GetResourceInfoForOp o) -> alias_resolves alias o) ->
  OpResources o alias <> ∅.
Proof.
  unfold OpResources. destruct (GetResourceInfoForOp o) as [i|].
  - intros Hpre. apply FindAccessedResources_nonempty. apply Hpre. by eexists.
  - intros _. apply UnknownResourceSet_nonempty.
Qed.

Lemma VisitOperation_fails alias (o : Operation) st :
  VisitOperation alias o st = None <->
  reaches_resources alias o /\ OpResources o alias = ∅.
Proof.
  unfold VisitOperation, reaches_resources.
  destruct (OpIsDeclaration o alias); [naive_solver|].
  destruct (negb _ && _); [naive_solver|].
  destruct (bool_decide (OpResources o alias = ∅)) eqn:Hres.
  - apply bool_decide_eq_true in Hres. naive_solver.
  - apply bool_decide_eq_false in Hres. naive_solver.
Qed.

Lemma succeeds_ops alias ops :
  Forall (fun o => assertion_precondition alias (sub_ops o) ->
                   forall st, is_Some (AnalyzeOperation alias o st)) ops ->
  assertion_precondition alias (ops_all ops) ->
  forall st, is_Some (foldM (AnalyzeOperation alias) ops st).
Proof.
  induction 1 as [|o ops Ho Hops IH]; intros Hpre st; simpl; [by eexists|].
  rewrite ops_all_cons in Hpre.
  destruct (Ho (fun o' Ho' => Hpre o' (proj2 (elem_of_app _ _ _) (or_introl Ho'))) st)
    as [st1 ->].
  apply IH. intros o' Ho'. apply Hpre. apply elem_of_app. by right.
Qed.

Lemma succeeds_children alias regions :
  Forall (fun region => assertion_precondition alias (region_all region) ->
            forall st, is_Some (AnalyzeRegion region alias st)) regions ->
  assertion_precondition alias (regions_all regions) ->
  forall st, is_Some (AnalyzeChildren alias regions st).
Proof.
  unfold AnalyzeChildren.
  induction 1 as [|region regions Hregion Hregions IH]; intros Hpre st; simpl;
    [by eexists|].
  rewrite regions_all_cons, <- region_all_concat in Hpre.
  destruct (Hregion (fun o' Ho' => Hpre o' (proj2 (elem_of_app _ _ _) (or_introl Ho')))
              empty_info) as [child ->].
  apply IH. intros o' Ho'. apply Hpre. apply elem_of_app. by right.
Qed.

Lemma succeeds_op alias (o : Operation) :
  assertion_precondition alias (sub_ops o) ->
  forall st, is_Some (AnalyzeOperation alias o st).
Proof.
  induction o as [ptr name operands results regions IH] using Operation_nested_ind.
  intros Hpre st. rewrite AnalyzeOperation_eq. simpl.
  rewrite sub_ops_eq in Hpre. simpl in Hpre.
  destruct (succeeds_children alias regions) with (st := st) as [st1 ->].
  - eapply Forall_impl; [exact IH|]. intros region Hregion Hprer st0.
    rewrite AnalyzeRegion_concat. rewrite region_all_concat in Hprer.
    apply succeeds_ops; [|done]. by apply Forall_nested_concat.
  - intros o' Ho'. apply Hpre. by right.
  - destruct (VisitOperation alias _ st1) as [st'|] eqn:Hv; [by eexists|].
    apply VisitOperation_fails in Hv as [Hreach Hempty]. exfalso.
    revert Hempty. apply OpResources_nonempty. apply Hpre; [left|done].
Qed.

(** C9, as amended: when every classified operation that reaches the
    computation of its resource set has a resource operand or result that
    the alias oracle reports unknown or gives an identifier, every such
    resource set is non-empty and the analysis of the function completes
    (the assertion never fires); a visit fails exactly on an operation that
    reaches the computation with an empty resource set. *)
Theorem assertion_never_fires func alias :
  assertion_precondition alias (region_all (getBody func)) ->
  (forall o, o ∈ region_all (getBody func) -> reaches_resources alias o ->
     OpResources o alias <> ∅)
  /\ is_Some (NewSideEffectAnalysisInfo func alias)
  /\ (forall o st, VisitOperation alias o st = None <->
        reaches_resources alias o /\ OpResources o alias = ∅).
Proof.
  intros Hpre. split; [|split].
  - intros o Ho Hreach. apply OpResources_nonempty. by apply Hpre.
  - unfold NewSideEffectAnalysisInfo, AnalyzeFunction.
    destruct (succeeds_ops alias (concat (getBody func))) with (st := empty_info)
      as [st Hst].
    + apply Forall_forall. intros o _. apply succeeds_op.
    + by rewrite <- region_all_concat.
    + rewrite AnalyzeRegion_concat, Hst. by eexists.
  - apply VisitOperation_fails.
Qed.

End Claims.

Section Scenarios.
Context {ext : Externals}.
Implicit Types (st : SideEffectAnalysisInfo) (p k x d : positive) (r : Z).

Lemma AddPredecessorsForAccess_preds_eq r p ro st :
  preds (AddPredecessorsForAccess r p ro st) p
  = preds st p ∪ record_edges ro (per_resource_access_info_ st !! r).
Proof.
  apply set_eq. intros x. unfold record_edges.
  destruct (per_resource_access_info_ st !! r) as [rec|] eqn:Hr.
  - rewrite (AddPredecessorsForAccess_preds _ _ _ _ rec) by done.
    destruct ro.
    + destruct (last_write rec); set_solver.
    + destruct (reads_since_last_write rec) as [|a l]; destruct (last_write rec);
        set_solver.
  - rewrite AddPredecessorsForAccess_absent by done. set_solver.
Qed.

Lemma indirectly_tracked_access st st' r ro :
  per_resource_access_info_ st' = per_resource_access_info_ st ->
  unknown_access_indirectly_tracked_by_resource st' r ro
  = unknown_access_indirectly_tracked_by_resource st r ro.
Proof. unfold unknown_access_indirectly_tracked_by_resource. by intros ->. Qed.

Lemma EmitEdges_known_singleton p r ro st :
  r <> kUnknownResourceId ->
  EmitEdges p {[ r ]} ro st
  = let st1 := AddPredecessorsForAccess r p ro st in
    let st2 := TrackAccess r p ro st1 in
    if unknown_access_indirectly_tracked_by_resource st r ro then st2
    else AddPredecessorsForAccess kUnknownResourceId p ro st2.
Proof.
  intros Hr. unfold EmitEdges.
  rewrite bool_decide_eq_false_2 by set_solver.
  rewrite elements_singleton. simpl.
  by rewrite (indirectly_tracked_access st (AddPredecessorsForAccess r p ro st))
    by apply AddPredecessorsForAccess_access.
Qed.

Lemma VisitOperation_accesses alias (o : Operation) resources ro st :
  accesses alias o resources ro -> resources <> ∅ ->
  VisitOperation alias o st = Some (EmitEdges (op_ptr o) resources ro st).
Proof.
  intros ((Hdecl & Hskip) & Hres & Hro) Hne. unfold VisitOperation.
  rewrite Hdecl, Hskip, Hres, Hro. by rewrite bool_decide_eq_false_2.
Qed.

(** The visit of an access to one known resource, in full. *)
Lemma AnalyzeOperation_known alias (o : Operation) r ro st st' :
  accesses alias o {[ r ]} ro -> r <> kUnknownResourceId ->
  op_ptr o ∉ ptrs (regions_all (getRegions o)) ->
  AnalyzeOperation alias o st = Some st' ->
  per_resource_access_info_ st' !! r
  = Some (track_record ro (op_ptr o) (per_resource_access_info_ st !! r))
  /\ (forall r', r' <> r ->
       per_resource_access_info_ st' !! r' = per_resource_access_info_ st !! r')
  /\ preds st' (op_ptr o)
     = preds st (op_ptr o) ∪ record_edges ro (per_resource_access_info_ st !! r)
       ∪ (if unknown_access_indirectly_tracked_by_resource st r ro then ∅
          else record_edges ro (per_resource_access_info_ st !! kUnknownResourceId))
  /\ (is_Some (per_resource_access_info_ st !! r)
      \/ (unknown_access_indirectly_tracked_by_resource st r ro = false
          /\ is_Some (per_resource_access_info_ st !! kUnknownResourceId)) ->
      is_Some (control_predecessors_ st' !! op_ptr o)).
Proof.
  intros Hacc Hr Hfresh Hrun. rewrite AnalyzeOperation_eq in Hrun.
  destruct (AnalyzeChildren alias (getRegions o) st) as [st1|] eqn:Hst1; [|done].
  apply AnalyzeChildren_spec in Hst1 as (Hper & _ & _ & Hcp & _).
  rewrite (VisitOperation_accesses _ _ _ _ _ Hacc) in Hrun by set_solver.
  injection Hrun as <-. rewrite EmitEdges_known_singleton by done.
  rewrite (indirectly_tracked_access st st1) by done. simpl.
  set (p := op_ptr o) in *.
  set (sa := AddPredecessorsForAccess r p ro st1).
  set (sb := TrackAccess r p ro sa).
  assert (per_resource_access_info_ sa = per_resource_access_info_ st) as Hpera.
  { unfold sa. by rewrite AddPredecessorsForAccess_access. }
  assert (preds sa p = preds st p ∪ record_edges ro (per_resource_access_info_ st !! r))
    as Hpa.
  { unfold sa. rewrite AddPredecessorsForAccess_preds_eq, Hper.
    by rewrite (preds_other st st1) by (by apply Hcp). }
  assert (per_resource_access_info_ sb !! r
          = Some (track_record ro p (per_resource_access_info_ st !! r))) as Hpbr.
  { unfold sb, TrackAccess. rewrite decide_False by done. simpl.
    by rewrite lookup_insert_eq, Hpera. }
  assert (forall r', r' <> r ->
            per_resource_access_info_ sb !! r' = per_resource_access_info_ st !! r')
    as Hpbo.
  { intros r' Hr'. unfold sb. rewrite TrackAccess_known_other by done. by rewrite Hpera. }
  assert (is_Some (per_resource_access_info_ st !! r) ->
          is_Some (control_predecessors_ sb !! p)) as Hkey.
  { intros [rec Hrec]. unfold sb. simpl.
    apply (AddPredecessorsForAccess_key r p ro st1 rec). by rewrite Hper. }
  destruct (unknown_access_indirectly_tracked_by_resource st r ro) eqn:Hind.
  - split; [done|]. split; [done|]. split.
    + unfold preds in *. simpl. rewrite Hpa. set_solver.
    + intros [?|[? _]]; [auto|done].
  - rewrite AddPredecessorsForAccess_access.
    split; [done|]. split; [done|]. split.
    + rewrite AddPredecessorsForAccess_preds_eq. rewrite Hpbo by done.
      unfold preds in *. simpl. by rewrite Hpa.
    + intros [Hsome|[_ [rec Hrec]]].
      * destruct (control_predecessors_
                    (AddPredecessorsForAccess kUnknownResourceId p ro sb) !! p) eqn:Hl;
          [by eexists|].
        exfalso. unfold AddPredecessorsForAccess in Hl.
        destruct (per_resource_access_info_ sb !! kUnknownResourceId).
        -- simpl in Hl. by rewrite lookup_insert_eq in Hl.
        -- destruct (Hkey Hsome) as [? Hs]. congruence.
      * apply (AddPredecessorsForAccess_key _ _ _ _ rec). by rewrite Hpbo.
Qed.

Lemma AnalyzeOperation_leaves_alone alias (o : Operation) r st st' :
  leaves_alone alias o r ->
  AnalyzeOperation alias o st = Some st' ->
  per_resource_access_info_ st' !! r = per_resource_access_info_ st !! r
  /\ per_resource_access_info_ st' !! kUnknownResourceId
     = per_resource_access_info_ st !! kUnknownResourceId.
Proof.
  intros Halone Hrun. rewrite AnalyzeOperation_eq in Hrun.
  destruct (AnalyzeChildren alias (getRegions o) st) as [st1|] eqn:Hst1; [|done].
  apply AnalyzeChildren_spec in Hst1 as (Hper & _). rewrite <- Hper.
  unfold VisitOperation in Hrun.
  destruct (OpIsDeclaration o alias) eqn:Hdecl; [injection Hrun as <-; by split|].
  destruct (negb _ && _) eqn:Hskip; [injection Hrun as <-; by split|].
  destruct Halone as [?|[?|[Hu Hr]]]; [congruence|congruence|].
  destruct (bool_decide (OpResources o alias = ∅)); [done|]. injection Hrun as <-.
  destruct (EmitEdges_spec (op_ptr o) (OpResources o alias) (OpIsReadOnly o) st1)
    as (_ & _ & _ & _ & _ & Hframe).
  split; by apply Hframe.
Qed.

Lemma walk_leaves_alone alias ops r :
  Forall (fun o => leaves_alone alias o r) ops ->
  forall st st', foldM (AnalyzeOperation alias) ops st = Some st' ->
    per_resource_access_info_ st' !! r = per_resource_access_info_ st !! r
    /\ per_resource_access_info_ st' !! kUnknownResourceId
       = per_resource_access_info_ st !! kUnknownResourceId.
Proof.
  induction 1 as [|o ops Ho Hops IH]; intros st st' Hrun; simpl in Hrun.
  - by injection Hrun as <-.
  - destruct (AnalyzeOperation alias o st) as [st1|] eqn:Hst1; [|done].
    destruct (AnalyzeOperation_leaves_alone _ _ _ _ _ Ho Hst1) as [<- <-].
    by apply IH.
Qed.

(** *** Regions nested in the function *)

Lemma foldM_split {A S} (f : A -> S -> option S) l1 a l2 s s' :
  foldM f (l1 ++ a :: l2) s = Some s' ->
  exists sa sb, foldM f l1 s = Some sa /\ f a sa = Some sb /\ foldM f l2 sb = Some s'.
Proof.
  rewrite foldM_app. destruct (foldM f l1 s) as [sa|]; [|done]. simpl.
  destruct (f a sa) as [sb|] eqn:Hsb; [|done]. intros Hrest. by exists sa, sb.
Qed.

Lemma regions_all_app c1 c2 : regions_all (c1 ++ c2) = regions_all c1 ++ regions_all c2.
Proof. unfold regions_all. by rewrite map_app, concat_app. Qed.

Lemma NoDup_walk_split l1 (o : Operation) l2 :
  NoDup (ptrs (ops_all (l1 ++ o :: l2))) ->
  NoDup (ptrs (ops_all l1)) /\ NoDup (ptrs (sub_ops o)) /\ NoDup (ptrs (ops_all l2))
  /\ (forall k, k ∈ ptrs (sub_ops o) ->
        (k ∉ ptrs (ops_all l1)) /\ (k ∉ ptrs (ops_all l2)))
  /\ (forall k, k ∈ ptrs (ops_all l1) -> k ∉ ptrs (ops_all l2)).
Proof.
  rewrite ops_all_app, ops_all_cons, !ptrs_app.
  intros (H1 & H12 & (H2 & H23 & H3)%NoDup_app)%NoDup_app.
  do 3 (split; [done|]). split.
  - intros k Hk. split; [|by apply H23].
    intros Hk1. apply (H12 k Hk1). apply elem_of_app. by left.
  - intros k Hk Hk2. apply (H12 k Hk). apply elem_of_app. by right.
Qed.

Lemma NoDup_regions_split c1 (child : list (list Operation)) c2 :
  NoDup (ptrs (regions_all (c1 ++ child :: c2))) ->
  NoDup (ptrs (region_all child))
  /\ (forall k, k ∈ ptrs (region_all child) ->
        (k ∉ ptrs (regions_all c1)) /\ (k ∉ ptrs (regions_all c2))).
Proof.
  rewrite regions_all_app, regions_all_cons, <- region_all_concat, !ptrs_app.
  intros (H1 & H12 & (H2 & H23 & H3)%NoDup_app)%NoDup_app.
  split; [done|]. intros k Hk. split; [|by apply H23].
  intros Hk1. apply (H12 k Hk1). apply elem_of_app. by left.
Qed.

Lemma NoDup_sub_ops (o : Operation) :
  NoDup (ptrs (sub_ops o)) ->
  (op_ptr o ∉ ptrs (regions_all (getRegions o)))
  /\ NoDup (ptrs (regions_all (getRegions o))).
Proof. rewrite sub_ops_eq. simpl. by intros ?%NoDup_cons. Qed.

Lemma region_surfaces alias region body :
  subregion region body ->
  forall st, NoDup (ptrs (region_all body)) ->
    AnalyzeRegion body alias empty_info = Some st ->
    NoDup (ptrs (region_all region))
    /\ exists st_r, AnalyzeRegion region alias empty_info = Some st_r
         /\ forall k, k ∈ ptrs (region_all region) ->
              control_predecessors_ st !! k = control_predecessors_ st_r !! k.
Proof.
  induction 1 as [region|region child o body Ho Hchild Hsub IH]; intros st Hnd Hrun.
  - split; [done|]. by exists st.
  - apply list_elem_of_split in Ho as (l1 & l2 & Hbody).
    apply list_elem_of_split in Hchild as (c1 & c2 & Hregions).
    rewrite AnalyzeRegion_concat, Hbody in Hrun.
    rewrite region_all_concat, Hbody in Hnd.
    apply foldM_split in Hrun as (sa & sb & Hsa & Hsb & Hst).
    apply NoDup_walk_split in Hnd as (_ & Hndo & _ & Hdisj & _).
    rewrite AnalyzeOperation_eq in Hsb.
    destruct (AnalyzeChildren alias (getRegions o) sa) as [sc|] eqn:Hsc; [|done].
    apply NoDup_sub_ops in Hndo as [Hfresh Hndr].
    rewrite Hregions in Hsc, Hndr. unfold AnalyzeChildren in Hsc.
    apply foldM_split in Hsc as (sd & se & Hsd & Hse & Hsc).
    destruct (AnalyzeRegion child alias empty_info) as [child_st|] eqn:Hchild_st; [|done].
    injection Hse as <-.
    apply NoDup_regions_split in Hndr as [Hndc Hdisjc].
    destruct (IH child_st Hndc eq_refl) as (Hndregion & st_r & Hst_r & Hagree).
    split; [done|]. exists st_r. split; [done|].
    intros k Hk. rewrite <- Hagree by done.
    assert (k ∈ ptrs (region_all child)) as Hkc.
    { clear -Hsub Hk. induction Hsub as [|region child' o' body' Ho' Hc' Hs' IH']; [done|].
      specialize (IH' Hk). unfold ptrs in *.
      apply list_elem_of_fmap in IH' as (a & -> & Ha). apply list_elem_of_fmap_2.
      rewrite region_all_concat. unfold ops_all.
      apply list_elem_of_split in Ho' as (l1 & l2 & ->).
      rewrite map_app, concat_app. apply elem_of_app. right. simpl.
      apply elem_of_app. left. rewrite sub_ops_eq. right.
      apply list_elem_of_split in Hc' as (c1 & c2 & ->).
      rewrite regions_all_app. apply elem_of_app. right.
      rewrite regions_all_cons, <- region_all_concat. apply elem_of_app. by left. }
    assert (k ∈ ptrs (sub_ops o)) as Hko.
    { rewrite sub_ops_eq, Hregions. simpl. right.
      rewrite regions_all_app, regions_all_cons, <- region_all_concat, !ptrs_app.
      apply elem_of_app. right. apply elem_of_app. by left. }
    destruct (Hdisj k Hko) as [Hk1 Hk2]. destruct (Hdisjc k Hkc) as [Hkc1 Hkc2].
    apply footprint_walk in Hst as (_ & _ & Hf_l2 & _).
    apply VisitOperation_spec in Hsb as (_ & _ & Hf_o & _).
    apply (AnalyzeChildren_spec alias c2) in Hsc as (_ & _ & _ & Hf_c2 & _).
    apply (AnalyzeChildren_spec alias c1) in Hsd as (_ & _ & _ & Hf_c1 & _).
    apply footprint_walk in Hsa as (_ & _ & Hf_l1 & _).
    rewrite Hf_l2, Hf_o, Hf_c2 by (done || (intros ->; apply Hfresh; rewrite Hregions;
      rewrite regions_all_app, regions_all_cons, <- region_all_concat, !ptrs_app;
      apply elem_of_app; right; apply elem_of_app; by left)).
    rewrite merge_child_predecessors.
    destruct (control_predecessors_ child_st !! k) as [s|]; [done|].
    rewrite Hf_c1, Hf_l1 by done. done.
Qed.

(** *** One visit in the walk of a region *)

(** In a walk over operations of distinct addresses, the raw entry of an
    operation is absent before its visit and final after it. *)
Lemma walk_visit alias l1 (o : Operation) l2 st' :
  NoDup (ptrs (ops_all (l1 ++ o :: l2))) ->
  foldM (AnalyzeOperation alias) (l1 ++ o :: l2) empty_info = Some st' ->
  exists sa sb,
    foldM (AnalyzeOperation alias) l1 empty_info = Some sa
    /\ AnalyzeOperation alias o sa = Some sb
    /\ foldM (AnalyzeOperation alias) l2 sb = Some st'
    /\ control_predecessors_ sa !! op_ptr o = None
    /\ control_predecessors_ st' !! op_ptr o = control_predecessors_ sb !! op_ptr o
    /\ (op_ptr o ∉ ptrs (regions_all (getRegions o)))
    /\ (forall a, a ∈ l1 -> op_ptr a <> op_ptr o).
Proof.
  intros Hnd Hrun. apply foldM_split in Hrun as (sa & sb & Hsa & Hsb & Hst).
  exists sa, sb. do 3 (split; [done|]).
  apply NoDup_walk_split in Hnd as (_ & Hndo & _ & Hdisj & _).
  destruct (Hdisj (op_ptr o)) as [Hk1 Hk2]; [rewrite sub_ops_eq; left|].
  split; [|split; [|split]].
  - apply footprint_walk in Hsa as (_ & _ & Hf & _). by rewrite Hf.
  - apply footprint_walk in Hst as (_ & _ & Hf & _). by rewrite Hf.
  - by apply NoDup_sub_ops in Hndo as [? _].
  - intros a Ha Heq. apply Hk1. rewrite <- Heq. apply ptrs_sub.
    by apply list_elem_of_fmap_2.
Qed.

Lemma preds_absent st p : control_predecessors_ st !! p = None -> preds st p = ∅.
Proof. unfold preds. by intros ->. Qed.

Lemma preds_entry st p s :
  is_Some (control_predecessors_ st !! p) -> preds st p = s ->
  control_predecessors_ st !! p = Some s.
Proof. unfold preds. intros [s' ->]. simpl. by intros ->. Qed.

(** C2 in the walk of one region. *)
Lemma write_reads_write_region alias region st_r pre
    (W1 R1a R1b W2 : Operation) post R1 :
  NoDup (ptrs (region_all region)) ->
  AnalyzeRegion region alias empty_info = Some st_r ->
  concat region = pre ++ W1 :: R1a :: R1b :: W2 :: post ->
  R1 <> kUnknownResourceId ->
  accesses alias W1 {[ R1 ]} false ->
  accesses alias R1a {[ R1 ]} true ->
  accesses alias R1b {[ R1 ]} true ->
  accesses alias W2 {[ R1 ]} false ->
  (exists s, control_predecessors_ st_r !! op_ptr R1a = Some s /\ op_ptr W1 ∈ s)
  /\ (exists s, control_predecessors_ st_r !! op_ptr R1b = Some s /\ op_ptr W1 ∈ s)
  /\ control_predecessors_ st_r !! op_ptr W2 = Some {[ op_ptr R1a; op_ptr R1b ]}
  /\ op_ptr W1 <> op_ptr R1a /\ op_ptr W1 <> op_ptr R1b.
Proof.
  intros Hnd Hrun Hops HR1 HW1 HR1a HR1b HW2.
  rewrite AnalyzeRegion_concat, Hops in Hrun.
  rewrite region_all_concat, Hops in Hnd.
  (* the visit of W1 *)
  destruct (walk_visit _ _ _ _ _ Hnd Hrun)
    as (s0 & s1 & Hs0 & Hs1 & _ & _ & _ & Hfresh1 & _).
  destruct (AnalyzeOperation_known _ _ _ _ _ _ HW1 HR1 Hfresh1 Hs1)
    as (Hper1 & _ & _ & _).
  (* the visit of R1a *)
  assert (pre ++ W1 :: R1a :: R1b :: W2 :: post
          = (pre ++ [W1]) ++ R1a :: R1b :: W2 :: post) as Hsplit2
    by (by rewrite <- app_assoc).
  rewrite Hsplit2 in Hnd, Hrun.
  destruct (walk_visit _ _ _ _ _ Hnd Hrun)
    as (s1' & s2 & Hs1' & Hs2 & _ & Hnone2 & Hfinal2 & Hfresh2 & Hne2).
  rewrite foldM_app, Hs0 in Hs1'. simpl in Hs1'. rewrite Hs1 in Hs1'.
  injection Hs1' as <-.
  destruct (AnalyzeOperation_known _ _ _ _ _ _ HR1a HR1 Hfresh2 Hs2)
    as (Hper2 & _ & Hpreds2 & Hkey2).
  rewrite Hper1 in Hper2, Hpreds2, Hkey2. simpl in Hper2, Hpreds2.
  (* the visit of R1b *)
  assert ((pre ++ [W1]) ++ R1a :: R1b :: W2 :: post
          = (pre ++ [W1; R1a]) ++ R1b :: W2 :: post) as Hsplit3
    by (by rewrite <- !app_assoc).
  rewrite Hsplit3 in Hnd, Hrun.
  destruct (walk_visit _ _ _ _ _ Hnd Hrun)
    as (s2' & s3 & Hs2' & Hs3 & _ & Hnone3 & Hfinal3 & Hfresh3 & Hne3).
  rewrite foldM_app, Hs0 in Hs2'. simpl in Hs2'. rewrite Hs1, Hs2 in Hs2'.
  injection Hs2' as <-.
  destruct (AnalyzeOperation_known _ _ _ _ _ _ HR1b HR1 Hfresh3 Hs3)
    as (Hper3 & _ & Hpreds3 & Hkey3).
  rewrite Hper2 in Hper3, Hpreds3, Hkey3. simpl in Hper3, Hpreds3.
  (* the visit of W2 *)
  assert ((pre ++ [W1; R1a]) ++ R1b :: W2 :: post
          = (pre ++ [W1; R1a; R1b]) ++ W2 :: post) as Hsplit4
    by (by rewrite <- !app_assoc).
  rewrite Hsplit4 in Hnd, Hrun.
  destruct (walk_visit _ _ _ _ _ Hnd Hrun)
    as (s3' & s4 & Hs3' & Hs4 & _ & Hnone4 & Hfinal4 & Hfresh4 & Hne4).
  rewrite foldM_app, Hs0 in Hs3'. simpl in Hs3'. rewrite Hs1, Hs2, Hs3 in Hs3'.
  injection Hs3' as <-.
  destruct (AnalyzeOperation_known _ _ _ _ _ _ HW2 HR1 Hfresh4 Hs4)
    as (_ & _ & Hpreds4 & Hkey4).
  rewrite Hper3 in Hpreds4, Hkey4.
  unfold unknown_access_indirectly_tracked_by_resource in Hpreds2, Hpreds3, Hpreds4.
  rewrite Hper1 in Hpreds2. rewrite Hper2 in Hpreds3. rewrite Hper3 in Hpreds4.
  simpl in Hpreds2, Hpreds3, Hpreds4.
  split; [|split; [|split; [|split]]].
  - rewrite Hfinal2. destruct Hkey2 as [s Hs]; [left; by eexists|].
    exists s. split; [done|].
    unfold preds in Hpreds2. rewrite Hs in Hpreds2. simpl in Hpreds2. set_solver.
  - rewrite Hfinal3. destruct Hkey3 as [s Hs]; [left; by eexists|].
    exists s. split; [done|].
    unfold preds in Hpreds3. rewrite Hs in Hpreds3. simpl in Hpreds3. set_solver.
  - rewrite Hfinal4. apply preds_entry; [apply Hkey4; left; by eexists|].
    rewrite Hpreds4, (preds_absent s3) by done. set_solver.
  - intros Heq. apply (Hne2 W1); [|done]. apply elem_of_app. right. left.
  - intros Heq. apply (Hne3 W1); [|done]. apply elem_of_app. right. left.
Qed.

Lemma AnalyzeOperation_unknown_write alias (o : Operation) resources st st' :
  accesses alias o resources false -> kUnknownResourceId ∈ resources ->
  AnalyzeOperation alias o st = Some st' ->
  per_resource_access_info_ st'
  = {[ kUnknownResourceId := MkAccessInfo (Some (op_ptr o)) [] true true true ]}.
Proof.
  intros Hacc Hu Hrun. rewrite AnalyzeOperation_eq in Hrun.
  destruct (AnalyzeChildren alias (getRegions o) st) as [st1|]; [|done].
  rewrite (VisitOperation_accesses _ _ _ _ _ Hacc) in Hrun by set_solver.
  injection Hrun as <-. by apply EmitEdges_unknown_write.
Qed.

(** C1, as amended, in the walk of one region. *)
Lemma unknown_write_then_write_region alias region st_r pre
    (Wu : Operation) mid (W1 : Operation) post resources R1 :
  NoDup (ptrs (region_all region)) ->
  AnalyzeRegion region alias empty_info = Some st_r ->
  concat region = pre ++ Wu :: mid ++ W1 :: post ->
  accesses alias Wu resources false -> kUnknownResourceId ∈ resources ->
  Forall (fun o => leaves_alone alias o R1) mid ->
  R1 <> kUnknownResourceId ->
  accesses alias W1 {[ R1 ]} false ->
  control_predecessors_ st_r !! op_ptr W1 = Some {[ op_ptr Wu ]}.
Proof.
  intros Hnd Hrun Hops HWu Hu Hmid HR1 HW1.
  rewrite AnalyzeRegion_concat, Hops in Hrun.
  rewrite region_all_concat, Hops in Hnd.
  destruct (walk_visit _ _ _ _ _ Hnd Hrun) as (s0 & s1 & Hs0 & Hs1 & _).
  pose proof (AnalyzeOperation_unknown_write _ _ _ _ _ HWu Hu Hs1) as Hper1.
  assert (pre ++ Wu :: mid ++ W1 :: post = (pre ++ Wu :: mid) ++ W1 :: post) as Hsplit
    by (by rewrite <- app_assoc).
  rewrite Hsplit in Hnd, Hrun.
  destruct (walk_visit _ _ _ _ _ Hnd Hrun)
    as (sa & sb & Hsa & Hsb & _ & Hnone & Hfinal & Hfresh & _).
  rewrite foldM_app, Hs0 in Hsa. simpl in Hsa. rewrite Hs1 in Hsa.
  destruct (walk_leaves_alone _ _ _ Hmid _ _ Hsa) as [HperR HperU].
  rewrite Hper1 in HperR, HperU.
  rewrite lookup_singleton_ne in HperR by done.
  rewrite lookup_singleton_eq in HperU.
  destruct (AnalyzeOperation_known _ _ _ _ _ _ HW1 HR1 Hfresh Hsb)
    as (_ & _ & Hpreds & Hkey).
  unfold unknown_access_indirectly_tracked_by_resource in Hpreds, Hkey.
  rewrite HperR, HperU in Hpreds, Hkey. simpl in Hpreds.
  rewrite Hfinal. apply preds_entry; [apply Hkey; right; split; [done|by eexists]|].
  rewrite Hpreds, (preds_absent sa) by done. set_solver.
Qed.

Lemma TrackAccess_unknown_write p st :
  per_resource_access_info_ (TrackAccess kUnknownResourceId p false st)
  = {[ kUnknownResourceId := MkAccessInfo (Some p) [] true true true ]}.
Proof.
  unfold TrackAccess. rewrite decide_True by done. simpl. by rewrite insert_empty.
Qed.

(** C1, as amended: tracking an unknown write leaves the record of the
    unknown resource, with the operation as last write, as the only record.
    When an unknown write [Wu] is followed in a region of the function by a
    write [W1] of the known resource [R1], and every operation visited in
    between is skipped or accesses known resources other than [R1], the
    finalized predecessors of [W1] are [Wu] alone. *)
Theorem unknown_write_precedes_next_write func alias info region pre
    (Wu : Operation) mid (W1 : Operation) post resources R1 :
  NoDup (ptrs (region_all (getBody func))) ->
  subregion region (getBody func) ->
  concat region = pre ++ Wu :: mid ++ W1 :: post ->
  accesses alias Wu resources false -> kUnknownResourceId ∈ resources ->
  Forall (fun o => leaves_alone alias o R1) mid ->
  R1 <> kUnknownResourceId ->
  accesses alias W1 {[ R1 ]} false ->
  NewSideEffectAnalysisInfo func alias = Some info ->
  (forall p st,
     per_resource_access_info_ (TrackAccess kUnknownResourceId p false st)
     = {[ kUnknownResourceId := MkAccessInfo (Some p) [] true true true ]})
  /\ sorted_control_predecessors_ info !! op_ptr W1 = Some [op_ptr Wu].
Proof.
  intros Hnd Hsub Hops HWu Hu Hmid HR1 HW1 Hnew.
  split; [apply TrackAccess_unknown_write|].
  pose proof Hnew as (st & Hst & Hsp & _)%finalized_graph.
  destruct (region_surfaces _ _ _ Hsub _ Hnd Hst) as (Hndr & st_r & Hst_r & Hagree).
  pose proof (unknown_write_then_write_region _ _ _ _ _ _ _ _ _ _
                Hndr Hst_r Hops HWu Hu Hmid HR1 HW1) as Hentry.
  rewrite Hsp, Hagree, Hentry; simpl.
  - by rewrite elements_singleton.
  - rewrite region_all_concat, Hops. apply ptrs_sub. apply list_elem_of_fmap_2.
    apply elem_of_app. right. right. apply elem_of_app. right. left.
Qed.

(** C2: for a write [W1], two reads [R1a] and [R1b] and a write [W2] of
    one known resource, consecutive in a region of the function, [W1] is a
    finalized predecessor of [R1a] and of [R1b], and the finalized
    predecessors of [W2] are [R1a] and [R1b], not [W1]. *)
Theorem write_reads_write_dependencies func alias info region pre
    (W1 R1a R1b W2 : Operation) post R1 :
  NoDup (ptrs (region_all (getBody func))) ->
  subregion region (getBody func) ->
  concat region = pre ++ W1 :: R1a :: R1b :: W2 :: post ->
  R1 <> kUnknownResourceId ->
  accesses alias W1 {[ R1 ]} false ->
  accesses alias R1a {[ R1 ]} true ->
  accesses alias R1b {[ R1 ]} true ->
  accesses alias W2 {[ R1 ]} false ->
  NewSideEffectAnalysisInfo func alias = Some info ->
  exists la lb lw,
    sorted_control_predecessors_ info !! op_ptr R1a = Some la /\ op_ptr W1 ∈ la
    /\ sorted_control_predecessors_ info !! op_ptr R1b = Some lb /\ op_ptr W1 ∈ lb
    /\ sorted_control_predecessors_ info !! op_ptr W2 = Some lw
    /\ op_ptr R1a ∈ lw /\ op_ptr R1b ∈ lw /\ (op_ptr W1 ∉ lw)
    /\ (forall x, x ∈ lw <-> x = op_ptr R1a \/ x = op_ptr R1b).
Proof.
  intros Hnd Hsub Hops HR1 HW1 HR1a HR1b HW2 Hnew.
  pose proof Hnew as (st & Hst & Hsp & _)%finalized_graph.
  destruct (region_surfaces _ _ _ Hsub _ Hnd Hst) as (Hndr & st_r & Hst_r & Hagree).
  destruct (write_reads_write_region _ _ _ _ _ _ _ _ _ _
              Hndr Hst_r Hops HR1 HW1 HR1a HR1b HW2)
    as ((sa & Hsa & Hina) & (sb & Hsb & Hinb) & Hw & Hne1 & Hne2).
  assert (forall o : Operation, o ∈ [W1; R1a; R1b; W2] ->
            op_ptr o ∈ ptrs (region_all region)) as Hmem.
  { intros o Ho. rewrite region_all_concat, Hops. apply ptrs_sub.
    apply list_elem_of_fmap_2. apply elem_of_app. right.
    set_solver. }
  exists (llvm_sort isBeforeInBlock (elements sa)),
         (llvm_sort isBeforeInBlock (elements sb)),
         (llvm_sort isBeforeInBlock (elements ({[ op_ptr R1a; op_ptr R1b ]} : gset positive))).
  rewrite !Hsp, !Hagree by (apply Hmem; set_solver).
  rewrite Hsa, Hsb, Hw. simpl.
  do 2 (split; [done|]; split; [by rewrite llvm_sort_elem_of, elem_of_elements|]).
  split; [done|].
  assert (forall x, x ∈ llvm_sort isBeforeInBlock
                          (elements ({[ op_ptr R1a; op_ptr R1b ]} : gset positive))
                    <-> x = op_ptr R1a \/ x = op_ptr R1b) as Hlw.
  { intros x. rewrite llvm_sort_elem_of, elem_of_elements. set_solver. }
  split; [apply Hlw; by left|]. split; [apply Hlw; by right|].
  split; [|done]. rewrite Hlw. by intros [?|?].
Qed.

End Scenarios.

(** * The statements at sample functions *)

Section Examples.
Local Existing Instance Sample.externals.
Import Sample.

(** [Pos.ltb], the comparator of the sample dialect, is a strict total order. *)
Lemma ltb_trans (a b c : positive) :
  Pos.ltb a b = true -> Pos.ltb b c = true -> Pos.ltb a c = true.
Proof. rewrite !Pos.ltb_lt. lia. Qed.

Lemma ltb_total (a b : positive) :
  a <> b -> Pos.ltb a b = true \/ Pos.ltb b a = true.
Proof. rewrite !Pos.ltb_lt. lia. Qed.

Lemma read_write_body_NoDup : NoDup (ptrs (region_all read_write_body)).
Proof. compute_done. Qed.

Lemma read_write_body_runs :
  NewSideEffectAnalysisInfo (MkFuncOp read_write_body) alias
  = Some (info_of read_write_body).
Proof. vm_compute. reflexivity. Qed.

(** C1 as stated fails: after the unknown write at 10 and a write of
    resource 5 at 11, the write of resource 5 at 12 has 11 as its only
    finalized predecessor. *)
Lemma unknown_write_not_direct_predecessor :
  accesses alias (Foreign 10) {[ -1 ]} false
  /\ accesses alias (Assign 12 5) {[ 5 ]} false
  /\ concat barrier_body = [Foreign 10; Assign 11 5; Assign 12 5]
  /\ predecessors barrier_body 12 = Some [11%positive]
  /\ 10%positive ∉ [11%positive].
Proof.
  unfold accesses, reaches_resources.
  repeat split; try (vm_compute; reflexivity).
  by intros [=]%list_elem_of_singleton.
Qed.

(** C9 as stated fails: a classified write whose resource operand has no
    identifier reaches the computation with an empty resource set, and the
    analysis stops at the assertion. *)
Lemma assertion_fires_without_identifier :
  filter_resources (getOperands (Assign 7 2)) = [MkValue 2 true]
  /\ is_Some (GetResourceInfoForOp (Assign 7 2))
  /\ reaches_resources alias (Assign 7 2)
  /\ OpResources (Assign 7 2) alias = ∅
  /\ VisitOperation alias (Assign 7 2) empty_info = None
  /\ run [[Assign 7 2]] = None.
Proof.
  unfold reaches_resources.
  repeat split; try (vm_compute; reflexivity). by eexists.
Qed.

(** C7 at an operation of a foreign dialect. *)
Lemma unclassified_is_unknown_write_witness :
  GetResourceInfoForOp (Foreign 10) = None
  /\ OpResources (Foreign 10) alias = {[ -1 ]}
  /\ OpIsReadOnly (Foreign 10) = false
  /\ VisitOperation alias (Foreign 10) empty_info
     = Some (EmitEdges 10 {[ -1 ]} false empty_info).
Proof.
  split; [reflexivity|].
  destruct (unclassified_is_unknown_write alias (Foreign 10) empty_info)
    as (H1 & H2 & H3 & _); [reflexivity..|].
  split; [exact H1|]. split; [exact H2|exact H3].
Defined.

(** C5 at the variable handle of the sample function. *)
Lemma declarations_are_edge_free_witness :
  OpIsDeclaration (VarHandle 5) alias = true
  /\ sorted_control_predecessors_ (info_of read_write_body) !! 5%positive = None
  /\ sorted_control_successors_ (info_of read_write_body) !! 5%positive = None
  /\ ~ tracked (info_of read_write_body) 5%positive.
Proof.
  split; [reflexivity|].
  destruct (declarations_are_edge_free (MkFuncOp read_write_body) alias
              (info_of read_write_body) (VarHandle 5))
    as (_ & _ & H1 & H2 & H3 & _).
  - exact read_write_body_NoDup.
  - vm_compute. left.
  - reflexivity.
  - exact read_write_body_runs.
  - split; [exact H1|]. split; [exact H2|exact H3].
Defined.

(** C6 at the predecessors of the second write of the sample function. *)
Lemma finalized_lists_strictly_increasing_witness :
  sorted_control_predecessors_ (info_of read_write_body) !! 13%positive
  = Some [11%positive; 12%positive]
  /\ StronglySorted (fun a b => Pos.ltb a b = true) [11%positive; 12%positive]
  /\ NoDup [11%positive; 12%positive].
Proof.
  split; [vm_compute; reflexivity|].
  destruct (finalized_lists_strictly_increasing (ext := externals)
              (MkFuncOp read_write_body) alias
              (info_of read_write_body) ltb_trans ltb_total read_write_body_runs)
    as [Hp _].
  apply (Hp 13%positive). vm_compute. reflexivity.
Defined.

(** C10 at the second write of the sample function. *)
Lemma dependency_is_irreflexive_witness :
  sorted_control_predecessors_ (info_of read_write_body) !! 13%positive
  = Some [11%positive; 12%positive]
  /\ 13%positive ∉ [11%positive; 12%positive].
Proof.
  split; [vm_compute; reflexivity|].
  destruct (dependency_is_irreflexive (MkFuncOp read_write_body) alias
              (info_of read_write_body) read_write_body_NoDup read_write_body_runs)
    as [Hp _].
  apply (Hp 13%positive). vm_compute. reflexivity.
Defined.

Lemma read_write_body_precondition :
  assertion_precondition alias (region_all read_write_body).
Proof.
  intros o Ho [Hdecl Hskip] Hinfo.
  assert (o ∈ [Assign 10 5; ReadVar 11 5; ReadVar 12 5; Assign 13 5]) as Hin.
  { vm_compute in Ho.
    apply elem_of_cons in Ho as [->|Ho]; [by vm_compute in Hdecl|].
    apply elem_of_cons in Ho as [->|Ho]; [by destruct Hinfo|].
    exact Ho. }
  exists (MkValue 5 true). split; [|right; compute_done].
  repeat (apply elem_of_cons in Hin as [->|Hin]; [left|]).
  by apply elem_of_nil in Hin.
Qed.

(** C9, as amended, at the sample function. *)
Lemma assertion_never_fires_witness :
  assertion_precondition alias (region_all read_write_body)
  /\ is_Some (NewSideEffectAnalysisInfo (MkFuncOp read_write_body) alias).
Proof.
  split; [exact read_write_body_precondition|].
  destruct (assertion_never_fires (MkFuncOp read_write_body) alias
              read_write_body_precondition) as (_ & Hruns & _).
  exact Hruns.
Defined.

Lemma first_write_body_NoDup : NoDup (ptrs (region_all first_write_body)).
Proof. compute_done. Qed.

Lemma first_write_body_runs :
  NewSideEffectAnalysisInfo (MkFuncOp first_write_body) alias
  = Some (info_of first_write_body).
Proof. vm_compute. reflexivity. Qed.

(** C1, as amended, with a write of another resource in between. *)
Lemma unknown_write_precedes_next_write_witness :
  accesses alias (Foreign 10) {[ -1 ]} false
  /\ leaves_alone alias (Assign 11 6) 5
  /\ accesses alias (Assign 12 5) {[ 5 ]} false
  /\ sorted_control_predecessors_ (info_of first_write_body) !! 12%positive
     = Some [10%positive].
Proof.
  assert (accesses alias (Foreign 10) {[ -1 ]} false) as HWu
    by (unfold accesses, reaches_resources; repeat split; vm_compute; reflexivity).
  assert (leaves_alone alias (Assign 11 6) 5) as Hmid
    by (right; right; split; compute_done).
  assert (accesses alias (Assign 12 5) {[ 5 ]} false) as HW1
    by (unfold accesses, reaches_resources; repeat split; vm_compute; reflexivity).
  do 3 (split; [assumption|]).
  destruct (unknown_write_precedes_next_write (MkFuncOp first_write_body) alias
              (info_of first_write_body) first_write_body
              [] (Foreign 10) [Assign 11 6] (Assign 12 5) [] {[ -1 ]} 5)
    as [_ Hpreds].
  - exact first_write_body_NoDup.
  - apply subregion_refl.
  - reflexivity.
  - exact HWu.
  - by apply elem_of_singleton.
  - by constructor.
  - done.
  - exact HW1.
  - exact first_write_body_runs.
  - exact Hpreds.
Defined.

(** C2 at the nested region of the sample function. *)
Lemma write_reads_write_dependencies_witness :
  subregion read_write_region read_write_body
  /\ exists la lb lw,
       sorted_control_predecessors_ (info_of read_write_body) !! 11%positive = Some la
       /\ 10%positive ∈ la
       /\ sorted_control_predecessors_ (info_of read_write_body) !! 12%positive = Some lb
       /\ 10%positive ∈ lb
       /\ sorted_control_predecessors_ (info_of read_write_body) !! 13%positive = Some lw
       /\ 11%positive ∈ lw /\ 12%positive ∈ lw /\ 10%positive ∉ lw.
Proof.
  assert (subregion read_write_region read_write_body) as Hsub.
  { apply (subregion_nested _ read_write_region (Nest 20 read_write_region)).
    - right. left.
    - left.
    - apply subregion_refl. }
  split; [exact Hsub|].
  destruct (write_reads_write_dependencies (MkFuncOp read_write_body) alias
              (info_of read_write_body) read_write_region
              [] (Assign 10 5) (ReadVar 11 5) (ReadVar 12 5) (Assign 13 5) [] 5)
    as (la & lb & lw & H1 & H2 & H3 & H4 & H5 & H6 & H7 & H8 & _).
  - exact read_write_body_NoDup.
  - exact Hsub.
  - reflexivity.
  - done.
  - unfold accesses, reaches_resources; repeat split; vm_compute; reflexivity.
  - unfold accesses, reaches_resources; repeat split; vm_compute; reflexivity.
  - unfold accesses, reaches_resources; repeat split; vm_compute; reflexivity.
  - unfold accesses, reaches_resources; repeat split; vm_compute; reflexivity.
  - exact read_write_body_runs.
  - exists la, lb, lw. repeat split; assumption.
Defined.

End Examples.

(** * Edge emission, the walk and the graph, in full *)

Section EdgeEmission.
Context {ext : Externals}.
Implicit Types (st : SideEffectAnalysisInfo) (p k x : positive) (r : Z).

Lemma indirectly_tracked_ext st st' r ro :
  per_resource_access_info_ st' !! r = per_resource_access_info_ st !! r ->
  per_resource_access_info_ st' !! kUnknownResourceId
  = per_resource_access_info_ st !! kUnknownResourceId ->
  unknown_access_indirectly_tracked_by_resource st' r ro
  = unknown_access_indirectly_tracked_by_resource st r ro.
Proof. unfold unknown_access_indirectly_tracked_by_resource. by intros -> ->. Qed.

Lemma record_edges_ext st st' r ro :
  per_resource_access_info_ st' !! r = per_resource_access_info_ st !! r ->
  record_edges ro (per_resource_access_info_ st' !! r)
  = record_edges ro (per_resource_access_info_ st !! r).
Proof. by intros ->. Qed.

Lemma AddPredecessorsForAccess_entry_None r p ro st :
  control_predecessors_ (AddPredecessorsForAccess r p ro st) !! p = None <->
  control_predecessors_ st !! p = None /\ per_resource_access_info_ st !! r = None.
Proof.
  unfold AddPredecessorsForAccess.
  destruct (per_resource_access_info_ st !! r) as [rec|]; simpl.
  - rewrite lookup_insert_eq. naive_solver.
  - naive_solver.
Qed.

(** The loop over the resources of the operation, in full. *)
Lemma known_loop_exact p ro l st b :
  NoDup l -> kUnknownResourceId ∉ l ->
  let acc := foldl (known_loop_body p ro) (st, b) l in
  (forall r, r ∈ l ->
     per_resource_access_info_ acc.1 !! r
     = Some (track_record ro p (per_resource_access_info_ st !! r)))
  /\ (forall r, r ∉ l ->
        per_resource_access_info_ acc.1 !! r = per_resource_access_info_ st !! r)
  /\ sorted_control_predecessors_ acc.1 = sorted_control_predecessors_ st
  /\ sorted_control_successors_ acc.1 = sorted_control_successors_ st
  /\ (forall k, k <> p ->
        control_predecessors_ acc.1 !! k = control_predecessors_ st !! k)
  /\ (forall x, x ∈ preds acc.1 p <->
        x ∈ preds st p
        \/ exists r, r ∈ l /\ x ∈ record_edges ro (per_resource_access_info_ st !! r))
  /\ (control_predecessors_ acc.1 !! p = None <->
        control_predecessors_ st !! p = None
        /\ forall r, r ∈ l -> per_resource_access_info_ st !! r = None)
  /\ (acc.2 = true <->
        b = true
        \/ exists r, r ∈ l
             /\ unknown_access_indirectly_tracked_by_resource st r ro = true).
Proof.
  revert st b. induction l as [|r l IH]; intros st b Hnd Hu; simpl.
  - split; [by intros r ?%elem_of_nil|]. do 4 (split; [done|]).
    split; [|split].
    + intros x. split; [by left|]. intros [?|(r & ?%elem_of_nil & _)]; done.
    + split; [|by intros [? _]]. intros ?. split; [done|]. by intros r ?%elem_of_nil.
    + split; [by left|]. intros [?|(r & ?%elem_of_nil & _)]; done.
  - apply NoDup_cons in Hnd as [Hr Hnd]. apply not_elem_of_cons in Hu as [Hur Hu].
    destruct (known_loop_body p ro (st, b) r) as [s c] eqn:Hstep.
    unfold known_loop_body in Hstep. simpl in Hstep. injection Hstep as <- <-.
    set (sa := AddPredecessorsForAccess r p ro st).
    set (sb := TrackAccess r p ro sa).
    assert (per_resource_access_info_ sa = per_resource_access_info_ st) as Hpera
      by apply AddPredecessorsForAccess_access.
    assert (forall r', r' <> r ->
              per_resource_access_info_ sb !! r' = per_resource_access_info_ st !! r')
      as Hother.
    { intros r' Hr'. unfold sb. rewrite TrackAccess_known_other by done. by rewrite Hpera. }
    assert (per_resource_access_info_ sb !! r
            = Some (track_record ro p (per_resource_access_info_ st !! r))) as Hself.
    { unfold sb, TrackAccess. rewrite decide_False by done. simpl.
      by rewrite lookup_insert_eq, Hpera. }
    destruct (IH sb (b || unknown_access_indirectly_tracked_by_resource sa r ro) Hnd Hu)
      as (K1 & K2 & K3 & K4 & K5 & K6 & K7 & K8).
    split; [|split; [|split; [|split; [|split; [|split; [|split]]]]]].
    + intros r' [->|Hr']%elem_of_cons.
      * by rewrite K2.
      * rewrite K1 by done. rewrite Hother; [done|]. by intros ->.
    + intros r' [Hne Hr']%not_elem_of_cons. rewrite K2 by done. by apply Hother.
    + rewrite K3. unfold sb. simpl. apply AddPredecessorsForAccess_sorted.
    + rewrite K4. unfold sb. simpl. apply AddPredecessorsForAccess_sorted.
    + intros k Hk. rewrite K5 by done. unfold sb. simpl.
      by apply AddPredecessorsForAccess_other.
    + intros x. rewrite K6.
      assert (preds sb p = preds st p ∪ record_edges ro (per_resource_access_info_ st !! r))
        as ->.
      { unfold sb, preds. simpl. apply AddPredecessorsForAccess_preds_eq. }
      rewrite elem_of_union. split.
      * intros [[?|?]|(r' & Hr' & Hx)]; [by left| |].
        -- right. exists r. split; [left|done].
        -- right. exists r'. split; [by right|].
           rewrite Hother in Hx; [done|]. by intros ->.
      * intros [?|(r' & [->|Hr']%elem_of_cons & Hx)]; [by left; left|by left; right|].
        right. exists r'. split; [done|]. rewrite Hother; [done|]. by intros ->.
    + rewrite K7. change (control_predecessors_ sb) with (control_predecessors_ sa).
      unfold sa. rewrite AddPredecessorsForAccess_entry_None.
      split.
      * intros [[? ?] Hl]. split; [done|]. intros r' [->|Hr']%elem_of_cons; [done|].
        rewrite <- Hother; [by apply Hl|]. by intros ->.
      * intros [? Hl]. split; [split; [done|apply Hl; left]|].
        intros r' Hr'. rewrite Hother; [apply Hl; by right|]. by intros ->.
    + rewrite K8, orb_true_iff.
      rewrite (indirectly_tracked_ext st sa) by (by rewrite Hpera).
      split.
      * intros [[?|?]|(r' & Hr' & Hx)]; [by left| |].
        -- right. exists r. split; [left|done].
        -- right. exists r'. split; [by right|].
           rewrite (indirectly_tracked_ext st sb) in Hx; [done| |].
           ++ apply Hother. by intros ->.
           ++ by apply Hother.
      * intros [?|(r' & [->|Hr']%elem_of_cons & Hx)]; [by left; left|by left; right|].
        right. exists r'. split; [done|].
        rewrite (indirectly_tracked_ext st sb); [done| |].
        -- apply Hother. by intros ->.
        -- by apply Hother.
Qed.

(** The loop over the tracked resources, in full. *)
Lemma unknown_loop_exact p ro (l : list (Z * PerResourceAccessInfo)) st b :
  let acc := foldl (unknown_loop_body p ro) (st, b) l in
  per_resource_access_info_ acc.1 = per_resource_access_info_ st
  /\ sorted_control_predecessors_ acc.1 = sorted_control_predecessors_ st
  /\ sorted_control_successors_ acc.1 = sorted_control_successors_ st
  /\ (forall k, k <> p ->
        control_predecessors_ acc.1 !! k = control_predecessors_ st !! k)
  /\ (forall x, x ∈ preds acc.1 p <->
        x ∈ preds st p
        \/ exists r, r ∈ l.*1 /\ r <> kUnknownResourceId
             /\ x ∈ record_edges ro (per_resource_access_info_ st !! r))
  /\ (control_predecessors_ acc.1 !! p = None <->
        control_predecessors_ st !! p = None
        /\ forall r, r ∈ l.*1 -> r <> kUnknownResourceId ->
             per_resource_access_info_ st !! r = None)
  /\ (acc.2 = true <->
        b = true
        \/ exists r, r ∈ l.*1 /\ r <> kUnknownResourceId
             /\ unknown_access_indirectly_tracked_by_resource st r ro = true).
Proof.
  revert st b. induction l as [|[r rec] l IH]; intros st b; simpl.
  - do 4 (split; [done|]). split; [|split].
    + intros x. split; [by left|]. intros [?|(r & ?%elem_of_nil & _)]; done.
    + split; [|by intros [? _]]. intros ?. split; [done|]. by intros r ?%elem_of_nil.
    + split; [by left|]. intros [?|(r & ?%elem_of_nil & _)]; done.
  - destruct (unknown_loop_body p ro (st, b) (r, rec)) as [s c] eqn:Hstep.
    unfold unknown_loop_body in Hstep. simpl in Hstep.
    destruct (decide (r = kUnknownResourceId)) as [Hru|Hru].
    + injection Hstep as <- <-.
      destruct (IH st b) as (K1 & K3 & K4 & K5 & K6 & K7 & K8).
      do 4 (split; [done|]). split; [|split].
      * intros x. rewrite K6. split.
        -- intros [?|(r' & ? & ? & ?)]; [by left|]. right. exists r'. split; [by right|done].
        -- intros [?|(r' & [->|?]%elem_of_cons & ? & ?)]; [by left|done|].
           right. by exists r'.
      * rewrite K7. split.
        -- intros [? Hl]. split; [done|]. intros r' [->|?]%elem_of_cons ?; [done|].
           by apply Hl.
        -- intros [? Hl]. split; [done|]. intros r' ? ?. apply Hl; [by right|done].
      * rewrite K8. split.
        -- intros [?|(r' & ? & ? & ?)]; [by left|]. right. exists r'. split; [by right|done].
        -- intros [?|(r' & [->|?]%elem_of_cons & ? & ?)]; [by left|done|].
           right. by exists r'.
    + injection Hstep as <- <-.
      set (sa := AddPredecessorsForAccess r p ro st).
      assert (per_resource_access_info_ sa = per_resource_access_info_ st) as Hpera
        by apply AddPredecessorsForAccess_access.
      destruct (IH sa (b || unknown_access_indirectly_tracked_by_resource sa r ro))
        as (K1 & K3 & K4 & K5 & K6 & K7 & K8).
      split; [by rewrite K1|]. 
      split; [rewrite K3; apply AddPredecessorsForAccess_sorted|].
      split; [rewrite K4; apply AddPredecessorsForAccess_sorted|].
      split; [|split; [|split]].
      * intros k Hk. rewrite K5 by done. by apply AddPredecessorsForAccess_other.
      * intros x. rewrite K6. rewrite Hpera.
        unfold sa. rewrite AddPredecessorsForAccess_preds_eq, elem_of_union. split.
        -- intros [[?|?]|(r' & ? & ? & ?)]; [by left| |].
           ++ right. exists r. split; [left|done].
           ++ right. exists r'. split; [by right|done].
        -- intros [?|(r' & [->|?]%elem_of_cons & ? & ?)]; [by left; left|by left; right|].
           right. by exists r'.
      * rewrite K7. unfold sa. rewrite AddPredecessorsForAccess_entry_None.
        rewrite AddPredecessorsForAccess_access. split.
        -- intros [[? ?] Hl]. split; [done|]. intros r' [->|?]%elem_of_cons ?; [done|].
           by apply Hl.
        -- intros [? Hl]. split; [split; [done|apply Hl; [left|done]]|].
           intros r' ? ?. apply Hl; [by right|done].
      * rewrite K8, orb_true_iff.
        rewrite (indirectly_tracked_ext st sa) by (by rewrite Hpera).
        split.
        -- intros [[?|?]|(r' & ? & ? & Hx)]; [by left| |].
           ++ right. exists r. split; [left|done].
           ++ right. exists r'. split; [by right|]. split; [done|].
              rewrite (indirectly_tracked_ext st sa) in Hx; [done| |]; by rewrite Hpera.
        -- intros [?|(r' & [->|?]%elem_of_cons & ? & Hx)]; [by left; left|by left; right|].
           right. exists r'. split; [done|]. split; [done|].
           rewrite (indirectly_tracked_ext st sa); [done| |]; by rewrite Hpera.
Qed.


Lemma info_eq st st' :
  per_resource_access_info_ st = per_resource_access_info_ st' ->
  control_predecessors_ st = control_predecessors_ st' ->
  sorted_control_predecessors_ st = sorted_control_predecessors_ st' ->
  sorted_control_successors_ st = sorted_control_successors_ st' ->
  st = st'.
Proof. destruct st, st'. simpl. by intros -> -> -> ->. Qed.

Lemma entry_eq st st' p :
  (control_predecessors_ st !! p = None <-> control_predecessors_ st' !! p = None) ->
  (forall x, x ∈ preds st p <-> x ∈ preds st' p) ->
  control_predecessors_ st !! p = control_predecessors_ st' !! p.
Proof.
  unfold preds. intros Hnone Hmem.
  destruct (control_predecessors_ st !! p) as [s|],
           (control_predecessors_ st' !! p) as [s'|]; simpl in *.
  - f_equal. by apply set_eq.
  - by destruct (proj2 Hnone eq_refl).
  - by destruct (proj1 Hnone eq_refl).
  - done.
Qed.

(** Edge emission for any enumeration of the two hash containers. *)
Lemma EmitEdges_in_exact lk (le : list (Z * PerResourceAccessInfo)) p resources ro st :
  NoDup lk -> (forall r, r ∈ lk <-> r ∈ resources) ->
  (forall r, r ∈ le.*1 <-> is_Some (per_resource_access_info_ st !! r)) ->
  let st' := EmitEdges_in lk le p resources ro st in
  let skip := exists r, r ∈ consulted st resources
                /\ unknown_access_indirectly_tracked_by_resource st r ro = true in
  sorted_control_predecessors_ st' = sorted_control_predecessors_ st
  /\ sorted_control_successors_ st' = sorted_control_successors_ st
  /\ (forall k, k <> p -> control_predecessors_ st' !! k = control_predecessors_ st !! k)
  /\ (forall x, x ∈ preds st' p <->
        x ∈ preds st p
        \/ (exists r, r ∈ consulted st resources
              /\ x ∈ record_edges ro (per_resource_access_info_ st !! r))
        \/ (~ skip
            /\ x ∈ record_edges ro (per_resource_access_info_ st !! kUnknownResourceId)))
  /\ (control_predecessors_ st' !! p = None <->
        control_predecessors_ st !! p = None
        /\ (forall r, r ∈ consulted st resources ->
              per_resource_access_info_ st !! r = None)
        /\ per_resource_access_info_ st !! kUnknownResourceId = None)
  /\ (if bool_decide (kUnknownResourceId ∈ resources)
      then per_resource_access_info_ st'
           = per_resource_access_info_ (TrackAccess kUnknownResourceId p ro st)
      else (forall r, r ∈ resources ->
              per_resource_access_info_ st' !! r
              = Some (track_record ro p (per_resource_access_info_ st !! r)))
           /\ (forall r, r ∉ resources ->
                 per_resource_access_info_ st' !! r
                 = per_resource_access_info_ st !! r)).
Proof.
  intros Hnd Hlk Hle. unfold EmitEdges_in, consulted.
  destruct (bool_decide (kUnknownResourceId ∈ resources)) eqn:Hunk.
  - (* an unknown access *)
    pose proof (unknown_loop_exact p ro le st false) as (K1 & K3 & K4 & K5 & K6 & K7 & K8).
    destruct (foldl (unknown_loop_body p ro) (st, false) le) as [s1 tr]. simpl in *.
    assert (forall r, r ∈ dom (per_resource_access_info_ st) ∖ {[kUnknownResourceId]}
                      <-> r ∈ le.*1 /\ r <> kUnknownResourceId) as Hdom.
    { intros r. rewrite elem_of_difference, elem_of_dom, Hle, elem_of_singleton. done. }
    assert (forall r, r ∈ dom (per_resource_access_info_ st) ∖ {[kUnknownResourceId]}
                      -> r <> kUnknownResourceId) as Hdomu by set_solver.
    assert (tr = true <->
            exists r, r ∈ dom (per_resource_access_info_ st) ∖ {[kUnknownResourceId]}
              /\ unknown_access_indirectly_tracked_by_resource st r ro = true) as Htr.
    { rewrite K8. split.
      - intros [?|(r & ? & ? & ?)]; [done|]. exists r. by rewrite Hdom.
      - intros (r & [? ?]%Hdom & ?). right. by exists r. }
    set (s2 := if tr then s1 else AddPredecessorsForAccess kUnknownResourceId p ro s1).
    assert (per_resource_access_info_ s2 = per_resource_access_info_ st) as Hper2.
    { unfold s2. destruct tr; [done|]. by rewrite AddPredecessorsForAccess_access. }
    change (sorted_control_predecessors_ (TrackAccess kUnknownResourceId p ro s2))
      with (sorted_control_predecessors_ s2).
    change (sorted_control_successors_ (TrackAccess kUnknownResourceId p ro s2))
      with (sorted_control_successors_ s2).
    change (control_predecessors_ (TrackAccess kUnknownResourceId p ro s2))
      with (control_predecessors_ s2).
    change (preds (TrackAccess kUnknownResourceId p ro s2) p) with (preds s2 p).
    split; [|split; [|split; [|split; [|split]]]].
    + unfold s2. destruct tr; [done|]. rewrite <- K3. apply AddPredecessorsForAccess_sorted.
    + unfold s2. destruct tr; [done|]. rewrite <- K4. apply AddPredecessorsForAccess_sorted.
    + intros k Hk. unfold s2. destruct tr; [by apply K5|].
      rewrite AddPredecessorsForAccess_other by done. by apply K5.
    + intros x. unfold s2. destruct tr eqn:Htreq.
      * rewrite K6. split.
        -- intros [?|(r & ? & ? & ?)]; [by left|]. right; left. exists r. by rewrite Hdom.
        -- intros [?|[(r & [? ?]%Hdom & ?)|[Hns _]]]; [by left| |].
           ++ right. by exists r.
           ++ destruct Hns. by apply Htr.
      * rewrite AddPredecessorsForAccess_preds_eq, elem_of_union, K6, K1. split.
        -- intros [[?|(r & ? & ? & ?)]|?]; [by left| |].
           ++ right; left. exists r. by rewrite Hdom.
           ++ right; right. split; [|done]. intros Hs%Htr. done.
        -- intros [?|[(r & [? ?]%Hdom & ?)|[_ ?]]]; [by left; left| |by right].
           left; right. by exists r.
    + unfold s2. destruct tr eqn:Htreq.
      * rewrite K7. split.
        -- intros [? Hl]. destruct (proj1 Htr eq_refl) as (r & [Hr Hru]%Hdom & Hind).
           exfalso. unfold unknown_access_indirectly_tracked_by_resource in Hind.
           by rewrite (Hl r Hr Hru) in Hind.
        -- intros (? & Hl & _). split; [done|]. intros r ? ?. apply Hl. by apply Hdom.
      * rewrite AddPredecessorsForAccess_entry_None, K7, K1. split.
        -- intros [[? Hl] ?]. split; [done|]. split; [|done].
           intros r [? ?]%Hdom. by apply Hl.
        -- intros (? & Hl & ?). split; [|done]. split; [done|].
           intros r ? ?. apply Hl. by apply Hdom.
    + unfold TrackAccess. simpl. by rewrite Hper2.
  - (* an access to known resources *)
    apply bool_decide_eq_false in Hunk.
    assert (kUnknownResourceId ∉ lk) as Hunk' by (by rewrite Hlk).
    pose proof (known_loop_exact p ro lk st false Hnd Hunk')
      as (K1 & K2 & K3 & K4 & K5 & K6 & K7 & K8).
    destruct (foldl (known_loop_body p ro) (st, false) lk) as [s1 tr]. simpl in *.
    assert (tr = true <->
            exists r, r ∈ resources
              /\ unknown_access_indirectly_tracked_by_resource st r ro = true) as Htr.
    { rewrite K8. split.
      - intros [?|(r & ? & ?)]; [done|]. exists r. by rewrite <- Hlk.
      - intros (r & ? & ?). right. exists r. by rewrite Hlk. }
    assert (per_resource_access_info_ s1 !! kUnknownResourceId
            = per_resource_access_info_ st !! kUnknownResourceId) as HperU by (by apply K2).
    destruct tr eqn:Htreq.
    + do 3 (split; [done|]). split; [|split; [|split]].
      * intros x. rewrite K6. split.
        -- intros [?|(r & ? & ?)]; [by left|]. right; left. exists r. by rewrite <- Hlk.
        -- intros [?|[(r & ? & ?)|[Hns _]]]; [by left| |].
           ++ right. exists r. by rewrite Hlk.
           ++ destruct Hns. by apply Htr.
      * rewrite K7. split.
        -- intros [? Hl]. destruct (proj1 Htr eq_refl) as (r & Hr & Hind).
           exfalso. unfold unknown_access_indirectly_tracked_by_resource in Hind.
           rewrite (Hl r) in Hind by (by rewrite Hlk). done.
        -- intros (? & Hl & _). split; [done|]. intros r ?. apply Hl. by rewrite <- Hlk.
      * intros r Hr. apply K1. by rewrite Hlk.
      * intros r Hr. apply K2. by rewrite Hlk.
    + destruct (AddPredecessorsForAccess_sorted kUnknownResourceId p ro s1) as [-> ->].
      rewrite AddPredecessorsForAccess_access.
      do 2 (split; [done|]). split; [|split; [|split; [|split]]].
      * intros k Hk. rewrite AddPredecessorsForAccess_other by done. by apply K5.
      * intros x. rewrite AddPredecessorsForAccess_preds_eq, elem_of_union, K6, HperU.
        split.
        -- intros [[?|(r & ? & ?)]|?]; [by left| |].
           ++ right; left. exists r. by rewrite <- Hlk.
           ++ right; right. split; [|done]. by intros Hs%Htr.
        -- intros [?|[(r & ? & ?)|[_ ?]]]; [by left; left| |by right].
           left; right. exists r. by rewrite Hlk.
      * rewrite AddPredecessorsForAccess_entry_None, K7, HperU. split.
        -- intros [[? Hl] ?]. split; [done|]. split; [|done].
           intros r ?. apply Hl. by rewrite Hlk.
        -- intros (? & Hl & ?). split; [|done]. split; [done|].
           intros r ?. apply Hl. by rewrite <- Hlk.
      * intros r Hr. apply K1. by rewrite Hlk.
      * intros r Hr. apply K2. by rewrite Hlk.
Qed.

Lemma EmitEdges_in_elements p resources ro st :
  EmitEdges p resources ro st
  = EmitEdges_in (elements resources) (map_to_list (per_resource_access_info_ st))
      p resources ro st.
Proof. reflexivity. Qed.

Lemma map_to_list_keys (m : gmap Z PerResourceAccessInfo) r :
  r ∈ (map_to_list m).*1 <-> is_Some (m !! r).
Proof.
  rewrite list_elem_of_fmap. split.
  - intros ([r' rec] & -> & Hin%elem_of_map_to_list). by eexists.
  - intros [rec Hrec]. exists (r, rec). split; [done|]. by apply elem_of_map_to_list.
Qed.


(** What one visit adds to the predecessors of the operation. *)
Lemma EmitEdges_edges p resources ro st :
  let st' := EmitEdges p resources ro st in
  let skip := exists r, r ∈ consulted st resources
                /\ unknown_access_indirectly_tracked_by_resource st r ro = true in
  (forall x, x ∈ preds st' p <->
     x ∈ preds st p
     \/ (exists r, r ∈ consulted st resources
           /\ x ∈ record_edges ro (per_resource_access_info_ st !! r))
     \/ (~ skip
         /\ x ∈ record_edges ro (per_resource_access_info_ st !! kUnknownResourceId)))
  /\ (forall k, k <> p -> control_predecessors_ st' !! k = control_predecessors_ st !! k).
Proof.
  rewrite EmitEdges_in_elements.
  destruct (EmitEdges_in_exact (elements resources)
              (map_to_list (per_resource_access_info_ st)) p resources ro st)
    as (_ & _ & Hcp & Hpreds & _).
  - apply NoDup_elements.
  - intros r. apply elem_of_elements.
  - apply map_to_list_keys.
  - split; [apply Hpreds|apply Hcp].
Qed.

(** What one visit does to the access records. *)
Lemma EmitEdges_records p resources ro st :
  let st' := EmitEdges p resources ro st in
  (kUnknownResourceId ∈ resources ->
   per_resource_access_info_ st'
   = per_resource_access_info_ (TrackAccess kUnknownResourceId p ro st))
  /\ (kUnknownResourceId ∉ resources ->
      (forall r, r ∈ resources ->
         per_resource_access_info_ st' !! r
         = Some (track_record ro p (per_resource_access_info_ st !! r)))
      /\ (forall r, r ∉ resources ->
            per_resource_access_info_ st' !! r = per_resource_access_info_ st !! r)).
Proof.
  rewrite EmitEdges_in_elements.
  destruct (EmitEdges_in_exact (elements resources)
              (map_to_list (per_resource_access_info_ st)) p resources ro st)
    as (_ & _ & _ & _ & _ & Hper).
  - apply NoDup_elements.
  - intros r. apply elem_of_elements.
  - apply map_to_list_keys.
  - split; intros Hu.
    + by rewrite bool_decide_eq_true_2 in Hper.
    + by rewrite bool_decide_eq_false_2 in Hper.
Qed.

End EdgeEmission.

Section EdgeEmissionTheorems.
Context {ext : Externals}.
Implicit Types (st : SideEffectAnalysisInfo) (p k x : positive) (r : Z).

(** X1: the predecessors edge emission leaves for the operation are those
    it had, the edges of the records it consults (the records of its
    resources, or of every tracked known resource when the access is
    unknown) and, unless one consulted resource tracks the unknown access
    indirectly, the edges of the record of the unknown resource.  The
    operation is left without an entry exactly when it had none and neither
    a consulted resource nor the unknown resource has a record; the entry
    of no other operation changes, nor do the sorted maps. *)
Theorem EmitEdges_predecessors_exact p resources ro st :
  let st' := EmitEdges p resources ro st in
  let skip := exists r, r ∈ consulted st resources
                /\ unknown_access_indirectly_tracked_by_resource st r ro = true in
  (forall x, x ∈ preds st' p <->
     x ∈ preds st p
     \/ (exists r, r ∈ consulted st resources
           /\ x ∈ record_edges ro (per_resource_access_info_ st !! r))
     \/ (~ skip
         /\ x ∈ record_edges ro (per_resource_access_info_ st !! kUnknownResourceId)))
  /\ (control_predecessors_ st' !! p = None <->
        control_predecessors_ st !! p = None
        /\ (forall r, r ∈ consulted st resources ->
              per_resource_access_info_ st !! r = None)
        /\ per_resource_access_info_ st !! kUnknownResourceId = None)
  /\ (forall k, k <> p -> control_predecessors_ st' !! k = control_predecessors_ st !! k)
  /\ sorted_control_predecessors_ st' = sorted_control_predecessors_ st
  /\ sorted_control_successors_ st' = sorted_control_successors_ st.
Proof.
  rewrite EmitEdges_in_elements.
  destruct (EmitEdges_in_exact (elements resources)
              (map_to_list (per_resource_access_info_ st)) p resources ro st)
    as (Hsp & Hss & Hcp & Hpreds & Hnone & _).
  - apply NoDup_elements.
  - intros r. apply elem_of_elements.
  - apply map_to_list_keys.
  - split; [apply Hpreds|]. split; [apply Hnone|]. split; [apply Hcp|]. by split.
Qed.

(** X2: the access records after edge emission.  After an unknown write
    the record of the unknown resource is the only one, with the operation
    as last write; after an unknown read the operation is appended to the
    reads of the unknown record and [tracked_last_unknown_read] is cleared
    in every other record; after an access to known resources each of them
    holds the record built from its own former record and every other
    record is unchanged. *)
Theorem EmitEdges_records_exact p resources ro st :
  let per := per_resource_access_info_ st in
  let per' := per_resource_access_info_ (EmitEdges p resources ro st) in
  (kUnknownResourceId ∈ resources -> ro = false ->
   per' = {[ kUnknownResourceId := MkAccessInfo (Some p) [] true true true ]})
  /\ (kUnknownResourceId ∈ resources -> ro = true ->
      per' !! kUnknownResourceId
      = Some (track_record true p (clear_unknown_read <$> per !! kUnknownResourceId))
      /\ (forall r, r <> kUnknownResourceId -> per' !! r = clear_unknown_read <$> per !! r))
  /\ (kUnknownResourceId ∉ resources ->
      (forall r, r ∈ resources -> per' !! r = Some (track_record ro p (per !! r)))
      /\ (forall r, r ∉ resources -> per' !! r = per !! r)).
Proof.
  simpl. destruct (EmitEdges_records p resources ro st) as [Hunknown Hknown].
  split; [|split].
  - intros Hu ->. rewrite (Hunknown Hu). unfold TrackAccess. simpl.
    rewrite decide_True by done. by rewrite insert_empty.
  - intros Hu ->. rewrite (Hunknown Hu). unfold TrackAccess. simpl.
    rewrite decide_True by done. split.
    + by rewrite lookup_insert_eq, lookup_fmap.
    + intros r Hr. by rewrite lookup_insert_ne, lookup_fmap.
  - exact Hknown.
Qed.

(** X3: the result of edge emission does not depend on the order in which
    the resource set of the operation and the map of access records are
    iterated over. *)
Theorem EmitEdges_order_independent lk (le : list (Z * PerResourceAccessInfo))
    p resources ro st :
  lk ≡ₚ elements resources ->
  le ≡ₚ map_to_list (per_resource_access_info_ st) ->
  EmitEdges_in lk le p resources ro st = EmitEdges p resources ro st.
Proof.
  intros Hlk Hle. rewrite EmitEdges_in_elements.
  destruct (EmitEdges_in_exact lk le p resources ro st)
    as (Hsp & Hss & Hcp & Hpreds & Hnone & Hper).
  { rewrite Hlk. apply NoDup_elements. }
  { intros r. rewrite Hlk. apply elem_of_elements. }
  { intros r. rewrite Hle. apply map_to_list_keys. }
  destruct (EmitEdges_in_exact (elements resources)
              (map_to_list (per_resource_access_info_ st)) p resources ro st)
    as (Hsp' & Hss' & Hcp' & Hpreds' & Hnone' & Hper').
  { apply NoDup_elements. }
  { intros r. apply elem_of_elements. }
  { apply map_to_list_keys. }
  apply info_eq.
  - destruct (bool_decide (kUnknownResourceId ∈ resources)); [congruence|].
    destruct Hper as [Hin Hout], Hper' as [Hin' Hout'].
    apply map_eq. intros r. destruct (decide (r ∈ resources)).
    + by rewrite Hin, Hin'.
    + by rewrite Hout, Hout'.
  - apply map_eq. intros k. destruct (decide (k = p)) as [->|Hk].
    + apply entry_eq.
      * by rewrite Hnone, Hnone'.
      * intros x. by rewrite Hpreds, Hpreds'.
    + by rewrite Hcp, Hcp'.
  - congruence.
  - congruence.
Qed.

(** *** Helper functions *)

Lemma collect_resources_exact alias vals acc :
  collect_resources alias vals acc
  = if existsb (IsUnknownResource alias) vals then None
    else Some (acc ∪ ⋃ (GetResourceUniqueIds alias <$> vals)).
Proof.
  revert acc. induction vals as [|v vals IH]; intros acc; simpl.
  - f_equal. set_solver.
  - destruct (IsUnknownResource alias v); simpl; [done|].
    rewrite IH. destruct (existsb _ vals); [done|]. f_equal. set_solver.
Qed.

Lemma elem_of_filter_resources v (vals : list Value) :
  v ∈ filter_resources vals <-> v ∈ vals /\ value_is_resource v = true.
Proof.
  unfold filter_resources. rewrite !list_elem_of_In, List.filter_In. done.
Qed.

(** X4: [FindAccessedResources] is the unknown resource alone as soon as
    one resource operand or result is of unknown identity, and otherwise the
    union of the identifiers of the resource operands and results. *)
Theorem FindAccessedResources_exact (o : Operation) alias :
  let is_resource_value v :=
    (v ∈ getOperands o \/ v ∈ getResults o) /\ value_is_resource v = true in
  ((exists v, is_resource_value v /\ IsUnknownResource alias v = true) ->
   FindAccessedResources o alias = {[ kUnknownResourceId ]})
  /\ ((forall v, is_resource_value v -> IsUnknownResource alias v = false) ->
      forall id, id ∈ FindAccessedResources o alias <->
        exists v, is_resource_value v /\ id ∈ GetResourceUniqueIds alias v).
Proof.
  simpl. unfold FindAccessedResources. rewrite collect_resources_exact.
  split.
  - intros (v & [[Hv|Hv] Hres] & Hu).
    + rewrite (proj2 (existsb_exists _ _)); [done|].
      exists v. split; [|done]. apply list_elem_of_In. by apply elem_of_filter_resources.
    + destruct (existsb _ (filter_resources (getOperands o))); [done|].
      rewrite collect_resources_exact.
      rewrite (proj2 (existsb_exists _ _)); [done|].
      exists v. split; [|done]. apply list_elem_of_In. by apply elem_of_filter_resources.
  - intros Hknown.
    assert (forall vals : list Value, (forall v, v ∈ vals -> v ∈ getOperands o \/ v ∈ getResults o) ->
              existsb (IsUnknownResource alias) (filter_resources vals) = false) as Hnone.
    { intros vals Hsub. apply not_true_is_false. intros (v & Hv & Hu)%existsb_exists.
      apply list_elem_of_In, elem_of_filter_resources in Hv as [Hv Hres].
      rewrite Hknown in Hu; [done|]. split; [by apply Hsub|done]. }
    rewrite Hnone by auto. rewrite collect_resources_exact, Hnone by auto.
    intros id. rewrite !elem_of_union, !elem_of_union_list. split.
    + intros [[?%not_elem_of_empty|(s & Hs & Hid)]|(s & Hs & Hid)]; [done| |].
      * apply list_elem_of_fmap in Hs as (v & -> & [Hv Hres]%elem_of_filter_resources).
        exists v. split; [|done]. split; [by left|done].
      * apply list_elem_of_fmap in Hs as (v & -> & [Hv Hres]%elem_of_filter_resources).
        exists v. split; [|done]. split; [by right|done].
    + intros (v & [[Hv|Hv] Hres] & Hid).
      * left; right. exists (GetResourceUniqueIds alias v). split; [|done].
        apply list_elem_of_fmap_2. by apply elem_of_filter_resources.
      * right. exists (GetResourceUniqueIds alias v). split; [|done].
        apply list_elem_of_fmap_2. by apply elem_of_filter_resources.
Qed.

(** X5: visiting an identity operation never changes the state: it is
    skipped, or, when the table classifies it and it touches no resource,
    the assertion fails. *)
Theorem Identity_is_never_an_access alias (o : Operation) st :
  isa_IdentityOp (getName o) = true ->
  VisitOperation alias o st = Some st
  \/ (VisitOperation alias o st = None
      /\ is_Some (GetResourceInfoForOp o)
      /\ FindAccessedResources o alias = ∅).
Proof.
  intros Hid. unfold VisitOperation.
  destruct (OpIsDeclaration o alias) eqn:Hdecl; [by left|].
  unfold OpIsDeclaration in Hdecl. rewrite Hid, orb_true_r in Hdecl. simpl in Hdecl.
  apply orb_false_iff in Hdecl as [_ Hempty].
  apply negb_false_iff, bool_decide_eq_true in Hempty.
  unfold OpIsKnownToHaveNoSideEffect. rewrite Hid.
  unfold OpResources.
  destruct (GetResourceInfoForOp o) as [i|] eqn:Hinfo; simpl; [|by left].
  right.
  destruct (bool_decide (is_Some (Some i))) eqn:Hb.
  - simpl. rewrite bool_decide_eq_true_2 by done. split; [done|]. split; [by eexists|done].
  - apply bool_decide_eq_false in Hb. destruct Hb. by eexists.
Qed.

End EdgeEmissionTheorems.

Section WalkInvariants.
Context {ext : Externals}.
Implicit Types (st : SideEffectAnalysisInfo) (p k x d : positive) (r : Z).

Lemma VisitOperation_cases alias (o : Operation) st st' :
  VisitOperation alias o st = Some st' ->
  st' = st
  \/ (reaches_resources alias o
      /\ st' = EmitEdges (op_ptr o) (OpResources o alias) (OpIsReadOnly o) st).
Proof.
  unfold VisitOperation, reaches_resources.
  destruct (OpIsDeclaration o alias); [intros [= <-]; by left|].
  destruct (negb _ && _); [intros [= <-]; by left|].
  destruct (bool_decide (OpResources o alias = ∅)); [done|].
  intros [= <-]. by right.
Qed.

(** An invariant of the walk: it holds of the fresh state, merging a child
    analysis keeps it, and so does the visit of every operation walked
    over. *)
Lemma walk_invariant alias (I : SideEffectAnalysisInfo -> Prop) (G : Operation -> Prop) :
  I empty_info ->
  (forall child st, I child -> I st -> I (merge_child child st)) ->
  (forall (o : Operation) st st', G o -> I st ->
     VisitOperation alias o st = Some st' -> I st') ->
  forall ops st st', (forall o, o ∈ ops_all ops -> G o) -> I st ->
    foldM (AnalyzeOperation alias) ops st = Some st' -> I st'.
Proof.
  intros Hempty Hmerge Hvisit.
  assert (forall ops,
            Forall (fun o => (forall o', o' ∈ sub_ops o -> G o') -> forall st st',
                      I st -> AnalyzeOperation alias o st = Some st' -> I st') ops ->
            forall st st', (forall o, o ∈ ops_all ops -> G o) -> I st ->
              foldM (AnalyzeOperation alias) ops st = Some st' -> I st') as Hops.
  { induction 1 as [|o ops Ho _ IH]; intros st st' HG HI Hrun; simpl in Hrun.
    - by injection Hrun as <-.
    - destruct (AnalyzeOperation alias o st) as [st1|] eqn:Hst1; [|done].
      rewrite ops_all_cons in HG. apply (IH st1 st'); [| |done].
      + intros o' Ho'. apply HG. apply elem_of_app. by right.
      + apply (Ho (fun o' Ho' => HG o' (proj2 (elem_of_app _ _ _) (or_introl Ho'))) st st1);
          done. }
  assert (forall o : Operation, (forall o', o' ∈ sub_ops o -> G o') -> forall st st',
            I st -> AnalyzeOperation alias o st = Some st' -> I st') as Hop.
  { induction o as [ptr name operands results regions IH] using Operation_nested_ind.
    intros HG st st' HI Hrun. rewrite AnalyzeOperation_eq in Hrun. simpl in Hrun.
    rewrite sub_ops_eq in HG. simpl in HG.
    destruct (AnalyzeChildren alias regions st) as [st1|] eqn:Hst1; [|done].
    refine (Hvisit _ st1 st' (HG _ _) _ Hrun); [left|].
    clear Hrun. revert st st1 HI Hst1.
    assert (forall o', o' ∈ regions_all regions -> G o') as HGr
      by (intros o' Ho'; apply HG; by right).
    clear HG. unfold AnalyzeChildren.
    induction IH as [|region regions Hregion _ IHregions]; intros st st1 HI Hst1;
      simpl in Hst1.
    - by injection Hst1 as <-.
    - destruct (AnalyzeRegion region alias empty_info) as [child|] eqn:Hchild; [|done].
      rewrite regions_all_cons in HGr.
      apply (IHregions (fun o' Ho' => HGr o' (proj2 (elem_of_app _ _ _) (or_intror Ho')))
               (merge_child child st) st1); [|done].
      apply Hmerge; [|done].
      rewrite AnalyzeRegion_concat in Hchild.
      apply (Hops (concat region) (Forall_nested_concat _ _ Hregion) empty_info child);
        [|done|done].
      intros o' Ho'. apply HGr. apply elem_of_app. by left. }
  intros ops. apply Hops. apply Forall_forall. intros o _. apply Hop.
Qed.

(** What [TrackAccess] keeps, the walk keeps. *)
Lemma EmitEdges_access_invariant (Q : gmap Z PerResourceAccessInfo -> Prop)
    p resources ro st :
  (forall r st0, Q (per_resource_access_info_ st0) ->
     Q (per_resource_access_info_ (TrackAccess r p ro st0))) ->
  Q (per_resource_access_info_ st) ->
  Q (per_resource_access_info_ (EmitEdges p resources ro st)).
Proof.
  intros Htrack HQ. unfold EmitEdges.
  destruct (bool_decide (kUnknownResourceId ∈ resources)).
  - pose proof (unknown_loop_exact p ro (map_to_list (per_resource_access_info_ st)) st false)
      as (K1 & _).
    destruct (foldl _ _ _) as [s1 tr]. simpl in K1.
    apply Htrack. destruct tr; [by rewrite K1|].
    by rewrite AddPredecessorsForAccess_access, K1.
  - assert (forall l st0 b, Q (per_resource_access_info_ st0) ->
              Q (per_resource_access_info_ (foldl (known_loop_body p ro) (st0, b) l).1))
      as Hloop.
    { induction l as [|r l IH]; intros st0 b HQ0; simpl; [done|].
      apply IH. unfold known_loop_body. simpl. apply Htrack.
      by rewrite AddPredecessorsForAccess_access. }
    specialize (Hloop (elements resources) st false HQ).
    destruct (foldl _ _ _) as [s1 tr]. simpl in Hloop.
    destruct tr; [done|]. by rewrite AddPredecessorsForAccess_access.
Qed.

Lemma walk_access_invariant alias (Q : gmap Z PerResourceAccessInfo -> Prop) :
  (forall r p ro st, Q (per_resource_access_info_ st) ->
     Q (per_resource_access_info_ (TrackAccess r p ro st))) ->
  forall ops st st', Q (per_resource_access_info_ st) ->
    foldM (AnalyzeOperation alias) ops st = Some st' ->
    Q (per_resource_access_info_ st').
Proof.
  intros Htrack. induction ops as [|o ops IH]; intros st st' HQ Hrun; simpl in Hrun.
  - by injection Hrun as <-.
  - destruct (AnalyzeOperation alias o st) as [st1|] eqn:Hst1; [|done].
    apply (IH st1 st'); [|done].
    rewrite AnalyzeOperation_eq in Hst1.
    destruct (AnalyzeChildren alias (getRegions o) st) as [st0|] eqn:Hst0; [|done].
    apply AnalyzeChildren_spec in Hst0 as [Hper _].
    apply VisitOperation_cases in Hst1 as [->|[_ ->]]; [by rewrite Hper|].
    apply EmitEdges_access_invariant; [intros; by apply Htrack|]. by rewrite Hper.
Qed.

Lemma TrackAccess_record_wf r p ro st :
  (forall r' rec, per_resource_access_info_ st !! r' = Some rec -> record_wf rec) ->
  forall r' rec, per_resource_access_info_ (TrackAccess r p ro st) !! r' = Some rec ->
    record_wf rec.
Proof.
  intros Hwf r' rec. unfold TrackAccess. simpl.
  set (per1 := if decide (r = kUnknownResourceId) then _ else _).
  assert (forall r0 rec0, per1 !! r0 = Some rec0 -> record_wf rec0) as Hwf1.
  { intros r0 rec0. unfold per1.
    destruct (decide (r = kUnknownResourceId)); [destruct ro|]; [| |apply Hwf].
    - rewrite lookup_fmap.
      destruct (per_resource_access_info_ st !! r0) as [old|] eqn:Hold; [|done].
      simpl. intros [= <-]. destruct (Hwf _ _ Hold) as (H1 & H2 & H3 & H4).
      unfold record_wf, clear_unknown_read. simpl. repeat split; auto; try apply H2. done.
    - by rewrite lookup_empty. }
  destruct (decide (r' = r)) as [->|Hne].
  - rewrite lookup_insert_eq. intros [= <-]. destruct ro.
    + destruct (per1 !! r) as [old|] eqn:Hold; simpl.
      * destruct (Hwf1 _ _ Hold) as (H1 & H2 & H3 & H4).
        unfold record_wf. simpl. repeat split; auto; try apply H2.
        right. by destruct (reads_since_last_write old).
      * unfold record_wf. simpl. split; [done|]. split; [|split; [done|by right]].
        split; [done|]. by intros [? ?].
    + unfold record_wf. simpl. repeat split; eauto.
  - rewrite lookup_insert_ne by done. apply Hwf1.
Qed.

(** X6: in every access record a region walk builds from the empty state,
    the write flag is set, the read flag is set exactly when there is a
    last write, the unknown-read flag implies a last write, and the record
    remembers a last write or a read. *)
Theorem access_records_well_formed alias region st r rec :
  AnalyzeRegion region alias empty_info = Some st ->
  per_resource_access_info_ st !! r = Some rec ->
  record_wf rec.
Proof.
  rewrite AnalyzeRegion_concat. intros Hrun.
  revert r rec.
  refine (walk_access_invariant alias
            (fun per => forall r rec, per !! r = Some rec -> record_wf rec)
            _ _ empty_info st _ Hrun).
  - intros r p ro st0. apply TrackAccess_record_wf.
  - intros r rec. simpl. by rewrite lookup_empty.
Qed.

End WalkInvariants.

Section Reads.
Context {ext : Externals}.
Implicit Types (st : SideEffectAnalysisInfo) (p k x d : positive) (r : Z).

Lemma TrackAccess_last_write r p ro st r' rec w :
  per_resource_access_info_ (TrackAccess r p ro st) !! r' = Some rec ->
  last_write rec = Some w ->
  (exists r0 rec0, per_resource_access_info_ st !! r0 = Some rec0
     /\ last_write rec0 = Some w)
  \/ (ro = false /\ w = p).
Proof.
  unfold TrackAccess. simpl. intros Hl Hw.
  destruct (decide (r' = r)) as [->|Hne].
  - rewrite lookup_insert_eq in Hl. injection Hl as <-. destruct ro; simpl in Hw.
    + match type of Hw with context [default _ (?m !! r)] =>
        destruct (m !! r) as [rec1|] eqn:Hrec1 end; simpl in Hw; [|done].
      apply (TrackAccess_barrier_sub r true) in Hrec1 as (rec0 & Hrec0 & Hlw & _).
      left. exists r, rec0. split; [done|]. congruence.
    + right. split; [done|]. congruence.
  - rewrite lookup_insert_ne in Hl by done.
    apply TrackAccess_barrier_sub in Hl as (rec0 & Hrec0 & Hlw & _).
    left. exists r', rec0. split; [done|]. congruence.
Qed.

Lemma record_edges_read rec x :
  x ∈ record_edges true rec -> exists rec0, rec = Some rec0 /\ last_write rec0 = Some x.
Proof.
  destruct rec as [rec0|]; simpl; [|set_solver].
  destruct (last_write rec0) as [w|] eqn:Hw; [|set_solver].
  intros ->%elem_of_singleton. by exists rec0.
Qed.

Lemma preds_elem st k x :
  x ∈ preds st k -> exists s, control_predecessors_ st !! k = Some s /\ x ∈ s.
Proof.
  unfold preds. destruct (control_predecessors_ st !! k) as [s|]; simpl.
  - intros ?. by exists s.
  - set_solver.
Qed.

Lemma read_only_at_walk alias (Wr : positive -> Prop) d ops st st' :
  (forall o : Operation, o ∈ ops_all ops ->
     (op_ptr o = d -> OpIsReadOnly o = true)
     /\ (OpIsReadOnly o = false -> Wr (op_ptr o))) ->
  read_only_at Wr d st ->
  foldM (AnalyzeOperation alias) ops st = Some st' ->
  read_only_at Wr d st'.
Proof.
  apply (walk_invariant alias (read_only_at Wr d)
           (fun o => (op_ptr o = d -> OpIsReadOnly o = true)
                     /\ (OpIsReadOnly o = false -> Wr (op_ptr o)))).
  - split; intros ? ?; simpl; by rewrite lookup_empty.
  - intros child st0 [_ Hc] [Hs1 Hs2]. split; [done|].
    intros k s. rewrite merge_child_predecessors.
    destruct (control_predecessors_ child !! k) as [s'|] eqn:Hk.
    + intros [= <-]. by apply Hc.
    + apply Hs2.
  - intros o st0 st0' [Hd HWr] [HI1 HI2] [->|[_ ->]]%VisitOperation_cases; [done|].
    split.
    + apply (EmitEdges_access_invariant
               (fun per => forall r rec, per !! r = Some rec -> last_write rec <> Some d));
        [|done].
      intros r st1 Hst1 r' rec Hl Hw.
      destruct (TrackAccess_last_write _ _ _ _ _ _ _ Hl Hw) as [(r0 & rec0 & ? & ?)|[Hro ->]].
      * by apply (Hst1 r0 rec0).
      * rewrite Hd in Hro; done.
    + destruct (EmitEdges_edges (op_ptr o) (OpResources o alias)
                  (OpIsReadOnly o) st0) as [Hpreds Hcp].
      intros k s Hk Hin. destruct (decide (k = op_ptr o)) as [->|Hne].
      * destruct (OpIsReadOnly o) eqn:Hro; [|by apply HWr].
        apply (preds_lookup _ _ _ _ Hk), Hpreds in Hin
          as [Hin|[(r & _ & Hin)|[_ Hin]]].
        -- apply preds_elem in Hin as (s0 & Hs0 & Hin). by apply (HI2 _ s0).
        -- apply record_edges_read in Hin as (rec0 & Hrec0 & Hw). by destruct (HI1 _ _ Hrec0).
        -- apply record_edges_read in Hin as (rec0 & Hrec0 & Hw). by destruct (HI1 _ _ Hrec0).
      * rewrite Hcp in Hk by done. by apply (HI2 k s).
Qed.

(** X7: in a function whose operations have distinct addresses, a
    read-only operation is neither a predecessor nor a successor of another
    read-only operation. *)
Theorem read_only_operations_are_not_ordered func alias info (a b : Operation) :
  NoDup (ptrs (region_all (getBody func))) ->
  a ∈ region_all (getBody func) -> b ∈ region_all (getBody func) ->
  OpIsReadOnly a = true -> OpIsReadOnly b = true ->
  NewSideEffectAnalysisInfo func alias = Some info ->
  (forall l, sorted_control_predecessors_ info !! op_ptr b = Some l -> op_ptr a ∉ l)
  /\ (forall l, sorted_control_successors_ info !! op_ptr a = Some l -> op_ptr b ∉ l).
Proof.
  intros Hnd Ha Hb Hra Hrb Hnew.
  pose proof Hnew as (st & Hst & _)%finalized_graph.
  set (Wr := fun k => exists o : Operation,
                 o ∈ region_all (getBody func) /\ op_ptr o = k /\ OpIsReadOnly o = false).
  assert (read_only_at Wr (op_ptr a) st) as [_ Hedges].
  { rewrite AnalyzeRegion_concat in Hst.
    apply (read_only_at_walk alias Wr (op_ptr a) (concat (getBody func)) empty_info st);
      [| |done].
    - intros o Ho. rewrite <- region_all_concat in Ho. split.
      + intros Heq. by rewrite (NoDup_ptrs_inj _ _ _ Hnd Ho Ha Heq).
      + intros Hro. by exists o.
    - split; intros ? ?; simpl; by rewrite lookup_empty. }
  assert (forall s, control_predecessors_ st !! op_ptr b = Some s -> op_ptr a ∉ s) as Hraw.
  { intros s Hs Hin. destruct (Hedges _ _ Hs Hin) as (o & Ho & Heq & Hro).
    rewrite (NoDup_ptrs_inj _ _ _ Hnd Ho Hb Heq) in Hro. congruence. }
  split.
  - intros l Hl Hin.
    destruct (finalized_predecessors _ _ _ _ _ (op_ptr a) Hnew Hl)
      as (st0 & s & Hst0 & Hk & _ & _ & Hmem).
    rewrite Hst in Hst0. injection Hst0 as <-. apply (Hraw s Hk). by apply Hmem.
  - intros l Hl Hin.
    destruct (finalized_successors _ _ _ _ _ (op_ptr b) Hnew Hl) as (st0 & Hst0 & _ & Hmem).
    rewrite Hst in Hst0. injection Hst0 as <-.
    apply Hmem in Hin as (s & Hs & Hin). by apply (Hraw s Hs).
Qed.

End Reads.

Section Provenance.
Context {ext : Externals}.
Implicit Types (st : SideEffectAnalysisInfo) (p k x d : positive) (r : Z).

Lemma ordered_in_app alias ops more x k :
  ordered_in alias ops x k -> ordered_in alias (ops ++ more) x k.
Proof.
  intros (l1 & a & l2 & b & l3 & -> & ? & ? & ? & ?).
  exists l1, a, l2, b, (l3 ++ more). split; [|done].
  rewrite <- app_assoc. simpl. by rewrite <- app_assoc.
Qed.

Lemma edge_within_app alias ops more k x :
  edge_within alias ops k x -> edge_within alias (ops ++ more) k x.
Proof.
  intros [ops' k' x' Hord|ops' o child k' x' Ho Hchild Hedge].
  - apply edge_here. by apply ordered_in_app.
  - apply (edge_nested alias _ o child); [|done|done]. apply elem_of_app. by left.
Qed.

Lemma ordered_in_snoc alias done (a o : Operation) :
  a ∈ done -> reaches_resources alias a -> reaches_resources alias o ->
  ordered_in alias (done ++ [o]) (op_ptr a) (op_ptr o).
Proof.
  intros (l1 & l2 & ->)%list_elem_of_split Ha Ho.
  exists l1, a, l2, o, []. split; [|done]. by rewrite <- app_assoc.
Qed.

Lemma walked_ops alias ops :
  Forall (fun o => forall done st st', walked alias done st ->
            AnalyzeOperation alias o st = Some st' -> walked alias (done ++ [o]) st') ops ->
  forall done st st', walked alias done st ->
    foldM (AnalyzeOperation alias) ops st = Some st' -> walked alias (done ++ ops) st'.
Proof.
  induction 1 as [|o ops Ho _ IH]; intros done st st' Hw Hrun; simpl in Hrun.
  - injection Hrun as <-. by rewrite app_nil_r.
  - destruct (AnalyzeOperation alias o st) as [st1|] eqn:Hst1; [|done].
    rewrite (cons_middle o), app_assoc. apply (IH _ st1); [|done]. by apply (Ho done st).
Qed.

Lemma walked_empty alias : walked alias [] empty_info.
Proof.
  split.
  - intros x Hx. by apply tracked_empty in Hx.
  - intros k s x. simpl. by rewrite lookup_empty.
Qed.

Lemma children_entries alias (E : list (list Operation) -> positive -> positive -> Prop)
    regions :
  Forall (fun region => forall child,
            AnalyzeRegion region alias empty_info = Some child ->
            forall k s x, control_predecessors_ child !! k = Some s -> x ∈ s ->
              E region k x) regions ->
  forall st st', AnalyzeChildren alias regions st = Some st' ->
    forall k s x, control_predecessors_ st' !! k = Some s -> x ∈ s ->
      (exists s0, control_predecessors_ st !! k = Some s0 /\ x ∈ s0)
      \/ exists region, region ∈ regions /\ E region k x.
Proof.
  unfold AnalyzeChildren.
  induction 1 as [|region regions Hregion _ IH]; intros st st' Hrun k s x Hk Hx;
    simpl in Hrun.
  - injection Hrun as <-. left. by exists s.
  - destruct (AnalyzeRegion region alias empty_info) as [child|] eqn:Hchild; [|done].
    destruct (IH _ _ Hrun k s x Hk Hx) as [(s0 & Hs0 & Hx0)|(region' & Hin & HE)].
    + rewrite merge_child_predecessors in Hs0.
      destruct (control_predecessors_ child !! k) as [s1|] eqn:Hs1.
      * injection Hs0 as <-. right. exists region. split; [left|].
        by apply (Hregion child eq_refl k s1).
      * left. by exists s0.
    + right. exists region'. split; [by right|done].
Qed.

Lemma walked_op alias (o : Operation) done st st' :
  walked alias done st -> AnalyzeOperation alias o st = Some st' ->
  walked alias (done ++ [o]) st'.
Proof.
  revert done st st'.
  induction o as [ptr name operands results regions IH] using Operation_nested_ind.
  intros done st st' [Htr Hedges] Hrun.
  set (o := MkOperation ptr name operands results regions) in *.
  rewrite AnalyzeOperation_eq in Hrun.
  destruct (AnalyzeChildren alias (getRegions o) st) as [st1|] eqn:Hst1; [|done].
  assert (forall k s x, control_predecessors_ st1 !! k = Some s -> x ∈ s ->
            edge_within alias (done ++ [o]) k x) as Hedges1.
  { intros k s x Hk Hx.
    destruct (children_entries alias (fun region => edge_within alias (concat region))
                regions) with (st := st) (st' := st1) (k := k) (s := s) (x := x)
      as [(s0 & Hs0 & Hx0)|(region & Hin & HE)]; try done.
    - eapply Forall_impl; [exact IH|]. intros region Hregion child Hchild.
      rewrite AnalyzeRegion_concat in Hchild.
      apply (walked_ops alias (concat region) (Forall_nested_concat _ _ Hregion)
               [] empty_info child (walked_empty alias) Hchild).
    - apply edge_within_app. by apply (Hedges k s0).
    - apply (edge_nested alias _ o region); [|done|done]. apply elem_of_app. right. left. }
  apply AnalyzeChildren_spec in Hst1 as [Hper _].
  assert (forall x, tracked st1 x ->
            exists a : Operation, a ∈ done /\ op_ptr a = x /\ reaches_resources alias a)
    as Htr1.
  { intros x Hx. apply Htr. by eapply tracked_access. }
  apply VisitOperation_cases in Hrun as [->|[Hreach ->]].
  - split; [|done]. intros x (a & Ha & ? & ?)%Htr1. exists a. split; [|done].
    apply elem_of_app. by left.
  - destruct (EmitEdges_spec (op_ptr o) (OpResources o alias) (OpIsReadOnly o) st1)
      as (_ & _ & Hcp & Hpreds & Htracked & _).
    split.
    + intros x [(a & Ha & ? & ?)%Htr1| ->]%Htracked.
      * exists a. split; [|done]. apply elem_of_app. by left.
      * exists o. split; [|done]. apply elem_of_app. right. left.
    + intros k s x Hk Hx. destruct (decide (k = op_ptr o)) as [->|Hne].
      * apply (preds_lookup _ _ _ _ Hk), Hpreds in Hx as [Hx|Hx].
        -- apply preds_elem in Hx as (s0 & Hs0 & Hx). by apply (Hedges1 _ s0).
        -- apply Htr1 in Hx as (a & Ha & <- & Hra). apply edge_here.
           by apply ordered_in_snoc.
      * rewrite Hcp in Hk by done. by apply (Hedges1 k s).
Qed.

(** The raw edges of a region walk lie within the region. *)
Lemma raw_edges_within alias region st :
  AnalyzeRegion region alias empty_info = Some st ->
  forall k s x, control_predecessors_ st !! k = Some s -> x ∈ s ->
    edge_within alias (concat region) k x.
Proof.
  intros Hst. rewrite AnalyzeRegion_concat in Hst.
  apply (walked_ops alias (concat region)
           (proj2 (Forall_forall _ _) (fun o _ => walked_op alias o))
           [] empty_info st (walked_empty alias) Hst).
Qed.

(** X8: every edge of the finalized graph, in the predecessor lists and
    in the successor lists, joins two operations of one block list of the
    function, the body or a nested region, both visited as accesses, the
    predecessor coming first. *)
Theorem edges_stay_within_regions func alias info :
  NewSideEffectAnalysisInfo func alias = Some info ->
  (forall k l x, sorted_control_predecessors_ info !! k = Some l -> x ∈ l ->
     edge_within alias (concat (getBody func)) k x)
  /\ (forall x l k, sorted_control_successors_ info !! x = Some l -> k ∈ l ->
        edge_within alias (concat (getBody func)) k x).
Proof.
  intros Hnew. pose proof Hnew as (st & Hst & _)%finalized_graph.
  pose proof (raw_edges_within alias _ st Hst) as Hedges.
  split.
  - intros k l x Hl Hx.
    destruct (finalized_predecessors _ _ _ _ _ x Hnew Hl)
      as (st0 & s & Hst0 & Hk & _ & _ & Hmem).
    rewrite Hst in Hst0. injection Hst0 as <-. apply (Hedges k s); [done|]. by apply Hmem.
  - intros x l k Hl Hk.
    destruct (finalized_successors _ _ _ _ _ k Hnew Hl) as (st0 & Hst0 & _ & Hmem).
    rewrite Hst in Hst0. injection Hst0 as <-.
    apply Hmem in Hk as (s & Hs & Hx). by apply (Hedges k s).
Qed.

(** X9: a nested region is analysed as a scope of its own: the
    finalized predecessors of its operations are those the analysis of the
    region alone, as a function body, computes. *)
Theorem nested_region_is_analysed_alone func alias info region :
  NoDup (ptrs (region_all (getBody func))) ->
  subregion region (getBody func) ->
  NewSideEffectAnalysisInfo func alias = Some info ->
  exists info_r,
    NewSideEffectAnalysisInfo (MkFuncOp region) alias = Some info_r
    /\ forall k, k ∈ ptrs (region_all region) ->
         sorted_control_predecessors_ info !! k
         = sorted_control_predecessors_ info_r !! k.
Proof.
  intros Hnd Hsub Hnew. pose proof Hnew as (st & Hst & Hsp & _)%finalized_graph.
  destruct (region_surfaces _ _ _ Hsub _ Hnd Hst) as (_ & st_r & Hst_r & Hagree).
  destruct (NewSideEffectAnalysisInfo (MkFuncOp region) alias) as [info_r|] eqn:Hr.
  - exists info_r. split; [done|]. intros k Hk.
    apply finalized_graph in Hr as (st_r' & Hst_r' & Hsp_r & _). simpl in Hst_r'.
    rewrite Hst_r in Hst_r'. injection Hst_r' as <-.
    by rewrite Hsp, Hsp_r, Hagree.
  - unfold NewSideEffectAnalysisInfo, AnalyzeFunction in Hr. simpl in Hr.
    by rewrite Hst_r in Hr.
Qed.

End Provenance.

Section Frontier.
Context {ext : Externals}.
Implicit Types (st : SideEffectAnalysisInfo) (p k x d : positive) (r : Z).

Lemma VisitOperation_accesses_inv alias (o : Operation) resources ro st st' :
  accesses alias o resources ro -> VisitOperation alias o st = Some st' ->
  st' = EmitEdges (op_ptr o) resources ro st.
Proof.
  intros ((Hdecl & Hskip) & Hres & Hro). unfold VisitOperation.
  rewrite Hdecl, Hskip, Hres, Hro.
  destruct (bool_decide (resources = ∅)); [done|]. by intros [= <-].
Qed.

Lemma consulted_ext st st' resources :
  per_resource_access_info_ st' = per_resource_access_info_ st ->
  consulted st' resources = consulted st resources.
Proof. unfold consulted. by intros ->. Qed.

(** X10: the finalized predecessors of an access are read off the access
    records as they stand after the operations before it in its region:
    the edges of the consulted records and, when no consulted resource
    tracks the unknown access indirectly, the edges of the record of the
    unknown resource. *)
Theorem predecessors_are_the_frontier func alias info region pre (o : Operation) post
    resources ro st :
  NoDup (ptrs (region_all (getBody func))) ->
  subregion region (getBody func) ->
  concat region = pre ++ o :: post ->
  accesses alias o resources ro ->
  AnalyzeRegion [pre] alias empty_info = Some st ->
  NewSideEffectAnalysisInfo func alias = Some info ->
  forall x,
    (exists l, sorted_control_predecessors_ info !! op_ptr o = Some l /\ x ∈ l) <->
    (exists r, r ∈ consulted st resources
       /\ x ∈ record_edges ro (per_resource_access_info_ st !! r))
    \/ ((forall r, r ∈ consulted st resources ->
           unknown_access_indirectly_tracked_by_resource st r ro = false)
        /\ x ∈ record_edges ro (per_resource_access_info_ st !! kUnknownResourceId)).
Proof.
  intros Hnd Hsub Hops Hacc Hpre Hnew x.
  pose proof Hnew as (stf & Hstf & Hsp & _)%finalized_graph.
  destruct (region_surfaces _ _ _ Hsub _ Hnd Hstf) as (Hndr & st_r & Hst_r & Hagree).
  rewrite AnalyzeRegion_concat, Hops in Hst_r.
  rewrite region_all_concat, Hops in Hndr.
  destruct (walk_visit _ _ _ _ _ Hndr Hst_r)
    as (sa & sb & Hsa & Hsb & _ & Hnone & Hfinal & Hfresh & _).
  rewrite AnalyzeRegion_concat in Hpre. simpl in Hpre. rewrite app_nil_r in Hpre.
  rewrite Hpre in Hsa. injection Hsa as <-.
  rewrite AnalyzeOperation_eq in Hsb.
  destruct (AnalyzeChildren alias (getRegions o) st) as [st1|] eqn:Hst1; [|done].
  apply AnalyzeChildren_spec in Hst1 as (Hper & _ & _ & Hcp & _).
  apply (VisitOperation_accesses_inv _ _ _ _ _ _ Hacc) in Hsb. subst sb.
  destruct (EmitEdges_edges (op_ptr o) resources ro st1) as [Hpreds _].
  assert (preds st1 (op_ptr o) = ∅) as Hempty.
  { apply preds_absent. by rewrite Hcp. }
  assert (op_ptr o ∈ ptrs (region_all region)) as Hin.
  { rewrite region_all_concat, Hops. apply ptrs_sub. apply list_elem_of_fmap_2.
    apply elem_of_app. right. left. }
  rewrite Hsp, Hagree, Hfinal by done.
  transitivity (x ∈ preds (EmitEdges (op_ptr o) resources ro st1) (op_ptr o)).
  { unfold preds.
    destruct (control_predecessors_ (EmitEdges (op_ptr o) resources ro st1) !! op_ptr o)
      as [s|]; simpl.
    - split.
      + intros (l & [= <-] & Hx). by rewrite llvm_sort_elem_of, elem_of_elements in Hx.
      + intros Hx. eexists. split; [done|].
        by rewrite llvm_sort_elem_of, elem_of_elements.
    - split; [by intros (l & ? & _)|set_solver]. }
  rewrite Hpreds, Hempty, (consulted_ext st st1), Hper by done.
  split.
  - intros [?%elem_of_empty|[?|[Hns Hx]]]; [done|by left|].
    right. split; [|done]. intros r Hr.
    rewrite <- (indirectly_tracked_access st st1) by done.
    apply not_true_is_false. intros Hind. apply Hns. exists r. split; [done|].
    by rewrite (indirectly_tracked_access st st1) in Hind |- *.
  - intros [?|[Hall Hx]]; [by right; left|]. right; right. split; [|done].
    intros (r & Hr & Hind).
    rewrite (indirectly_tracked_access st st1) in Hind by done.
    rewrite Hall in Hind; done.
Qed.

End Frontier.

Section QueryProperties.
Context {ext : Externals}.
Implicit Types (st : SideEffectAnalysisInfo) (p k x d : positive) (r : Z).

Lemma collect_passing_filter filter l :
  collect_passing filter l = List.filter (passes filter) l.
Proof.
  unfold collect_passing.
  assert (forall acc, foldl (fun result o => if passes filter o then result ++ [o] else result)
                        acc l = acc ++ List.filter (passes filter) l) as H.
  { induction l as [|y l IH]; intros acc; simpl; [by rewrite app_nil_r|].
    rewrite IH. destruct (passes filter y); [|done]. by rewrite <- app_assoc. }
  apply (H []).
Qed.

Lemma collect_passing_all l : collect_passing None l = l.
Proof.
  rewrite collect_passing_filter. induction l as [|y l IH]; simpl; [done|]. by rewrite IH.
Qed.




(** X11: without a filter, [x] is among the direct control predecessors
    of [k] exactly when [k] is among the direct control successors of
    [x]. *)
Theorem queries_mirror func alias info k x :
  NewSideEffectAnalysisInfo func alias = Some info ->
  x ∈ DirectControlPredecessors info k None <->
  k ∈ DirectControlSuccessors info x None.
Proof.
  intros (st & Hst & Hsp & Hss)%finalized_graph.
  unfold DirectControlPredecessors, DirectControlSuccessors.
  rewrite Hsp. specialize (Hss x).
  destruct (control_predecessors_ st !! k) as [s|] eqn:Hk; simpl.
  - rewrite collect_passing_all, llvm_sort_elem_of, elem_of_elements.
    destruct (sorted_control_successors_ info !! x) as [l|].
    + destruct Hss as (l0 & -> & _ & _ & Hmem).
      rewrite collect_passing_all, llvm_sort_elem_of, Hmem. split.
      * intros Hx. by exists s.
      * intros (s' & Hs' & Hx). congruence.
    + split; [|by intros ?%elem_of_nil]. intros Hx. by destruct (Hss k s Hk).
  - destruct (sorted_control_successors_ info !! x) as [l|];
      [|split; by intros ?%elem_of_nil].
    destruct Hss as (l0 & -> & _ & _ & Hmem).
    rewrite collect_passing_all, llvm_sort_elem_of, Hmem. split.
    + by intros ?%elem_of_nil.
    + intros (s' & Hs' & _). congruence.
Qed.



End QueryProperties.

Section ModuleProperties.
Context {ext : Externals}.

Lemma info_map_loop (A : positive -> ResourceAliasAnalysisInfo)
    (funcs : list (positive * FuncOp)) (m0 : gmap positive SideEffectAnalysisInfo) :
  NoDup funcs.*1 -> (forall p, p ∈ funcs.*1 -> m0 !! p = None) ->
  match foldM (fun (func : positive * FuncOp) info_map =>
                 match info_map !! func.1 with
                 | Some _ => Some info_map
                 | None =>
                     match NewSideEffectAnalysisInfo func.2 (A func.1) with
                     | Some info => Some (<[func.1 := info]> info_map)
                     | None => None
                     end
                 end) funcs m0 with
  | None => exists p f, (p, f) ∈ funcs /\ NewSideEffectAnalysisInfo f (A p) = None
  | Some m =>
      (forall p f, (p, f) ∈ funcs -> m !! p = NewSideEffectAnalysisInfo f (A p))
      /\ (forall p, p ∉ funcs.*1 -> m !! p = m0 !! p)
      /\ (forall p f, (p, f) ∈ funcs -> is_Some (NewSideEffectAnalysisInfo f (A p)))
  end.
Proof.
  revert m0. induction funcs as [|[p f] funcs IH]; intros m0 Hnd Hfresh; simpl.
  - split; [by intros p f ?%elem_of_nil|]. split; [done|]. by intros p f ?%elem_of_nil.
  - simpl in Hnd. apply NoDup_cons in Hnd as [Hp Hnd].
    rewrite (Hfresh p) by left.
    destruct (NewSideEffectAnalysisInfo f (A p)) as [info|] eqn:Hinfo.
    + specialize (IH (<[p := info]> m0) Hnd).
      destruct (foldM _ funcs (<[p := info]> m0)) as [m|].
      * destruct IH as (H1 & H2 & H3).
        { intros p' Hp'. rewrite lookup_insert_ne by (by intros ->). apply Hfresh. by right. }
        split; [|split].
        -- intros p' f' [[= -> ->]|Hin]%elem_of_cons.
           ++ by rewrite H2, lookup_insert_eq, Hinfo.
           ++ by apply H1.
        -- intros p' [Hne Hp']%not_elem_of_cons. rewrite H2 by done.
           by rewrite lookup_insert_ne.
        -- intros p' f' [[= -> ->]|Hin]%elem_of_cons; [by rewrite Hinfo|by apply (H3 p')].
      * destruct IH as (p' & f' & Hin & Hnone).
        { intros p' Hp'. rewrite lookup_insert_ne by (by intros ->). apply Hfresh. by right. }
        exists p', f'. split; [by right|done].
    + exists p, f. split; [left|done].
Qed.

(** X13: on a module whose functions have distinct addresses the
    constructor fails exactly when the analysis of some function fails, and
    otherwise maps the address of every function, and nothing else, to the
    analysis of that function. *)
Theorem SideEffectAnalysis_per_function (module : ModuleOp)
    (A : positive -> ResourceAliasAnalysisInfo) :
  NoDup (getFuncOps module).*1 ->
  match SideEffectAnalysis (Some module) A with
  | None =>
      exists p f, (p, f) ∈ getFuncOps module
        /\ NewSideEffectAnalysisInfo f (A p) = None
  | Some info_map =>
      (forall p f, (p, f) ∈ getFuncOps module ->
         info_map !! p = NewSideEffectAnalysisInfo f (A p)
         /\ is_Some (info_map !! p))
      /\ (forall p, p ∉ (getFuncOps module).*1 -> info_map !! p = None)
  end.
Proof.
  intros Hnd. unfold SideEffectAnalysis.
  pose proof (info_map_loop A (getFuncOps module) ∅ Hnd (fun p _ => lookup_empty p)) as H.
  destruct (foldM _ (getFuncOps module) ∅) as [m|]; [|done].
  destruct H as (H1 & H2 & H3). split.
  - intros p f Hin. rewrite (H1 p f Hin). split; [done|]. by apply (H3 p f).
  - intros p Hp. by rewrite H2.
Qed.

End ModuleProperties.

Section OrderingProperties.
Context {ext : Externals}.
Implicit Types (st : SideEffectAnalysisInfo) (p k x d : positive) (r : Z).
Implicit Types (alias : ResourceAliasAnalysisInfo).

Lemma VisitOperation_exact alias (o : Operation) st st' :
  VisitOperation alias o st = Some st' ->
  (~ reaches_resources alias o /\ st' = st)
  \/ (reaches_resources alias o /\ OpResources o alias <> ∅
      /\ st' = EmitEdges (op_ptr o) (OpResources o alias) (OpIsReadOnly o) st).
Proof.
  unfold VisitOperation, reaches_resources.
  destruct (OpIsDeclaration o alias).
  { intros [= <-]. left. split; [|done]. by intros [? _]. }
  destruct (negb _ && _).
  { intros [= <-]. left. split; [|done]. by intros [_ ?]. }
  case_bool_decide as Hres; [done|]. intros [= <-]. by right.
Qed.

Lemma rtc_raw_edge_mono st st' x y :
  (forall k z, raw_edge st k z -> raw_edge st' k z) ->
  rtc (raw_edge st) x y -> rtc (raw_edge st') x y.
Proof. intros Hsub. by apply rtc_subrel. Qed.

Lemma tc_subrel {A} (R1 R2 : relation A) (a b : A) :
  (forall a' b', R1 a' b' -> R2 a' b') -> tc R1 a b -> tc R2 a b.
Proof.
  intros Hsub. induction 1 as [a b H|a b c H _ IH].
  - apply tc_once. by apply Hsub.
  - eapply tc_l; [by apply Hsub|done].
Qed.

Lemma last_write_covers_mono st st' rec x :
  (forall k z, raw_edge st k z -> raw_edge st' k z) ->
  last_write_covers st rec x -> last_write_covers st' rec x.
Proof.
  intros Hsub (w & Hw & Hrtc). exists w. split; [done|].
  by apply (rtc_raw_edge_mono st).
Qed.

Lemma tracked_iff st x :
  tracked st x <-> exists r, tracked_by st r x.
Proof.
  split.
  - intros (r & rec & Hl & Hx). exists r, rec. done.
  - intros (r & rec & Hl & Hx). exists r, rec. done.
Qed.

(** The invariant only depends on the records and grows with the edges. *)
Lemma sound_state_mono alias done st st' :
  per_resource_access_info_ st' = per_resource_access_info_ st ->
  (forall k z, raw_edge st k z -> raw_edge st' k z) ->
  sound_state alias done st -> sound_state alias done st'.
Proof.
  intros Hper Hsub (Hwf & Hmain & Hdep & Htlur & Hkp).
  unfold sound_state. rewrite Hper. split; [done|]. split; [|split; [|split]].
  - intros a Ha Hreach. destruct (Hmain a Ha Hreach) as [Hb|[Hu|Hk]].
    + left. destruct Hb as (urec & Hurec & Hcov). exists urec. rewrite Hper.
      split; [done|]. by apply (last_write_covers_mono st).
    + right; left. unfold settled. by rewrite Hper.
    + right; right. destruct Hk as (Hnu & Hne & Hall). split; [done|]. split; [done|].
      intros r Hr. destruct (Hall r Hr) as (rec & Hrec & Hcase).
      exists rec. rewrite Hper. split; [done|].
      destruct Hcase as [?|Hcov]; [by left|right].
      by apply (last_write_covers_mono st).
  - intros urec wu Hurec Hwu x Hx. apply (rtc_raw_edge_mono st); [done|].
    apply (Hdep urec wu Hurec Hwu). by apply (tracked_access _ st').
  - intros r rec urec u Hr Hrec Ht Hurec Hu.
    apply (last_write_covers_mono st); [done|]. by apply (Htlur r rec urec u).
  - intros r rec x w Hr Hrec Hx Hw. apply Hsub. by apply (Hkp r rec x w).
Qed.

Lemma sound_state_empty alias : sound_state alias [] empty_info.
Proof.
  unfold sound_state. simpl. split; [|split; [|split; [|split]]].
  - intros r rec. by rewrite lookup_empty.
  - by intros a ?%elem_of_nil.
  - intros urec wu. by rewrite lookup_empty.
  - intros r rec urec u _. by rewrite lookup_empty.
  - intros r rec x w _. by rewrite lookup_empty.
Qed.

Lemma consulted_known st resources r :
  r ∈ consulted st resources -> r <> kUnknownResourceId.
Proof.
  unfold consulted. case_bool_decide as Hu; [set_solver|]. intros Hr ->. done.
Qed.

Lemma EmitEdges_raw_edge_mono p resources ro st k x :
  raw_edge st k x -> raw_edge (EmitEdges p resources ro st) k x.
Proof.
  unfold raw_edge. intros Hx.
  destruct (EmitEdges_edges p resources ro st) as [Hp Hother].
  destruct (decide (k = p)) as [->|Hne].
  - apply Hp. by left.
  - unfold preds. by rewrite Hother.
Qed.

Lemma EmitEdges_links_record p resources ro st r x :
  r ∈ consulted st resources ->
  x ∈ record_edges ro (per_resource_access_info_ st !! r) ->
  raw_edge (EmitEdges p resources ro st) p x.
Proof.
  intros Hr Hx. destruct (EmitEdges_edges p resources ro st) as [Hp _].
  apply Hp. right; left. by exists r.
Qed.

Lemma EmitEdges_links_unknown p resources ro st x :
  (forall r, r ∈ consulted st resources ->
     unknown_access_indirectly_tracked_by_resource st r ro = false) ->
  x ∈ record_edges ro (per_resource_access_info_ st !! kUnknownResourceId) ->
  raw_edge (EmitEdges p resources ro st) p x.
Proof.
  intros Hall Hx. destruct (EmitEdges_edges p resources ro st) as [Hp _].
  apply Hp. right; right. split; [|done].
  intros (r & Hr & Hi). by rewrite Hall in Hi.
Qed.

Lemma skip_or_not st resources ro :
  (exists r, r ∈ consulted st resources
     /\ unknown_access_indirectly_tracked_by_resource st r ro = true)
  \/ (forall r, r ∈ consulted st resources ->
        unknown_access_indirectly_tracked_by_resource st r ro = false).
Proof.
  destruct (decide (set_Exists
    (fun r => unknown_access_indirectly_tracked_by_resource st r ro = true)
    (consulted st resources))) as [(r & Hr & Hi)|Hn].
  - left. by exists r.
  - right. intros r Hr. apply not_true_is_false. intros Hi. apply Hn. by exists r.
Qed.


Lemma consulted_known_set st resources :
  kUnknownResourceId ∉ resources -> consulted st resources = resources.
Proof. unfold consulted. intros Hu. by rewrite bool_decide_eq_false_2. Qed.

Lemma consulted_unknown_set st resources r rec :
  kUnknownResourceId ∈ resources -> r <> kUnknownResourceId ->
  per_resource_access_info_ st !! r = Some rec -> r ∈ consulted st resources.
Proof.
  unfold consulted. intros Hu Hne Hrec. rewrite bool_decide_eq_true_2 by done.
  apply elem_of_difference. split; [by apply elem_of_dom|set_solver].
Qed.

(** The new operation is linked to whatever the last write of a consulted
    record covers. *)
Lemma link_last_write alias done st p resources ro r rec a :
  sound_state alias done st ->
  r ∈ consulted st resources -> per_resource_access_info_ st !! r = Some rec ->
  last_write_covers st rec a ->
  exists x, raw_edge (EmitEdges p resources ro st) p x /\ rtc (raw_edge st) x a.
Proof.
  intros (Hwf & Hmain & Hdep & Htlur & Hkp) Hr Hrec (w & Hw & Hrtc).
  pose proof (consulted_known _ _ _ Hr) as Hne.
  destruct ro.
  - exists w. split; [|done]. apply (EmitEdges_links_record _ _ _ _ r); [done|].
    rewrite Hrec. simpl. rewrite Hw. set_solver.
  - destruct (reads_since_last_write rec) as [|x0 reads] eqn:Hreads.
    + exists w. split; [|done]. apply (EmitEdges_links_record _ _ _ _ r); [done|].
      rewrite Hrec. simpl. rewrite Hw, Hreads. set_solver.
    + exists x0. split.
      * apply (EmitEdges_links_record _ _ _ _ r); [done|].
        rewrite Hrec. simpl. rewrite Hreads. set_solver.
      * eapply rtc_l; [|done].
        apply (Hkp r rec x0 w); [done|done|rewrite Hreads; left|done].
Qed.

(** A write is linked to the reads of a consulted record. *)
Lemma link_read st p resources r rec a :
  r ∈ consulted st resources -> per_resource_access_info_ st !! r = Some rec ->
  a ∈ reads_since_last_write rec ->
  raw_edge (EmitEdges p resources false st) p a.
Proof.
  intros Hr Hrec Ha. apply (EmitEdges_links_record _ _ _ _ r); [done|].
  rewrite Hrec. simpl.
  destruct (reads_since_last_write rec) as [|x0 reads] eqn:Hreads.
  - by apply elem_of_nil in Ha.
  - set_solver.
Qed.

Lemma link_on_record alias done st p resources ro r ro_a a :
  sound_state alias done st ->
  r ∈ consulted st resources -> on_record st ro_a r a ->
  ro_a = false \/ ro = false ->
  exists x, raw_edge (EmitEdges p resources ro st) p x /\ rtc (raw_edge st) x a.
Proof.
  intros Hs Hr (rec & Hrec & [[-> Ha]|Hcov]) Hw.
  - destruct Hw as [?| ->]; [done|]. exists a. split; [|done].
    by apply (link_read _ _ _ r rec).
  - by apply (link_last_write alias done _ _ _ _ r rec).
Qed.

(** A record a flag of which the lambda finds set has an edge to give. *)
Lemma indirectly_tracked_gives_edge alias done st r ro :
  sound_state alias done st ->
  unknown_access_indirectly_tracked_by_resource st r ro = true ->
  exists rec x, per_resource_access_info_ st !! r = Some rec
    /\ x ∈ record_edges ro (Some rec) /\ tracked st x
    /\ (ro = false ->
        tracked_last_unknown_read rec = true
        \/ match per_resource_access_info_ st !! kUnknownResourceId with
           | None => True
           | Some unknown_rec => reads_since_last_write unknown_rec = []
           end).
Proof.
  intros (Hwf & _) Hi. unfold unknown_access_indirectly_tracked_by_resource in Hi.
  destruct (per_resource_access_info_ st !! r) as [rec|] eqn:Hrec; [|done].
  destruct (Hwf r rec Hrec) as (Hfw & Hfr & Htl & Hne).
  exists rec. destruct ro.
  - apply Hfr in Hi as [w Hw]. exists w. split; [done|]. simpl. rewrite Hw.
    split; [set_solver|]. split; [|done]. exists r, rec. split; [done|by left].
  - destruct (reads_since_last_write rec) as [|x0 reads] eqn:Hreads.
    + destruct Hne as [[w Hw]|?]; [|done]. exists w. split; [done|].
      simpl. rewrite Hw, Hreads. split; [set_solver|].
      split; [exists r, rec; split; [done|by left]|].
      intros _. apply andb_prop in Hi as [_ Hi]. apply orb_prop in Hi as [?|Hi]; [by left|].
      right. destruct (per_resource_access_info_ st !! kUnknownResourceId); [|done].
      by apply bool_decide_eq_true in Hi.
    + exists x0. split; [done|]. simpl. rewrite Hreads. split; [set_solver|].
      split; [exists r, rec; split; [done|right; rewrite Hreads; left]|].
      intros _. apply andb_prop in Hi as [_ Hi]. apply orb_prop in Hi as [?|Hi]; [by left|].
      right. destruct (per_resource_access_info_ st !! kUnknownResourceId); [|done].
      by apply bool_decide_eq_true in Hi.
Qed.

(** The new operation is linked to the last unknown write. *)
Lemma link_barrier alias done st p resources ro unknown_rec wu :
  sound_state alias done st ->
  per_resource_access_info_ st !! kUnknownResourceId = Some unknown_rec ->
  last_write unknown_rec = Some wu ->
  exists x, raw_edge (EmitEdges p resources ro st) p x /\ rtc (raw_edge st) x wu.
Proof.
  intros Hs Hurec Hwu. pose proof Hs as (Hwf & Hmain & Hdep & Htlur & Hkp).
  destruct (skip_or_not st resources ro) as [(r & Hr & Hi)|Hall].
  - destruct (indirectly_tracked_gives_edge alias done st r ro Hs Hi)
      as (rec & x & Hrec & Hx & Htr & _).
    exists x. split; [|by apply (Hdep unknown_rec wu)].
    apply (EmitEdges_links_record _ _ _ _ r); [done|]. by rewrite Hrec.
  - assert (exists x, x ∈ record_edges ro (Some unknown_rec) /\ rtc (raw_edge st) x wu)
      as (x & Hx & Hrtc).
    { destruct ro; simpl; rewrite Hwu.
      - exists wu. split; [set_solver|done].
      - destruct (reads_since_last_write unknown_rec) as [|x0 reads] eqn:Hreads.
        + exists wu. split; [set_solver|done].
        + exists x0. split; [set_solver|]. apply (Hdep unknown_rec wu Hurec Hwu).
          exists kUnknownResourceId, unknown_rec. split; [done|]. right.
          rewrite Hreads. left. }
    exists x. split; [|done]. apply EmitEdges_links_unknown; [done|]. by rewrite Hurec.
Qed.

(** A write is linked to every unknown read since the last unknown write. *)
Lemma link_unknown_read alias done st p resources unknown_rec u :
  sound_state alias done st ->
  per_resource_access_info_ st !! kUnknownResourceId = Some unknown_rec ->
  u ∈ reads_since_last_write unknown_rec ->
  exists x, raw_edge (EmitEdges p resources false st) p x /\ rtc (raw_edge st) x u.
Proof.
  intros Hs Hurec Hu. pose proof Hs as (Hwf & Hmain & Hdep & Htlur & Hkp).
  destruct (skip_or_not st resources false) as [(r & Hr & Hi)|Hall].
  - destruct (indirectly_tracked_gives_edge alias done st r false Hs Hi)
      as (rec & x & Hrec & Hx & Htr & Hflag).
    destruct (Hflag eq_refl) as [Ht|Hnone].
    + apply (link_last_write alias done _ _ _ _ r rec); [done..|].
      apply (Htlur r rec unknown_rec u); [|done..]. by apply (consulted_known st resources).
    + rewrite Hurec in Hnone. rewrite Hnone in Hu. by apply elem_of_nil in Hu.
  - exists u. split; [|done]. apply EmitEdges_links_unknown; [done|].
    rewrite Hurec. simpl.
    destruct (reads_since_last_write unknown_rec) as [|x0 reads] eqn:Hreads.
    + by apply elem_of_nil in Hu.
    + set_solver.
Qed.

(** The new operation is linked to every earlier access it conflicts with. *)
Lemma link_settled alias done st p resources ro (a : Operation) :
  sound_state alias done st -> settled alias st a ->
  conflict (OpResources a alias) (OpIsReadOnly a) resources ro ->
  exists x, raw_edge (EmitEdges p resources ro st) p x
    /\ rtc (raw_edge st) x (op_ptr a).
Proof.
  intros Hs Hset [Hw Hshare].
  destruct Hset as [(urec & Hurec & wu & Hwu & Hrtc)|[(Hu & Hro & urec & Hurec & Hin)|Hk]].
  - destruct (link_barrier alias done st p resources ro urec wu Hs Hurec Hwu)
      as (x & Hx & Hxw).
    exists x. split; [done|]. by etransitivity.
  - destruct Hw as [Hw| ->]; [congruence|].
    by apply (link_unknown_read alias done _ _ _ urec).
  - destruct Hk as (Hnu & Hne & Hall).
    destruct Hshare as [?|[Hu|(r & Hra & Hrb)]]; [done| |].
    + apply set_choose_L in Hne as [r Hr].
      destruct (Hall r Hr) as (rec & Hrec & Hcase).
      apply (link_on_record alias done _ _ _ _ r (OpIsReadOnly a)); [done| | |done].
      * apply (consulted_unknown_set _ _ _ rec); [done| |done]. by intros ->.
      * by exists rec.
    + destruct (decide (kUnknownResourceId ∈ resources)) as [Hu|Hu].
      * destruct (Hall r Hra) as (rec & Hrec & Hcase).
        apply (link_on_record alias done _ _ _ _ r (OpIsReadOnly a)); [done| | |done].
        -- apply (consulted_unknown_set _ _ _ rec); [done| |done]. by intros ->.
        -- by exists rec.
      * apply (link_on_record alias done _ _ _ _ r (OpIsReadOnly a)); [done| | |done].
        -- by rewrite consulted_known_set.
        -- by apply Hall.
Qed.


Lemma EmitEdges_record_wf p resources ro st :
  (forall r rec, per_resource_access_info_ st !! r = Some rec -> record_wf rec) ->
  forall r rec,
    per_resource_access_info_ (EmitEdges p resources ro st) !! r = Some rec ->
    record_wf rec.
Proof.
  intros Hwf.
  apply (EmitEdges_access_invariant
           (fun per => forall r rec, per !! r = Some rec -> record_wf rec)); [|done].
  intros r st0 H0. by apply TrackAccess_record_wf.
Qed.

Lemma link_tc st st' p x a :
  (forall k z, raw_edge st k z -> raw_edge st' k z) ->
  raw_edge st' p x -> rtc (raw_edge st) x a -> tc (raw_edge st') p a.
Proof.
  intros Hsub Hx Hrtc. eapply tc_rtc_r; [by apply tc_once|].
  by apply (rtc_raw_edge_mono st).
Qed.

Lemma link_rtc st st' p x a :
  (forall k z, raw_edge st k z -> raw_edge st' k z) ->
  raw_edge st' p x -> rtc (raw_edge st) x a -> rtc (raw_edge st') p a.
Proof. intros. apply tc_rtc. by apply (link_tc st st' p x a). Qed.

(** An unknown write leaves a state in which it covers everything. *)
Lemma sound_state_unknown_write alias done st (o : Operation) :
  sound_state alias done st -> reaches_resources alias o ->
  kUnknownResourceId ∈ OpResources o alias -> OpIsReadOnly o = false ->
  sound_state alias (done ++ [o])
    (EmitEdges (op_ptr o) (OpResources o alias) (OpIsReadOnly o) st).
Proof.
  intros Hs Hreach Hu Hro. pose proof Hs as (Hwf & Hmain & Hdep & Htlur & Hkp).
  set (p := op_ptr o). set (res := OpResources o alias).
  set (st' := EmitEdges p res (OpIsReadOnly o) st).
  assert (forall k z, raw_edge st k z -> raw_edge st' k z) as Hsub.
  { intros k z. apply EmitEdges_raw_edge_mono. }
  assert (per_resource_access_info_ st'
          = <[kUnknownResourceId := MkAccessInfo (Some p) [] true true true]> ∅) as Hper.
  { destruct (EmitEdges_records p res (OpIsReadOnly o) st) as [Hrec _].
    unfold st'. rewrite (Hrec Hu), Hro. unfold TrackAccess. simpl.
    by rewrite decide_True. }
  split; [by apply EmitEdges_record_wf|]. rewrite Hper.
  split; [|split; [|split]].
  - intros a Ha Hra. left. eexists. rewrite Hper, lookup_insert_eq. split; [done|].
    exists p. split; [done|].
    apply elem_of_app in Ha as [Ha| ->%list_elem_of_singleton]; [|done].
    destruct (link_settled alias done st p res (OpIsReadOnly o) a Hs (Hmain a Ha Hra))
      as (x & Hx & Hrtc).
    { split; [by right|]. right; by left. }
    by apply (link_rtc st st' p x).
  - intros urec wu [[_ <-]|[? _]]%lookup_insert_Some; [|done].
    simpl. intros [= <-] x (r & rec & Hl & Hx). rewrite Hper in Hl.
    apply lookup_insert_Some in Hl as [[_ <-]|[_ ?%lookup_empty_Some]]; [|done].
    simpl in Hx. destruct Hx as [[= <-]|?%elem_of_nil]; done.
  - intros r rec urec u Hr. rewrite lookup_insert_ne, lookup_empty by done. done.
  - intros r rec x w Hr. rewrite lookup_insert_ne, lookup_empty by done. done.
Qed.


(** An unknown read joins the reads of the unknown record. *)
Lemma sound_state_unknown_read alias done st (o : Operation) :
  sound_state alias done st -> reaches_resources alias o ->
  kUnknownResourceId ∈ OpResources o alias -> OpIsReadOnly o = true ->
  sound_state alias (done ++ [o])
    (EmitEdges (op_ptr o) (OpResources o alias) (OpIsReadOnly o) st).
Proof.
  intros Hs Hreach Hu Hro. pose proof Hs as (Hwf & Hmain & Hdep & Htlur & Hkp).
  set (p := op_ptr o). set (res := OpResources o alias).
  set (st' := EmitEdges p res (OpIsReadOnly o) st).
  set (per := per_resource_access_info_ st).
  assert (forall k z, raw_edge st k z -> raw_edge st' k z) as Hsub.
  { intros k z. apply EmitEdges_raw_edge_mono. }
  assert (per_resource_access_info_ st' !! kUnknownResourceId
          = Some (track_record true p (clear_unknown_read <$> per !! kUnknownResourceId)))
    as HperU.
  { destruct (EmitEdges_records p res (OpIsReadOnly o) st) as [Hrec _].
    unfold st'. rewrite (Hrec Hu), Hro. unfold TrackAccess. simpl.
    rewrite decide_True by done. by rewrite lookup_insert_eq, lookup_fmap. }
  assert (forall r, r <> kUnknownResourceId ->
            per_resource_access_info_ st' !! r = clear_unknown_read <$> per !! r)
    as HperK.
  { intros r Hr.
    destruct (EmitEdges_records p res (OpIsReadOnly o) st) as [Hrec _].
    unfold st'. rewrite (Hrec Hu), Hro. unfold TrackAccess. simpl.
    rewrite decide_True by done. by rewrite lookup_insert_ne, lookup_fmap. }
  split; [by apply EmitEdges_record_wf|].
  split; [|split; [|split]].
  - intros a Ha Hra.
    apply elem_of_app in Ha as [Ha| ->%list_elem_of_singleton].
    + destruct (Hmain a Ha Hra)
        as [(urec & Hurec & w & Hw & Hrtc)|[(HaU & Haro & urec & Hurec & Hin)|Hk]].
      * left. eexists. split; [exact HperU|]. exists w. unfold per. rewrite Hurec.
        split; [done|]. by apply (rtc_raw_edge_mono st).
      * right; left. split; [done|]. split; [done|]. eexists. split; [exact HperU|].
        unfold per. rewrite Hurec. simpl. apply elem_of_app. by left.
      * right; right. destruct Hk as (Hnu & Hne & Hall). split; [done|]. split; [done|].
        intros r Hr. destruct (Hall r Hr) as (rec & Hrec & Hcase).
        exists (clear_unknown_read rec). rewrite HperK by (by intros ->).
        unfold per. rewrite Hrec. split; [done|].
        destruct Hcase as [?|Hcov]; [by left|right].
        by apply (last_write_covers_mono st).
    + right; left. split; [done|]. split; [done|]. eexists. split; [exact HperU|].
      simpl. apply elem_of_app. right. left.
  - intros urec' wu. rewrite HperU. intros [= <-]. simpl. intros Hwu x Hx.
    destruct (per !! kUnknownResourceId) as [urec|] eqn:Hurec; [|done].
    simpl in Hwu.
    destruct Hx as (r & rec & Hl & Hx).
    destruct (decide (r = kUnknownResourceId)) as [->|Hr].
    + rewrite HperU in Hl. injection Hl as <-. simpl in Hx.
      assert (last_write urec = Some x \/ x ∈ reads_since_last_write urec \/ x = p)
        as [Hx'|[Hx'| ->]].
      { destruct Hx as [?|[?| ->%list_elem_of_singleton]%elem_of_app]; auto. }
      * apply (rtc_raw_edge_mono st); [done|]. apply (Hdep urec wu Hurec Hwu).
        exists kUnknownResourceId, urec. split; [done|by left].
      * apply (rtc_raw_edge_mono st); [done|]. apply (Hdep urec wu Hurec Hwu).
        exists kUnknownResourceId, urec. split; [done|by right].
      * destruct (link_barrier alias done st p res (OpIsReadOnly o) urec wu Hs Hurec Hwu)
          as (y & Hy & Hrtc).
        by apply (link_rtc st st' p y).
    + rewrite HperK in Hl by done.
      destruct (per !! r) as [rec0|] eqn:Hrec0; [|done]. injection Hl as <-.
      apply (rtc_raw_edge_mono st); [done|]. apply (Hdep urec wu Hurec Hwu).
      exists r, rec0. done.
  - intros r rec urec u Hr. rewrite HperK by done.
    destruct (per !! r) as [rec0|]; [|done]. by intros [= <-].
  - intros r rec x w Hr. rewrite HperK by done.
    destruct (per !! r) as [rec0|] eqn:Hrec0; [|done]. intros [= <-] Hx Hw.
    apply Hsub. by apply (Hkp r rec0).
Qed.

(** An access to known resources updates their records only. *)
Lemma sound_state_known alias done st (o : Operation) :
  sound_state alias done st -> reaches_resources alias o ->
  kUnknownResourceId ∉ OpResources o alias -> OpResources o alias <> ∅ ->
  sound_state alias (done ++ [o])
    (EmitEdges (op_ptr o) (OpResources o alias) (OpIsReadOnly o) st).
Proof.
  intros Hs Hreach Hu Hne. pose proof Hs as (Hwf & Hmain & Hdep & Htlur & Hkp).
  set (p := op_ptr o). set (res := OpResources o alias). set (ro := OpIsReadOnly o).
  set (st' := EmitEdges p res ro st).
  set (per := per_resource_access_info_ st).
  assert (forall k z, raw_edge st k z -> raw_edge st' k z) as Hsub.
  { intros k z. apply EmitEdges_raw_edge_mono. }
  destruct (EmitEdges_records p res ro st) as [_ Hrec].
  destruct (Hrec Hu) as [Hin Hout]. clear Hrec.
  fold st' per in Hin, Hout.
  assert (per_resource_access_info_ st' !! kUnknownResourceId
          = per !! kUnknownResourceId) as HperU by (by apply Hout).
  assert (consulted st res = res) as Hcons by (by apply consulted_known_set).
  split; [by apply EmitEdges_record_wf|].
  split; [|split; [|split]].
  - intros a Ha Hra.
    apply elem_of_app in Ha as [Ha| ->%list_elem_of_singleton].
    + destruct (Hmain a Ha Hra)
        as [(urec & Hurec & Hcov)|[(HaU & Haro & urec & Hurec & Hain)|Hk]].
      * left. exists urec. rewrite HperU. split; [done|].
        by apply (last_write_covers_mono st).
      * right; left. split; [done|]. split; [done|]. exists urec. by rewrite HperU.
      * right; right. destruct Hk as (Hnu & Hnea & Hall). split; [done|]. split; [done|].
        intros r Hr. pose proof (Hall r Hr) as Hon.
        destruct (decide (r ∈ res)) as [Hrr|Hrr].
        -- pose proof Hon as (rec & Hrec & Hcase).
           eexists. split; [by apply Hin|]. unfold per. rewrite Hrec.
           destruct ro eqn:Hro; simpl.
           ++ destruct Hcase as [[? ?]|Hcov].
              ** left. split; [done|]. apply elem_of_app. by left.
              ** right. destruct Hcov as (w & Hw & Hrtc). exists w. split; [done|].
                 by apply (rtc_raw_edge_mono st).
           ++ right. exists p. split; [done|].
              destruct (link_on_record alias done st p res false r (OpIsReadOnly a)
                          (op_ptr a) Hs) as (y & Hy & Hrtc); [by rewrite Hcons|done|by right|].
              by apply (link_rtc st st' p y).
        -- destruct Hon as (rec & Hrec & Hcase). exists rec. rewrite Hout by done.
           split; [done|]. destruct Hcase as [?|Hcov]; [by left|right].
           by apply (last_write_covers_mono st).
    + right; right. split; [done|]. split; [done|]. intros r Hr.
      eexists. split; [by apply Hin|]. fold ro. destruct ro; simpl.
      * left. split; [done|]. apply elem_of_app. right. left.
      * right. by exists p.
  - intros urec wu. rewrite HperU. intros Hurec Hwu x (r & rec & Hl & Hx).
    assert (tracked st x \/ x = p) as [Hx'| ->].
    { destruct (decide (r ∈ res)) as [Hrr|Hrr].
      - rewrite Hin in Hl by done. injection Hl as <-.
        destruct ro; simpl in Hx.
        + destruct (per !! r) as [rec0|] eqn:Hrec0; simpl in Hx.
          * destruct Hx as [?|[?| ->%list_elem_of_singleton]%elem_of_app]; [| |by right].
            -- left. exists r, rec0. split; [done|by left].
            -- left. exists r, rec0. split; [done|by right].
          * destruct Hx as [?| ->%list_elem_of_singleton]; [done|by right].
        + destruct Hx as [[= <-]|?%elem_of_nil]; [by right|done].
      - rewrite Hout in Hl by done. left. by exists r, rec. }
    + apply (rtc_raw_edge_mono st); [done|]. by apply (Hdep urec wu).
    + destruct (link_barrier alias done st p res ro urec wu Hs Hurec Hwu)
        as (y & Hy & Hrtc).
      by apply (link_rtc st st' p y).
  - intros r rec urec u Hr Hl Ht. rewrite HperU. intros Hurec Hin_u.
    destruct (decide (r ∈ res)) as [Hrr|Hrr].
    + rewrite Hin in Hl by done. injection Hl as <-.
      destruct ro eqn:Hro; simpl in Ht |- *.
      * destruct (per !! r) as [rec0|] eqn:Hrec0; [|done]. simpl in Ht.
        destruct (Htlur r rec0 urec u Hr Hrec0 Ht Hurec Hin_u) as (w & Hw & Hrtc).
        exists w. split; [done|]. by apply (rtc_raw_edge_mono st).
      * exists p. split; [done|].
        destruct (link_unknown_read alias done st p res urec u Hs Hurec Hin_u)
          as (y & Hy & Hrtc).
        by apply (link_rtc st st' p y).
    + rewrite Hout in Hl by done.
      apply (last_write_covers_mono st); [done|]. by apply (Htlur r rec urec u).
  - intros r rec x w Hr Hl Hx Hw.
    destruct (decide (r ∈ res)) as [Hrr|Hrr].
    + rewrite Hin in Hl by done. injection Hl as <-.
      destruct ro eqn:Hro; simpl in Hx, Hw.
      * destruct (per !! r) as [rec0|] eqn:Hrec0; [|done]. simpl in Hx, Hw.
        apply elem_of_app in Hx as [Hx| ->%list_elem_of_singleton].
        -- apply Hsub. by apply (Hkp r rec0).
        -- apply (EmitEdges_links_record _ _ _ _ r); [by rewrite Hcons|].
           fold per. rewrite Hrec0. simpl. rewrite Hw. set_solver.
      * by apply elem_of_nil in Hx.
    + rewrite Hout in Hl by done. apply Hsub. by apply (Hkp r rec).
Qed.

(** The step of the invariant at an operation that is visited as an access. *)
Lemma sound_state_emit alias done st (o : Operation) :
  sound_state alias done st -> reaches_resources alias o ->
  OpResources o alias <> ∅ ->
  sound_state alias (done ++ [o])
    (EmitEdges (op_ptr o) (OpResources o alias) (OpIsReadOnly o) st).
Proof.
  intros Hs Hreach Hne.
  destruct (decide (kUnknownResourceId ∈ OpResources o alias)) as [Hu|Hu].
  - destruct (OpIsReadOnly o) eqn:Hro.
    + rewrite <- Hro. by apply sound_state_unknown_read.
    + rewrite <- Hro. by apply sound_state_unknown_write.
  - by apply sound_state_known.
Qed.

Lemma sound_state_skip alias done st (o : Operation) :
  sound_state alias done st -> ~ reaches_resources alias o ->
  sound_state alias (done ++ [o]) st.
Proof.
  intros (Hwf & Hmain & Hrest) Hno. split; [done|]. split; [|done].
  intros a [Ha| ->%list_elem_of_singleton]%elem_of_app Hra; [by apply Hmain|done].
Qed.


Lemma raw_edge_entry st k x :
  raw_edge st k x <-> exists s, control_predecessors_ st !! k = Some s /\ x ∈ s.
Proof.
  unfold raw_edge, preds. destruct (control_predecessors_ st !! k) as [s|]; simpl.
  - split; [intros ?; by exists s|by intros (? & [= <-] & ?)].
  - split; [by intros ?%elem_of_empty|by intros (? & ? & _)].
Qed.

Lemma snoc_split_pair {A} (done : list A) (o : A) l1 (a : A) l2 (b : A) l3 :
  done ++ [o] = l1 ++ a :: l2 ++ b :: l3 ->
  (done = l1 ++ a :: l2 /\ o = b /\ l3 = [])
  \/ (exists l3', done = l1 ++ a :: l2 ++ b :: l3').
Proof.
  destruct l3 as [|z l3 _] using rev_ind; intros Heq.
  - left. change (l1 ++ a :: l2 ++ [b]) with (l1 ++ (a :: l2) ++ [b]) in Heq.
    rewrite app_assoc in Heq. by apply app_inj_tail in Heq as [-> ->].
  - right. exists l3.
    assert (l1 ++ a :: l2 ++ b :: l3 ++ [z] = (l1 ++ a :: l2 ++ b :: l3) ++ [z]) as Hre.
    { rewrite <- app_assoc. simpl. by rewrite <- app_assoc. }
    rewrite Hre in Heq. by apply app_inj_tail in Heq as [-> _].
Qed.

(** The walk of a list of operations from the empty state keeps the
    invariant and orders every two conflicting accesses of the list. *)
Lemma walk_sound alias done :
  forall st, NoDup (ptrs (ops_all done)) ->
    foldM (AnalyzeOperation alias) done empty_info = Some st ->
    sound_state alias done st
    /\ (forall l1 (a : Operation) l2 (b : Operation) l3,
          done = l1 ++ a :: l2 ++ b :: l3 ->
          reaches_resources alias a -> reaches_resources alias b ->
          conflict (OpResources a alias) (OpIsReadOnly a)
                   (OpResources b alias) (OpIsReadOnly b) ->
          tc (raw_edge st) (op_ptr b) (op_ptr a)).
Proof.
  induction done as [|o done IH] using rev_ind; intros st Hnd Hrun.
  - injection Hrun as <-. split; [apply sound_state_empty|].
    intros l1 a l2 b l3 Heq. by destruct l1.
  - rewrite foldM_app in Hrun.
    destruct (foldM (AnalyzeOperation alias) done empty_info) as [st0|] eqn:Hst0; [|done].
    simpl in Hrun.
    destruct (AnalyzeOperation alias o st0) as [st'|] eqn:Hop; [|done].
    injection Hrun as <-.
    rewrite ops_all_app, ptrs_app in Hnd. apply NoDup_app in Hnd as (Hnd0 & Hdisj & Hndo).
    destruct (IH st0 Hnd0 eq_refl) as [Hs0 Hc0].
    rewrite AnalyzeOperation_eq in Hop.
    destruct (AnalyzeChildren alias (getRegions o) st0) as [st1|] eqn:Hst1; [|done].
    apply AnalyzeChildren_spec in Hst1 as (Hper & _ & _ & Hcp & _).
    assert (forall k z, raw_edge st0 k z -> raw_edge st1 k z) as Hsub01.
    { intros k z (s & Hk & Hz)%raw_edge_entry. apply raw_edge_entry. exists s.
      split; [|done]. rewrite Hcp; [done|]. intros Hin.
      assert (k ∈ ptrs (ops_all done)) as Hkd.
      { destruct (decide (k ∈ ptrs (ops_all done))) as [?|Hno]; [done|].
        apply footprint_walk in Hst0 as (_ & _ & Hframe & _).
        rewrite Hframe in Hk by done. simpl in Hk. by rewrite lookup_empty in Hk. }
      apply (Hdisj k Hkd). rewrite ops_all_cons, sub_ops_eq. simpl.
      rewrite app_nil_r. right. exact Hin. }
    assert (sound_state alias done st1) as Hs1.
    { by apply (sound_state_mono alias done st0). }
    apply VisitOperation_exact in Hop as [[Hno ->]|(Hreach & Hne & ->)].
    + split; [by apply sound_state_skip|].
      intros l1 a l2 b l3 Heq Hra Hrb Hconf.
      apply snoc_split_pair in Heq as [(_ & -> & _)|(l3' & ->)]; [done|].
      apply (tc_subrel (raw_edge st0)); [done|]. by apply (Hc0 l1 a l2 b l3').
    + split; [by apply sound_state_emit|].
      intros l1 a l2 b l3 Heq Hra Hrb Hconf.
      apply snoc_split_pair in Heq as [(-> & -> & _)|(l3' & ->)].
      * destruct Hs1 as (Hwf & Hmain & Hrest).
        assert (a ∈ l1 ++ a :: l2) as Ha by (apply elem_of_app; right; left).
        destruct (link_settled alias (l1 ++ a :: l2) st1 (op_ptr b)
                    (OpResources b alias) (OpIsReadOnly b) a
                    (conj Hwf (conj Hmain Hrest)) (Hmain a Ha Hra) Hconf)
          as (x & Hx & Hrtc).
        apply (link_tc st1 _ _ x); [|done..].
        intros k z. apply EmitEdges_raw_edge_mono.
      * apply (tc_subrel (raw_edge st0)).
        { intros k y Hk. apply EmitEdges_raw_edge_mono. by apply Hsub01. }
        by apply (Hc0 l1 a l2 b l3').
Qed.

(** X14: in a function whose operations have distinct addresses, two
    accesses of one region that conflict (one of them writes, and they share
    a resource or one of them is to the unknown resource) are ordered: a
    chain of predecessor edges of the finalized graph leads from the later
    one to the earlier one. *)
Theorem conflicting_accesses_are_ordered func alias info region
    l1 (a : Operation) l2 (b : Operation) l3 resources_a ro_a resources_b ro_b :
  NoDup (ptrs (region_all (getBody func))) ->
  subregion region (getBody func) ->
  concat region = l1 ++ a :: l2 ++ b :: l3 ->
  accesses alias a resources_a ro_a ->
  accesses alias b resources_b ro_b ->
  conflict resources_a ro_a resources_b ro_b ->
  NewSideEffectAnalysisInfo func alias = Some info ->
  depends_on info (op_ptr b) (op_ptr a).
Proof.
  intros Hnd Hsub Hops (Hra & <- & <-) (Hrb & <- & <-) Hconf Hnew.
  pose proof Hnew as (stf & Hstf & Hsp & _)%finalized_graph.
  destruct (region_surfaces _ _ _ Hsub _ Hnd Hstf) as (Hndr & st_r & Hst_r & Hagree).
  pose proof Hst_r as Hfoot%footprint_region.
  rewrite AnalyzeRegion_concat in Hst_r. rewrite region_all_concat in Hndr.
  destruct (walk_sound alias (concat region) st_r Hndr Hst_r) as [_ Hord].
  apply (tc_subrel (raw_edge st_r)); [|by apply (Hord l1 a l2 b l3)].
  intros k x (s & Hk & Hx)%raw_edge_entry.
  assert (k ∈ ptrs (region_all region)) as Hin.
  { destruct (decide (k ∈ ptrs (region_all region))) as [?|Hno]; [done|].
    destruct Hfoot as (_ & _ & Hframe & _).
    rewrite Hframe in Hk by done. simpl in Hk. by rewrite lookup_empty in Hk. }
  exists (llvm_sort isBeforeInBlock (elements s)).
  rewrite Hsp, Hagree, Hk by done. split; [done|].
  by rewrite llvm_sort_elem_of, elem_of_elements.
Qed.

End OrderingProperties.

Section ProgramOrderProperties.
Context {ext : Externals}.
Implicit Types (st : SideEffectAnalysisInfo) (p k x d : positive) (r : Z).
Implicit Types (alias : ResourceAliasAnalysisInfo).

Lemma earlier_embed (pre m post : list positive) x k :
  earlier m x k -> earlier (pre ++ m ++ post) x k.
Proof.
  intros (i & j & Hlt & Hi & Hj).
  exists (length pre + i)%nat, (length pre + j)%nat. split; [lia|].
  split.
  - rewrite lookup_app_r by lia. replace (length pre + i - length pre)%nat with i by lia.
    by apply lookup_app_l_Some.
  - rewrite lookup_app_r by lia. replace (length pre + j - length pre)%nat with j by lia.
    by apply lookup_app_l_Some.
Qed.

Lemma earlier_here (P1 A P2 B : list positive) x k :
  earlier (P1 ++ (x :: A) ++ P2 ++ k :: B) x k.
Proof.
  exists (length P1), (length (P1 ++ (x :: A) ++ P2)). split; [|split].
  - rewrite !length_app. simpl. lia.
  - by apply list_lookup_middle.
  - rewrite !app_assoc. rewrite <- (app_assoc P1). by apply list_lookup_middle.
Qed.

Lemma earlier_trans (l : list positive) x y z :
  NoDup l -> earlier l x y -> earlier l y z -> earlier l x z.
Proof.
  intros Hnd (i & j & Hij & Hi & Hj) (j' & k & Hjk & Hj' & Hk).
  pose proof (NoDup_lookup l j j' y Hnd Hj Hj') as ->.
  exists i, k. split; [lia|done].
Qed.

Lemma earlier_ne (l : list positive) x k : NoDup l -> earlier l x k -> x <> k.
Proof.
  intros Hnd (i & j & Hij & Hi & Hj) ->.
  pose proof (NoDup_lookup l i j k Hnd Hi Hj). lia.
Qed.

Lemma ordered_in_earlier alias ops x k :
  ordered_in alias ops x k -> earlier (ptrs (ops_all ops)) x k.
Proof.
  intros (l1 & a & l2 & b & l3 & -> & <- & <- & _).
  rewrite ops_all_app, ops_all_cons, ops_all_app, ops_all_cons, !ptrs_app.
  rewrite (sub_ops_eq a), (sub_ops_eq b). simpl.
  apply (earlier_here _ _ _ _ (op_ptr a) (op_ptr b)).
Qed.

Lemma edge_within_earlier alias ops k x :
  edge_within alias ops k x -> earlier (ptrs (ops_all ops)) x k.
Proof.
  induction 1 as [ops k x Hord|ops o child k x Ho Hchild _ IH].
  - by apply (ordered_in_earlier alias).
  - apply list_elem_of_split in Ho as (l1 & l2 & ->).
    apply list_elem_of_split in Hchild as (c1 & c2 & Hregions).
    assert (ptrs (ops_all (l1 ++ o :: l2))
            = (ptrs (ops_all l1) ++ op_ptr o :: ptrs (regions_all c1))
              ++ ptrs (ops_all (concat child))
              ++ (ptrs (regions_all c2) ++ ptrs (ops_all l2))) as ->.
    { rewrite ops_all_app, ops_all_cons, sub_ops_eq, Hregions.
      rewrite regions_all_app, regions_all_cons. unfold ptrs.
      rewrite !map_app. simpl. rewrite !map_app, <- !app_assoc. done. }
    apply earlier_embed, IH.
Qed.

(** X15: in a function whose operations have distinct addresses, an
    operation depends only on operations that come earlier in the function;
    the finalized graph has no cycle. *)
Theorem dependencies_follow_program_order func alias info k x :
  NoDup (ptrs (region_all (getBody func))) ->
  NewSideEffectAnalysisInfo func alias = Some info ->
  depends_on info k x ->
  earlier (ptrs (region_all (getBody func))) x k /\ x <> k.
Proof.
  intros Hnd Hnew Hdep. pose proof Hnew as (st & Hst & Hsp & _)%finalized_graph.
  assert (earlier (ptrs (region_all (getBody func))) x k) as Hearlier.
  { induction Hdep as [k x (l & Hl & Hx)|k y x (l & Hl & Hy) _ IH].
    - rewrite Hsp in Hl.
      destruct (control_predecessors_ st !! k) as [s|] eqn:Hk; [|done].
      injection Hl as <-. rewrite llvm_sort_elem_of, elem_of_elements in Hx.
      rewrite region_all_concat. apply (edge_within_earlier alias).
      by apply (raw_edges_within alias _ st Hst k s).
    - apply (earlier_trans _ x y k); [done..|].
      rewrite Hsp in Hl.
      destruct (control_predecessors_ st !! k) as [s|] eqn:Hk; [|done].
      injection Hl as <-. rewrite llvm_sort_elem_of, elem_of_elements in Hy.
      rewrite region_all_concat. apply (edge_within_earlier alias).
      by apply (raw_edges_within alias _ st Hst k s). }
  split; [done|]. by apply (earlier_ne _ _ _ Hnd).
Qed.

End ProgramOrderProperties.

Section FailureProperties.
Context {ext : Externals}.
Implicit Types (st : SideEffectAnalysisInfo).
Implicit Types (alias : ResourceAliasAnalysisInfo).

Lemma fails_ops alias ops :
  Forall (fun o => forall st, AnalyzeOperation alias o st = None <->
            exists o', o' ∈ sub_ops o /\ fails_assertion alias o') ops ->
  forall st, foldM (AnalyzeOperation alias) ops st = None <->
    exists o', o' ∈ ops_all ops /\ fails_assertion alias o'.
Proof.
  induction 1 as [|o ops Ho Hops IH]; intros st; simpl.
  - split; [done|]. by intros (o' & ?%elem_of_nil & _).
  - rewrite ops_all_cons.
    destruct (AnalyzeOperation alias o st) as [st1|] eqn:Hop.
    + rewrite IH. split.
      * intros (o' & Hin & Hbad). exists o'. split; [|done]. apply elem_of_app. by right.
      * intros (o' & [Hin|Hin]%elem_of_app & Hbad); [|by exists o'].
        assert (AnalyzeOperation alias o st = None) as Hnone
          by (apply Ho; by exists o').
        congruence.
    + split; [|done]. intros _. apply Ho in Hop as (o' & Hin & Hbad).
      exists o'. split; [|done]. apply elem_of_app. by left.
Qed.

Lemma fails_children alias regions :
  Forall (fun region => forall st, AnalyzeRegion region alias st = None <->
            exists o', o' ∈ region_all region /\ fails_assertion alias o') regions ->
  forall st, AnalyzeChildren alias regions st = None <->
    exists o', o' ∈ regions_all regions /\ fails_assertion alias o'.
Proof.
  unfold AnalyzeChildren.
  induction 1 as [|region regions Hregion Hregions IH]; intros st; simpl.
  - split; [done|]. by intros (o' & ?%elem_of_nil & _).
  - rewrite regions_all_cons, <- region_all_concat.
    destruct (AnalyzeRegion region alias empty_info) as [child|] eqn:Hchild.
    + rewrite IH. split.
      * intros (o' & Hin & Hbad). exists o'. split; [|done]. apply elem_of_app. by right.
      * intros (o' & [Hin|Hin]%elem_of_app & Hbad); [|by exists o'].
        assert (AnalyzeRegion region alias empty_info = None) as Hnone
          by (apply Hregion; by exists o').
        congruence.
    + split; [|done]. intros _. apply Hregion in Hchild as (o' & Hin & Hbad).
      exists o'. split; [|done]. apply elem_of_app. by left.
Qed.

Lemma fails_op alias (o : Operation) :
  forall st, AnalyzeOperation alias o st = None <->
    exists o', o' ∈ sub_ops o /\ fails_assertion alias o'.
Proof.
  induction o as [ptr name operands results regions IH] using Operation_nested_ind.
  intros st. rewrite AnalyzeOperation_eq, sub_ops_eq. simpl.
  pose proof (fails_children alias regions) as Hchildren.
  destruct (AnalyzeChildren alias regions st) as [st1|] eqn:Hst1.
  - rewrite VisitOperation_fails. split.
    + intros Hbad. eexists. split; [left|done].
    + intros (o' & [->|Hin]%elem_of_cons & Hbad); [done|].
      assert (AnalyzeChildren alias regions st = None) as Hnone; [|congruence].
      apply Hchildren; [|by exists o'].
      eapply Forall_impl; [exact IH|]. intros region Hregion st0.
      rewrite AnalyzeRegion_concat, region_all_concat.
      apply fails_ops. by apply Forall_nested_concat.
  - split; [|done]. intros _. apply Hchildren in Hst1 as (o' & Hin & Hbad).
    + exists o'. split; [by right|done].
    + eapply Forall_impl; [exact IH|]. intros region Hregion st0.
      rewrite AnalyzeRegion_concat, region_all_concat.
      apply fails_ops. by apply Forall_nested_concat.
Qed.

(** X16: the analysis of a function fails exactly when some operation
    of the function, at any nesting depth, reaches the computation of its
    resource set and the set is empty. *)
Theorem analysis_fails_exactly_on_empty_resources func alias :
  NewSideEffectAnalysisInfo func alias = None <->
  exists o, o ∈ region_all (getBody func) /\ fails_assertion alias o.
Proof.
  unfold NewSideEffectAnalysisInfo, AnalyzeFunction.
  rewrite region_all_concat, <- (fails_ops alias (concat (getBody func))
    (proj2 (Forall_forall _ _) (fun o _ => fails_op alias o)) empty_info).
  rewrite AnalyzeRegion_concat.
  by destruct (foldM (AnalyzeOperation alias) (concat (getBody func)) empty_info).
Qed.

End FailureProperties.

(** * Further statements at sample functions *)

Section MoreExamples.
Local Existing Instance Sample.externals.
Import Sample SampleModule.

Lemma read_write_region_subregion : subregion read_write_region read_write_body.
Proof.
  apply (subregion_nested _ read_write_region (Nest 20 read_write_region)).
  - right. left.
  - left.
  - apply subregion_refl.
Qed.

Lemma first_write_accesses : accesses alias (Assign 10 5) {[ 5 ]} false.
Proof. unfold accesses, reaches_resources; repeat split; vm_compute; reflexivity. Qed.

Lemma second_write_accesses : accesses alias (Assign 13 5) {[ 5 ]} false.
Proof. unfold accesses, reaches_resources; repeat split; vm_compute; reflexivity. Qed.

(** X3 at an unknown write over two records, both containers enumerated
    in reverse. *)
Lemma EmitEdges_order_independent_witness :
  EmitEdges_in (reverse (elements ({[ -1 ]} : gset Z)))
    (reverse (map_to_list (per_resource_access_info_
                             (state_after [Assign 10 5; Assign 11 6]))))
    12 {[ -1 ]} false (state_after [Assign 10 5; Assign 11 6])
  = EmitEdges 12 {[ -1 ]} false (state_after [Assign 10 5; Assign 11 6]).
Proof.
  apply (EmitEdges_order_independent (ext := externals)).
  - apply reverse_Permutation.
  - apply reverse_Permutation.
Defined.

(** X5 at an identity operation without operands. *)
Lemma Identity_is_never_an_access_witness :
  isa_IdentityOp (getName (Pass 3)) = true
  /\ (VisitOperation alias (Pass 3) empty_info = Some empty_info
      \/ (VisitOperation alias (Pass 3) empty_info = None
          /\ is_Some (GetResourceInfoForOp (Pass 3))
          /\ FindAccessedResources (Pass 3) alias = ∅)).
Proof.
  split; [reflexivity|].
  apply (Identity_is_never_an_access alias (Pass 3) empty_info). reflexivity.
Defined.

(** X6 at the record of resource 5 after the nested region of the sample
    function. *)
Lemma access_records_well_formed_witness :
  per_resource_access_info_ (state_after (concat read_write_region)) !! 5
  = Some (MkAccessInfo (Some 13%positive) [] true true true)
  /\ record_wf (MkAccessInfo (Some 13%positive) [] true true true).
Proof.
  split; [vm_compute; reflexivity|].
  apply (access_records_well_formed alias [concat read_write_region]
           (state_after (concat read_write_region)) 5).
  - vm_compute. reflexivity.
  - vm_compute. reflexivity.
Defined.

Lemma ReadVar_11_in : ReadVar 11 5 ∈ region_all read_write_body.
Proof. vm_compute. do 3 right. left. Qed.

Lemma ReadVar_12_in : ReadVar 12 5 ∈ region_all read_write_body.
Proof. vm_compute. do 4 right. left. Qed.

(** X7 at the two reads of the sample function. *)
Lemma read_only_operations_are_not_ordered_witness :
  OpIsReadOnly (ReadVar 11 5) = true /\ OpIsReadOnly (ReadVar 12 5) = true
  /\ sorted_control_predecessors_ (info_of read_write_body) !! 12%positive
     = Some [10%positive]
  /\ 11%positive ∉ [10%positive].
Proof.
  split; [reflexivity|]. split; [reflexivity|]. split; [vm_compute; reflexivity|].
  destruct (read_only_operations_are_not_ordered (MkFuncOp read_write_body) alias
              (info_of read_write_body) (ReadVar 11 5) (ReadVar 12 5)) as [Hp _].
  - exact read_write_body_NoDup.
  - exact ReadVar_11_in.
  - exact ReadVar_12_in.
  - reflexivity.
  - reflexivity.
  - exact read_write_body_runs.
  - apply (Hp [10%positive]). vm_compute. reflexivity.
Defined.

(** X8 at the edge from the second write of the sample function to a read. *)
Lemma edges_stay_within_regions_witness :
  sorted_control_predecessors_ (info_of read_write_body) !! 13%positive
  = Some [11%positive; 12%positive]
  /\ edge_within alias (concat read_write_body) 13 11.
Proof.
  split; [vm_compute; reflexivity|].
  destruct (edges_stay_within_regions (MkFuncOp read_write_body) alias
              (info_of read_write_body) read_write_body_runs) as [Hp _].
  apply (Hp 13%positive [11%positive; 12%positive]).
  - vm_compute. reflexivity.
  - left.
Defined.

(** X9 at the nested region of the sample function. *)
Lemma nested_region_is_analysed_alone_witness :
  subregion read_write_region read_write_body
  /\ exists info_r,
       NewSideEffectAnalysisInfo (MkFuncOp read_write_region) alias = Some info_r
       /\ sorted_control_predecessors_ (info_of read_write_body) !! 13%positive
          = sorted_control_predecessors_ info_r !! 13%positive.
Proof.
  split; [exact read_write_region_subregion|].
  destruct (nested_region_is_analysed_alone (MkFuncOp read_write_body) alias
              (info_of read_write_body) read_write_region
              read_write_body_NoDup read_write_region_subregion read_write_body_runs)
    as (info_r & Hr & Hagree).
  exists info_r. split; [exact Hr|]. apply Hagree. compute_done.
Defined.

(** X10 at the second write of the sample function and the read at 11. *)
Lemma predecessors_are_the_frontier_witness :
  AnalyzeRegion [before_second_write] alias empty_info
  = Some (state_after before_second_write)
  /\ 11%positive ∈ record_edges false
       (per_resource_access_info_ (state_after before_second_write) !! 5)
  /\ exists l,
       sorted_control_predecessors_ (info_of read_write_body) !! 13%positive = Some l
       /\ 11%positive ∈ l.
Proof.
  assert (AnalyzeRegion [before_second_write] alias empty_info
          = Some (state_after before_second_write)) as Hst
    by (vm_compute; reflexivity).
  assert (11%positive ∈ record_edges false
            (per_resource_access_info_ (state_after before_second_write) !! 5)) as Hin
    by compute_done.
  split; [exact Hst|]. split; [exact Hin|].
  apply (predecessors_are_the_frontier (MkFuncOp read_write_body) alias
           (info_of read_write_body) read_write_region
           before_second_write (Assign 13 5) [] {[ 5 ]} false
           (state_after before_second_write)
           read_write_body_NoDup read_write_region_subregion eq_refl
           second_write_accesses Hst read_write_body_runs
           11%positive).
  left. exists 5. split; [compute_done|exact Hin].
Defined.

(** X11 at the edge between the read at 11 and the second write. *)
Lemma queries_mirror_witness :
  11%positive ∈ DirectControlPredecessors (info_of read_write_body) 13 None
  <-> 13%positive ∈ DirectControlSuccessors (info_of read_write_body) 11 None.
Proof.
  apply (queries_mirror (MkFuncOp read_write_body) alias (info_of read_write_body)
           13 11 read_write_body_runs).
Defined.


(** X13 at a module of two sample functions. *)
Lemma SideEffectAnalysis_per_function_witness :
  NoDup (getFuncOps two_functions).*1
  /\ exists info_map,
       SideEffectAnalysis (Some two_functions) GetAnalysisForFunc = Some info_map
       /\ info_map !! 100%positive = Some (info_of read_write_body).
Proof.
  assert (NoDup (getFuncOps two_functions).*1) as Hnd by compute_done.
  split; [exact Hnd|].
  pose proof (SideEffectAnalysis_per_function two_functions GetAnalysisForFunc Hnd) as H.
  destruct (SideEffectAnalysis (Some two_functions) GetAnalysisForFunc) as [info_map|].
  - exists info_map. split; [reflexivity|]. destruct H as [H _].
    destruct (H 100%positive (MkFuncOp read_write_body)) as [-> _]; [left|].
    exact read_write_body_runs.
  - exfalso. destruct H as (p & f & Hin & Hnone).
    apply elem_of_cons in Hin as [[= -> ->]|Hin].
    { unfold GetAnalysisForFunc in Hnone. by rewrite read_write_body_runs in Hnone. }
    apply list_elem_of_singleton in Hin as [= -> ->].
    unfold GetAnalysisForFunc in Hnone. by rewrite first_write_body_runs in Hnone.
Defined.

(** X14 at the two writes of the sample function: the second depends on
    the first through the reads between them. *)
Lemma conflicting_accesses_are_ordered_witness :
  conflict {[ 5 ]} false {[ 5 ]} false
  /\ sorted_control_predecessors_ (info_of read_write_body) !! 13%positive
     = Some [11%positive; 12%positive]
  /\ depends_on (info_of read_write_body) 13%positive 10%positive.
Proof.
  assert (conflict {[ 5 ]} false {[ 5 ]} false) as Hconf.
  { split; [by left|]. right; right. exists 5. split; by apply elem_of_singleton. }
  split; [exact Hconf|]. split; [vm_compute; reflexivity|].
  apply (conflicting_accesses_are_ordered (MkFuncOp read_write_body) alias
           (info_of read_write_body) read_write_region
           [] (Assign 10 5) [ReadVar 11 5; ReadVar 12 5] (Assign 13 5) []
           {[ 5 ]} false {[ 5 ]} false
           read_write_body_NoDup read_write_region_subregion eq_refl
           first_write_accesses
           second_write_accesses Hconf read_write_body_runs).
Defined.

Lemma second_write_depends_on_read :
  depends_on (info_of read_write_body) 13%positive 11%positive.
Proof.
  apply tc_once. exists [11%positive; 12%positive].
  split; [vm_compute; reflexivity|left].
Qed.

(** X15 at the edge from the second write of the sample function to the
    read at 11. *)
Lemma dependencies_follow_program_order_witness :
  depends_on (info_of read_write_body) 13%positive 11%positive
  /\ earlier (ptrs (region_all read_write_body)) 11%positive 13%positive
  /\ 11%positive <> 13%positive.
Proof.
  split; [exact second_write_depends_on_read|].
  apply (dependencies_follow_program_order (MkFuncOp read_write_body) alias
           (info_of read_write_body) 13%positive 11%positive
           read_write_body_NoDup read_write_body_runs second_write_depends_on_read).
Defined.

End MoreExamples.
